(** * The reactive dependency-tracking core of Vue 2: Dep, Watcher, Observer, traverse

    A shallow embedding of
      - core/observer/dep.js       (class Dep, pushTarget, popTarget)
      - core/observer/watcher.js   (class Watcher)
      - core/observer/index.js     (Observer, observe, defineReactive, set, del)
      - core/observer/traverse.js  (traverse, _traverse)
    as state-passing functions over one record [World], which holds the
    JavaScript heap the code runs on and the module-level variables of the
    four files.  Functions that may recurse without bound on a cyclic heap
    take a [fuel] argument and return [None] when it is used up. *)

From stdpp Require Import gmap strings list fin_maps sorting.
From Stdlib Require Import ZArith Lia.

Set Default Proof Using "Type".
#[global] Set Warnings "-clear-no-such-hyp".

(* ===================================================================== *)
(** ** JavaScript values and objects *)
(* ===================================================================== *)

(** Numbers: the code only compares them ([===], [!==]) and uses them as
    array lengths, so the model keeps NaN and the integers. *)
Inductive Num :=
  | NaN
  | Int (z : Z).

Inductive Value :=
  | VUndef
  | VNull
  | VBool (b : bool)
  | VNum (n : Num)
  | VStr (s : string)
  | VRef (l : nat).          (* reference to the object at address l *)

(** Property keys.  [KIndex n] is a key for which [isValidArrayIndex] holds
    (a non-negative integer, as a number or as its decimal string); [KName s]
    is any other string.  The marker property [__ob__] is not a [KName]: it
    is the field [o_ob] of an object. *)
Inductive Key :=
  | KIndex (n : nat)
  | KName (s : string).

#[global] Instance Num_eq_dec : EqDecision Num.
Proof. solve_decision. Defined.
#[global] Instance Value_eq_dec : EqDecision Value.
Proof. solve_decision. Defined.
#[global] Instance Key_eq_dec : EqDecision Key.
Proof. solve_decision. Defined.
Arguments Num_eq_dec : simpl never.
Arguments Value_eq_dec : simpl never.
Arguments Key_eq_dec : simpl never.

(** [a === b] *)
Definition strict_eq (a b : Value) : bool :=
  match a, b with
  | VNum NaN, _ | _, VNum NaN => false
  | _, _ => bool_decide (a = b)
  end.

(** [a !== a] : true exactly for NaN *)
Definition self_neq (a : Value) : bool := negb (strict_eq a a).

(** Truthiness, as used by [if (x)], [x && y], [!x]. *)
Definition truthy (v : Value) : bool :=
  match v with
  | VUndef | VNull => false
  | VBool b => b
  | VNum NaN => false
  | VNum (Int z) => negb (z =? 0)%Z
  | VStr s => negb (bool_decide (s = ""%string))
  | VRef _ => true
  end.

(** An accessor function stored in a property descriptor.
    [FUser c]     : a getter/setter written by the user, reading/writing
                    the hidden cell [c] (the usual [get x() { return this._x }]).
    [FReactive d] : [reactiveGetter]/[reactiveSetter] of the closure created by
                    the call of [defineReactive] whose Dep has id [d]. *)
Inductive Fn :=
  | FUser (c : nat)
  | FReactive (d : nat).

Inductive Desc :=
  | PData (v : Value) (writable : bool)
  | PAccessor (getter : option Fn) (setter : option Fn).

Record Property := {
  p_desc : Desc;
  p_enumerable : bool;
  p_configurable : bool;
}.

(** What [Object.prototype.toString] and [instanceof] tell the code about an
    object.  [CObject ks] has tag [[object Object]]; [ks] are the keys its
    prototype chain provides below [Object.prototype] ([[]] for a literal). *)
Inductive ObjClass :=
  | CObject (proto_keys : list string)
  | CArray
  | CVNode
  | CExotic.                 (* Date, RegExp, Map, ...: an object, not plain *)

Inductive Integrity :=
  | Extensible
  | NonExtensible
  | Frozen.

Record Obj := {
  o_class : ObjClass;
  o_elems : list Value;              (* the elements, for an array *)
  o_props : list (Key * Property);   (* other own properties, in creation order *)
  o_ob : option nat;                 (* own [__ob__]: an Observer, named by its Dep id *)
  o_integrity : Integrity;
  o_isVue : bool;                    (* [_isVue] *)
}.

(** The state [defineReactive] closes over: one record per call, named by
    the id of the Dep the call creates. *)
Record Reactive := {
  r_val : Value;
  r_childOb : option nat;            (* [childOb]; [None] for false/undefined *)
  r_getter : option Fn;
  r_setter : option Fn;
  r_shallow : bool;
  r_customSetter : bool;             (* a [customSetter] was passed *)
}.

(** [class Observer]; [dep] is the key under which the record is stored. *)
Record Observer := {
  ob_value : nat;
  vmCount : nat;
}.

(* ===================================================================== *)
(** ** Watchers and their getters *)
(* ===================================================================== *)

(** The getter of a watcher is user code that reads reactive state: a tree
    of property reads ending in a value or a thrown error. *)
Inductive Expr :=
  | Return (v : Value)
  | Raise (e : Value)
  | Read (target : Value) (k : Key) (cont : Value → Expr).

Record Watcher := {
  vm : nat;
  deep : bool;
  user : bool;
  lazy : bool;
  sync : bool;
  dirty : bool;
  active : bool;
  deps : list nat;
  newDeps : list nat;
  depIds : gset nat;
  newDepIds : gset nat;
  getter : Expr;
  value : Value;
}.

Record Component := {
  _watcher : option nat;
  _watchers : list nat;
  _isBeingDestroyed : bool;
}.

(** Calls the theorems speak about, in the order they happen.  Calls to the
    collaborators outside the four files (scheduler, error handler, user
    callbacks, warnings) leave no other mark on the state. *)
Inductive Event :=
  | EPushTarget (t : option nat)
  | EPopTarget
  | EGetter (w : nat)
  | EHandleError (e : Value) (w : nat)
  | ETraverse (v : Value)
  | ECleanupDeps (w : nat)
  | EAddDep (w d : nat)
  | EUpdate (w : nat)
  | ERun (w : nat)
  | EQueueWatcher (w : nat)
  | ECallback (w : nat) (v old : Value)
  | ENotify (d : nat)
  | ECustomSetter (d : nat)
  | EWarn.

#[global] Instance Event_eq_dec : EqDecision Event.
Proof. solve_decision. Defined.
Arguments Event_eq_dec : simpl never.

Record Env := {
  production : bool;        (* process.env.NODE_ENV === 'production' *)
  config_async : bool;      (* config.async *)
  serverRendering : bool;   (* isServerRendering() *)
  shouldObserve : bool;
}.

Record World := {
  env : Env;
  (* dep.js *)
  dep_uid : nat;
  subs : gmap nat (list nat);        (* Dep id ↦ its subs, as Watcher ids *)
  target : option nat;               (* Dep.target *)
  targetStack : list (option nat);
  (* watcher.js *)
  watcher_uid : nat;
  watchers : gmap nat Watcher;
  vms : gmap nat Component;
  (* index.js and the heap *)
  heap : gmap nat Obj;
  observers : gmap nat Observer;
  closures : gmap nat Reactive;
  cells : gmap nat Value;
  (* traverse.js *)
  seenObjects : gset nat;
  log : list Event;
}.

(** Field updates. *)
Definition set_subs (x : gmap nat (list nat)) (st : World) : World :=
  {| env := env st; dep_uid := dep_uid st; subs := x; target := target st;
     targetStack := targetStack st; watcher_uid := watcher_uid st;
     watchers := watchers st; vms := vms st; heap := heap st;
     observers := observers st; closures := closures st; cells := cells st;
     seenObjects := seenObjects st; log := log st |}.
Definition set_dep_uid (x : nat) (st : World) : World :=
  {| env := env st; dep_uid := x; subs := subs st; target := target st;
     targetStack := targetStack st; watcher_uid := watcher_uid st;
     watchers := watchers st; vms := vms st; heap := heap st;
     observers := observers st; closures := closures st; cells := cells st;
     seenObjects := seenObjects st; log := log st |}.
Definition set_target (x : option nat) (st : World) : World :=
  {| env := env st; dep_uid := dep_uid st; subs := subs st; target := x;
     targetStack := targetStack st; watcher_uid := watcher_uid st;
     watchers := watchers st; vms := vms st; heap := heap st;
     observers := observers st; closures := closures st; cells := cells st;
     seenObjects := seenObjects st; log := log st |}.
Definition set_targetStack (x : list (option nat)) (st : World) : World :=
  {| env := env st; dep_uid := dep_uid st; subs := subs st; target := target st;
     targetStack := x; watcher_uid := watcher_uid st;
     watchers := watchers st; vms := vms st; heap := heap st;
     observers := observers st; closures := closures st; cells := cells st;
     seenObjects := seenObjects st; log := log st |}.
Definition set_watcher_uid (x : nat) (st : World) : World :=
  {| env := env st; dep_uid := dep_uid st; subs := subs st; target := target st;
     targetStack := targetStack st; watcher_uid := x;
     watchers := watchers st; vms := vms st; heap := heap st;
     observers := observers st; closures := closures st; cells := cells st;
     seenObjects := seenObjects st; log := log st |}.
Definition set_watchers (x : gmap nat Watcher) (st : World) : World :=
  {| env := env st; dep_uid := dep_uid st; subs := subs st; target := target st;
     targetStack := targetStack st; watcher_uid := watcher_uid st;
     watchers := x; vms := vms st; heap := heap st;
     observers := observers st; closures := closures st; cells := cells st;
     seenObjects := seenObjects st; log := log st |}.
Definition set_vms (x : gmap nat Component) (st : World) : World :=
  {| env := env st; dep_uid := dep_uid st; subs := subs st; target := target st;
     targetStack := targetStack st; watcher_uid := watcher_uid st;
     watchers := watchers st; vms := x; heap := heap st;
     observers := observers st; closures := closures st; cells := cells st;
     seenObjects := seenObjects st; log := log st |}.
Definition set_heap (x : gmap nat Obj) (st : World) : World :=
  {| env := env st; dep_uid := dep_uid st; subs := subs st; target := target st;
     targetStack := targetStack st; watcher_uid := watcher_uid st;
     watchers := watchers st; vms := vms st; heap := x;
     observers := observers st; closures := closures st; cells := cells st;
     seenObjects := seenObjects st; log := log st |}.
Definition set_observers (x : gmap nat Observer) (st : World) : World :=
  {| env := env st; dep_uid := dep_uid st; subs := subs st; target := target st;
     targetStack := targetStack st; watcher_uid := watcher_uid st;
     watchers := watchers st; vms := vms st; heap := heap st;
     observers := x; closures := closures st; cells := cells st;
     seenObjects := seenObjects st; log := log st |}.
Definition set_closures (x : gmap nat Reactive) (st : World) : World :=
  {| env := env st; dep_uid := dep_uid st; subs := subs st; target := target st;
     targetStack := targetStack st; watcher_uid := watcher_uid st;
     watchers := watchers st; vms := vms st; heap := heap st;
     observers := observers st; closures := x; cells := cells st;
     seenObjects := seenObjects st; log := log st |}.
Definition set_cells (x : gmap nat Value) (st : World) : World :=
  {| env := env st; dep_uid := dep_uid st; subs := subs st; target := target st;
     targetStack := targetStack st; watcher_uid := watcher_uid st;
     watchers := watchers st; vms := vms st; heap := heap st;
     observers := observers st; closures := closures st; cells := x;
     seenObjects := seenObjects st; log := log st |}.
Definition set_seenObjects (x : gset nat) (st : World) : World :=
  {| env := env st; dep_uid := dep_uid st; subs := subs st; target := target st;
     targetStack := targetStack st; watcher_uid := watcher_uid st;
     watchers := watchers st; vms := vms st; heap := heap st;
     observers := observers st; closures := closures st; cells := cells st;
     seenObjects := x; log := log st |}.
Definition emit (e : Event) (st : World) : World :=
  {| env := env st; dep_uid := dep_uid st; subs := subs st; target := target st;
     targetStack := targetStack st; watcher_uid := watcher_uid st;
     watchers := watchers st; vms := vms st; heap := heap st;
     observers := observers st; closures := closures st; cells := cells st;
     seenObjects := seenObjects st; log := log st ++ [e] |}.

Definition set_dirty (x : bool) (w : Watcher) : Watcher :=
  {| vm := vm w; deep := deep w; user := user w; lazy := lazy w; sync := sync w;
     dirty := x; active := active w; deps := deps w; newDeps := newDeps w;
     depIds := depIds w; newDepIds := newDepIds w; getter := getter w;
     value := value w |}.
Definition set_active (x : bool) (w : Watcher) : Watcher :=
  {| vm := vm w; deep := deep w; user := user w; lazy := lazy w; sync := sync w;
     dirty := dirty w; active := x; deps := deps w; newDeps := newDeps w;
     depIds := depIds w; newDepIds := newDepIds w; getter := getter w;
     value := value w |}.
Definition set_value (x : Value) (w : Watcher) : Watcher :=
  {| vm := vm w; deep := deep w; user := user w; lazy := lazy w; sync := sync w;
     dirty := dirty w; active := active w; deps := deps w; newDeps := newDeps w;
     depIds := depIds w; newDepIds := newDepIds w; getter := getter w;
     value := x |}.
(** The four dependency containers of a watcher. *)
Definition set_collected (ds nds : list nat) (ids nids : gset nat) (w : Watcher)
  : Watcher :=
  {| vm := vm w; deep := deep w; user := user w; lazy := lazy w; sync := sync w;
     dirty := dirty w; active := active w; deps := ds; newDeps := nds;
     depIds := ids; newDepIds := nids; getter := getter w;
     value := value w |}.

(** An error the JavaScript engine throws in strict mode. *)
Definition TypeError : Value := VStr "TypeError".
Definition RangeError : Value := VStr "RangeError".

(** How a call ends: with a result or with a thrown error. *)
Inductive Res (A : Type) :=
  | Ok (a : A)
  | Throw (e : Value).
Arguments Ok {A} a.
Arguments Throw {A} e.

(* ===================================================================== *)
(** ** dep.js *)
(* ===================================================================== *)

(** [remove(arr, item)] of util: drops the first occurrence. *)
Fixpoint remove (arr : list nat) (item : nat) : list nat :=
  match arr with
  | [] => []
  | x :: rest => if decide (x = item) then rest else x :: remove rest item
  end.

Definition subs_of (d : nat) (st : World) : list nat :=
  default [] (subs st !! d).

(** [new Dep()] *)
Definition Dep_new (st : World) : nat * World :=
  let id := dep_uid st in
  (id, set_subs (<[id := []]> (subs st)) (set_dep_uid (S id) st)).

Definition Dep_addSub (d sub : nat) (st : World) : World :=
  set_subs (<[d := subs_of d st ++ [sub]]> (subs st)) st.

Definition Dep_removeSub (d sub : nat) (st : World) : World :=
  set_subs (<[d := remove (subs_of d st) sub]> (subs st)) st.

Definition pushTarget (t : option nat) (st : World) : World :=
  let st := emit (EPushTarget t) st in
  set_target t (set_targetStack (targetStack st ++ [t]) st).

(** [targetStack[targetStack.length - 1]] is [undefined] on an empty stack;
    a null or undefined [Dep.target] is [None]. *)
Definition popTarget (st : World) : World :=
  let st := emit EPopTarget st in
  let stack := removelast (targetStack st) in
  set_target (mjoin (last stack)) (set_targetStack stack st).

(* ===================================================================== *)
(** ** watcher.js: collecting dependencies *)
(* ===================================================================== *)

Definition upd_watcher (w : nat) (f : Watcher → Watcher) (st : World) : World :=
  match watchers st !! w with
  | Some x => set_watchers (<[w := f x]> (watchers st)) st
  | None => st
  end.

Definition Watcher_addDep (w d : nat) (st : World) : World :=
  match watchers st !! w with
  | None => st
  | Some x =>
    let st := emit (EAddDep w d) st in
    if decide (d ∈ newDepIds x) then st
    else
      let st := set_watchers
        (<[w := set_collected (deps x) (newDeps x ++ [d]) (depIds x)
                  ({[d]} ∪ newDepIds x) x]> (watchers st)) st in
      if decide (d ∈ depIds x) then st else Dep_addSub d w st
  end.

Definition Dep_depend (d : nat) (st : World) : World :=
  match target st with
  | Some w => Watcher_addDep w d st
  | None => st
  end.

(** The [while (i--)] loop of [cleanupDeps]: from the last dep to the first. *)
Definition cleanup_loop (w : nat) (newDepIds : gset nat) (deps : list nat)
    (st : World) : World :=
  foldr (λ dep st,
           if decide (dep ∈ newDepIds) then st else Dep_removeSub dep w st)
        st deps.

Definition Watcher_cleanupDeps (w : nat) (st : World) : World :=
  match watchers st !! w with
  | None => st
  | Some x =>
    let st := emit (ECleanupDeps w) st in
    let st := cleanup_loop w (newDepIds x) (deps x) st in
    upd_watcher w (set_collected (newDeps x) [] (newDepIds x) ∅) st
  end.

(* ===================================================================== *)
(** ** Reading the heap *)
(* ===================================================================== *)

Definition obj_of (v : Value) (st : World) : option Obj :=
  match v with
  | VRef l => heap st !! l
  | _ => None
  end.

(** [isObject(v)]: [v !== null && typeof v === 'object'] *)
Definition isObject (v : Value) (st : World) : bool :=
  bool_decide (is_Some (obj_of v st)).

Definition is_array (o : Obj) : bool :=
  match o_class o with CArray => true | _ => false end.

(** [Array.isArray(v)] *)
Definition isArray (v : Value) (st : World) : bool :=
  match obj_of v st with Some o => is_array o | None => false end.

(** [v instanceof VNode] *)
Definition isVNode (v : Value) (st : World) : bool :=
  match obj_of v st with
  | Some o => match o_class o with CVNode => true | _ => false end
  | None => false
  end.

(** [isPlainObject(v)]: [_toString.call(v) === '[object Object]'] *)
Definition is_plain (o : Obj) : bool :=
  match o_class o with CObject _ | CVNode => true | _ => false end.

Definition is_frozen (o : Obj) : bool :=
  match o_integrity o with Frozen => true | _ => false end.

Definition is_extensible (o : Obj) : bool :=
  match o_integrity o with Extensible => true | _ => false end.

(** [Object.isFrozen(v)]; a primitive is frozen. *)
Definition isFrozen (v : Value) (st : World) : bool :=
  match obj_of v st with Some o => is_frozen o | None => true end.

(** [v.__ob__], when it is an Observer *)
Definition ob_of (v : Value) (st : World) : option nat :=
  o ← obj_of v st; o_ob o.

Fixpoint assoc {A} (k : Key) (l : list (Key * A)) : option A :=
  match l with
  | [] => None
  | (k', a) :: rest => if decide (k' = k) then Some a else assoc k rest
  end.

Definition data_prop (v : Value) (frozen : bool) : Property :=
  {| p_desc := PData v (negb frozen); p_enumerable := true;
     p_configurable := negb frozen |}.

(** [Object.getOwnPropertyDescriptor(o, k)].  Freezing an object makes every
    own property non-configurable and every data property read-only. *)
Definition own_prop (o : Obj) (k : Key) : option Property :=
  match assoc k (o_props o) with
  | Some p =>
    if is_frozen o then
      Some {| p_desc := match p_desc p with
                        | PData v _ => PData v false
                        | d => d
                        end;
              p_enumerable := p_enumerable p; p_configurable := false |}
    else Some p
  | None =>
    if is_array o then
      match k with
      | KIndex i => (λ v, data_prop v (is_frozen o)) <$> o_elems o !! i
      | KName s =>
        if decide (s = "length"%string) then
          Some {| p_desc := PData (VNum (Int (Z.of_nat (length (o_elems o)))))
                              (negb (is_frozen o));
                  p_enumerable := false; p_configurable := false |}
        else None
      end
    else None
  end.

(** [hasOwn(o, k)] *)
Definition hasOwn (o : Obj) (k : Key) : bool :=
  bool_decide (is_Some (own_prop o k)).

(** Running a list of steps, stopping when one runs out of fuel. *)
Fixpoint mfold {A} (f : A → World → option World) (l : list A) (st : World)
  : option World :=
  match l with
  | [] => Some st
  | a :: rest => st' ← f a st; mfold f rest st'
  end.

(** [dependArray(value)] of index.js *)
Fixpoint dependArray (fuel : nat) (value : Value) (st : World) : option World :=
  match fuel with
  | 0 => None
  | S n =>
    match obj_of value st with
    | None => Some st
    | Some o =>
      mfold (λ e st,
               let st := match ob_of e st with
                         | Some d => Dep_depend d st
                         | None => st
                         end in
               if isArray e st then dependArray n e st else Some st)
            (o_elems o) st
    end
  end.

(** Calling the [get] function of a property descriptor.  For [FReactive d]
    this is [reactiveGetter] of index.js. *)
Fixpoint call_getter (fuel : nat) (g : Fn) (st : World) : option (World * Value) :=
  match fuel with
  | 0 => None
  | S n =>
    match g with
    | FUser c => Some (st, default VUndef (cells st !! c))
    | FReactive d =>
      match closures st !! d with
      | None => Some (st, VUndef)
      | Some c =>
        '(st, val) ← match r_getter c with
                     | Some g' => call_getter n g' st
                     | None => Some (st, r_val c)
                     end;
        st ← match target st with
             | Some _ =>
               let st := Dep_depend d st in
               match r_childOb c with
               | Some ob =>
                 let st := Dep_depend ob st in
                 if isArray val st then dependArray n val st else Some st
               | None => Some st
               end
             | None => Some st
             end;
        Some (st, val)
      end
    end
  end.

Definition reactiveGetter (fuel : nat) (d : nat) (st : World)
  : option (World * Value) :=
  call_getter fuel (FReactive d) st.

(** [o[k]] for the object at address [l].  A key that is not an own property
    reads as [undefined]. *)
Definition prop_get (fuel : nat) (l : nat) (k : Key) (st : World)
  : option (World * Value) :=
  match heap st !! l with
  | None => Some (st, VUndef)
  | Some o =>
    match own_prop o k with
    | Some p =>
      match p_desc p with
      | PData v _ => Some (st, v)
      | PAccessor (Some g) _ => call_getter fuel g st
      | PAccessor None _ => Some (st, VUndef)
      end
    | None => Some (st, VUndef)
    end
  end.

(* ===================================================================== *)
(** ** traverse.js *)
(* ===================================================================== *)

Definition index_keys (ps : list (Key * Property)) : list nat :=
  omap (λ kp, match kp with
              | (KIndex i, p) => if p_enumerable p then Some i else None
              | _ => None
              end) ps.

Definition name_keys (ps : list (Key * Property)) : list Key :=
  omap (λ kp, match kp with
              | (KName s, p) => if p_enumerable p then Some (KName s) else None
              | _ => None
              end) ps.

(** [Object.keys(o)] of a non-array: integer keys in ascending order, then
    the other keys in creation order. *)
Definition keys (o : Obj) : list Key :=
  (KIndex <$> merge_sort le (index_keys (o_props o))) ++ name_keys (o_props o).

Fixpoint _traverse (fuel : nat) (val : Value) (st : World) : option World :=
  match fuel with
  | 0 => None
  | S n =>
    let isA := isArray val st in
    if (negb isA && negb (isObject val st)) || isFrozen val st || isVNode val st
    then Some st
    else
      match val, obj_of val st with
      | VRef l, Some o =>
        let seen_before :=
          match o_ob o with
          | Some depId => bool_decide (depId ∈ seenObjects st)
          | None => false
          end in
        if seen_before then Some st
        else
          let st := match o_ob o with
                    | Some depId => set_seenObjects ({[depId]} ∪ seenObjects st) st
                    | None => st
                    end in
          if isA then mfold (λ e st, _traverse n e st) (rev (o_elems o)) st
          else mfold (λ k st, '(st, v) ← prop_get n l k st; _traverse n v st)
                     (rev (keys o)) st
      | _, _ => Some st
      end
  end.

Definition traverse (fuel : nat) (val : Value) (st : World) : option World :=
  let st := emit (ETraverse val) st in
  st ← _traverse fuel val st;
  Some (set_seenObjects ∅ st).

(* ===================================================================== *)
(** ** watcher.js: evaluation *)
(* ===================================================================== *)

(** Running the getter.  Reading a property of [undefined] or [null] throws;
    a property of another primitive reads as [undefined]. *)
Fixpoint run_getter (fuel : nat) (e : Expr) (st : World)
  : option (World * Res Value) :=
  match e with
  | Return v => Some (st, Ok v)
  | Raise err => Some (st, Throw err)
  | Read t k cont =>
    match t with
    | VUndef | VNull => Some (st, Throw TypeError)
    | VRef l => '(st, v) ← prop_get fuel l k st; run_getter fuel (cont v) st
    | _ => run_getter fuel (cont VUndef) st
    end
  end.

Definition Watcher_get (fuel : nat) (w : nat) (st : World)
  : option (World * Res Value) :=
  match watchers st !! w with
  | None => Some (st, Ok VUndef)
  | Some x =>
    let st := pushTarget (Some w) st in
    let st := emit (EGetter w) st in
    '(st, r) ← run_getter fuel (getter x) st;
    (* catch *)
    let '(st, val, r) :=
      match r with
      | Ok v => (st, v, Ok v)
      | Throw e =>
        if user x then (emit (EHandleError e w) st, VUndef, Ok VUndef)
        else (st, VUndef, Throw e)
      end in
    (* finally *)
    st ← (if deep x then traverse fuel val st else Some st);
    let st := popTarget st in
    let st := Watcher_cleanupDeps w st in
    Some (st, r)
  end.

Definition Watcher_run (fuel : nat) (w : nat) (st : World)
  : option (World * Res unit) :=
  let st := emit (ERun w) st in
  match watchers st !! w with
  | None => Some (st, Ok ())
  | Some x =>
    if active x then
      '(st, r) ← Watcher_get fuel w st;
      match r with
      | Throw e => Some (st, Throw e)
      | Ok val =>
        match watchers st !! w with
        | None => Some (st, Ok ())
        | Some x =>
          if negb (strict_eq val (value x)) || isObject val st || deep x then
            let oldValue := value x in
            let st := upd_watcher w (set_value val) st in
            (* user: invokeWithErrorHandling(cb, ...); otherwise cb.call(...) *)
            Some (emit (ECallback w val oldValue) st, Ok ())
          else Some (st, Ok ())
        end
      end
    else Some (st, Ok ())
  end.

Definition Watcher_update (fuel : nat) (w : nat) (st : World)
  : option (World * Res unit) :=
  let st := emit (EUpdate w) st in
  match watchers st !! w with
  | None => Some (st, Ok ())
  | Some x =>
    if lazy x then Some (upd_watcher w (set_dirty true) st, Ok ())
    else if sync x then Watcher_run fuel w st
    else Some (emit (EQueueWatcher w) st, Ok ())
  end.

Definition Watcher_evaluate (fuel : nat) (w : nat) (st : World)
  : option (World * Res unit) :=
  '(st, r) ← Watcher_get fuel w st;
  match r with
  | Throw e => Some (st, Throw e)
  | Ok val =>
    let st := upd_watcher w (set_value val) st in
    Some (upd_watcher w (set_dirty false) st, Ok ())
  end.

(** [Watcher.prototype.depend] *)
Definition Watcher_depend (w : nat) (st : World) : World :=
  match watchers st !! w with
  | None => st
  | Some x => foldr (λ d st, Dep_depend d st) st (deps x)
  end.

Definition upd_vm (v : nat) (f : Component → Component) (st : World) : World :=
  match vms st !! v with
  | Some c => set_vms (<[v := f c]> (vms st)) st
  | None => st
  end.

Definition Watcher_teardown (w : nat) (st : World) : World :=
  match watchers st !! w with
  | None => st
  | Some x =>
    if active x then
      let st :=
        match vms st !! vm x with
        | Some c =>
          if _isBeingDestroyed c then st
          else upd_vm (vm x) (λ c, {| _watcher := _watcher c;
                                      _watchers := remove (_watchers c) w;
                                      _isBeingDestroyed := _isBeingDestroyed c |}) st
        | None => st
        end in
      let st := foldr (λ d st, Dep_removeSub d w st) st (deps x) in
      upd_watcher w (set_active false) st
    else st
  end.

(** The options object of the constructor. *)
Record Options := {
  opt_deep : bool;
  opt_user : bool;
  opt_lazy : bool;
  opt_sync : bool;
}.

(** [new Watcher(vm, expOrFn, cb, options, isRenderWatcher)], for a function
    [expOrFn].  Returns the id of the new watcher. *)
Definition Watcher_new (fuel : nat) (v : nat) (expOrFn : Expr)
    (options : option Options) (isRenderWatcher : bool) (st : World)
  : option (World * Res nat) :=
  let id := S (watcher_uid st) in
  let st := upd_vm v (λ c, {| _watcher := if isRenderWatcher then Some id
                                           else _watcher c;
                              _watchers := _watchers c ++ [id];
                              _isBeingDestroyed := _isBeingDestroyed c |}) st in
  let flag (f : Options → bool) :=
    match options with Some o => f o | None => false end in
  let x := {| vm := v; deep := flag opt_deep; user := flag opt_user;
              lazy := flag opt_lazy; sync := flag opt_sync;
              dirty := flag opt_lazy; active := true;
              deps := []; newDeps := []; depIds := ∅; newDepIds := ∅;
              getter := expOrFn; value := VUndef |} in
  let st := set_watchers (<[id := x]> (watchers st)) (set_watcher_uid id st) in
  if lazy x then Some (st, Ok id)
  else
    '(st, r) ← Watcher_get fuel id st;
    match r with
    | Throw e => Some (st, Throw e)
    | Ok val => Some (upd_watcher id (set_value val) st, Ok id)
    end.

(* ===================================================================== *)
(** ** dep.js: notify *)
(* ===================================================================== *)

(** A [for] loop whose body may throw. *)
Fixpoint for_each {A} (f : A → World → option (World * Res unit))
    (l : list A) (st : World) : option (World * Res unit) :=
  match l with
  | [] => Some (st, Ok ())
  | a :: rest =>
    match f a st with
    | Some (st', Ok _) => for_each f rest st'
    | r => r
    end
  end.

(** [subs.sort((a, b) => a.id - b.id)]: a watcher is named by its id. *)
Definition sort_by_id (l : list nat) : list nat := merge_sort le l.

Definition Dep_notify (fuel : nat) (d : nat) (st : World)
  : option (World * Res unit) :=
  let st := emit (ENotify d) st in
  let snapshot := subs_of d st in                       (* this.subs.slice() *)
  let snapshot :=
    if negb (production (env st)) && negb (config_async (env st))
    then sort_by_id snapshot else snapshot in
  for_each (λ sub st, Watcher_update fuel sub st) snapshot st.

(* ===================================================================== *)
(** ** index.js: Observer, observe, defineReactive *)
(* ===================================================================== *)

Definition set_o_props (ps : list (Key * Property)) (o : Obj) : Obj :=
  {| o_class := o_class o; o_elems := o_elems o; o_props := ps;
     o_ob := o_ob o; o_integrity := o_integrity o; o_isVue := o_isVue o |}.
Definition set_o_elems (es : list Value) (o : Obj) : Obj :=
  {| o_class := o_class o; o_elems := es; o_props := o_props o;
     o_ob := o_ob o; o_integrity := o_integrity o; o_isVue := o_isVue o |}.
Definition set_o_ob (ob : option nat) (o : Obj) : Obj :=
  {| o_class := o_class o; o_elems := o_elems o; o_props := o_props o;
     o_ob := ob; o_integrity := o_integrity o; o_isVue := o_isVue o |}.

Definition upd_obj (l : nat) (f : Obj → Obj) (st : World) : World :=
  match heap st !! l with
  | Some o => set_heap (<[l := f o]> (heap st)) st
  | None => st
  end.

Fixpoint assoc_set {A} (k : Key) (a : A) (l : list (Key * A)) : list (Key * A) :=
  match l with
  | [] => [(k, a)]
  | (k', a') :: rest =>
    if decide (k' = k) then (k, a) :: rest else (k', a') :: assoc_set k a rest
  end.

Fixpoint assoc_del {A} (k : Key) (l : list (Key * A)) : list (Key * A) :=
  match l with
  | [] => []
  | (k', a') :: rest =>
    if decide (k' = k) then rest else (k', a') :: assoc_del k rest
  end.

(** [Object.defineProperty(o, k, p)] on a property that is absent or
    configurable: a new property needs an extensible object. *)
Definition defineProperty (l : nat) (k : Key) (p : Property) (st : World)
  : World * Res unit :=
  match heap st !! l with
  | None => (st, Throw TypeError)
  | Some o =>
    if hasOwn o k || is_extensible o
    then (upd_obj l (λ o, set_o_props (assoc_set k p (o_props o)) o) st, Ok ())
    else (st, Throw TypeError)
  end.

(** The type of [observe] once its fuel is fixed. *)
Definition ObserveFn := Value → bool → World → option (World * Res (option nat)).

(** [defineReactive(obj, key, val, customSetter, shallow)].  [val = None]
    stands for a call with two arguments. *)
Definition defineReactive_with (observe : ObserveFn) (fuel : nat)
    (obj : nat) (key : Key) (val : option Value)
    (customSetter shallow : bool) (st : World) : option (World * Res unit) :=
  let '(dep, st) := Dep_new st in
  let property := o ← heap st !! obj; own_prop o key in
  if bool_decide (p_configurable <$> property = Some false) then Some (st, Ok ())
  else
    let getter := p ← property;
                  match p_desc p with PAccessor g _ => g | _ => None end in
    let setter := p ← property;
                  match p_desc p with PAccessor _ s => s | _ => None end in
    '(st, val) ← match val with
                 | Some v => Some (st, v)
                 | None =>
                   if negb (bool_decide (is_Some getter))
                      || bool_decide (is_Some setter)
                   then prop_get fuel obj key st
                   else Some (st, VUndef)
                 end;
    r ← (if shallow then Some (st, Ok None) else observe val false st);
    match r with
    | (st, Throw e) => Some (st, Throw e)
    | (st, Ok childOb) =>
      let st := set_closures
        (<[dep := {| r_val := val; r_childOb := childOb; r_getter := getter;
                     r_setter := setter; r_shallow := shallow;
                     r_customSetter := customSetter |}]> (closures st)) st in
      Some (defineProperty obj key
              {| p_desc := PAccessor (Some (FReactive dep)) (Some (FReactive dep));
                 p_enumerable := true; p_configurable := true |} st)
    end.

(** A [for] loop over calls that return a result the loop drops. *)
Definition for_each_drop {A B} (f : A → World → option (World * Res B))
    (l : list A) (st : World) : option (World * Res unit) :=
  for_each (λ a st, match f a st with
                    | Some (st', Ok _) => Some (st', Ok ())
                    | Some (st', Throw e) => Some (st', Throw e)
                    | None => None
                    end) l st.

(** [new Observer(value)] for the object [o] at address [value].
    [protoAugment]/[copyAugment] give an observed array the intercepting
    methods; the model tells such an array by its [__ob__]. *)
Definition Observer_new (observe : ObserveFn) (fuel : nat) (val : nat) (o : Obj)
    (st : World) : option (World * Res nat) :=
  let '(dep, st) := Dep_new st in
  let st := set_observers
              (<[dep := {| ob_value := val; vmCount := 0 |}]> (observers st)) st in
  let st := upd_obj val (set_o_ob (Some dep)) st in      (* def(value, '__ob__', this) *)
  r ← (if is_array o
       then (* observeArray *)
         for_each_drop (λ item st, observe item false st) (o_elems o) st
       else (* walk *)
         for_each (λ k st, defineReactive_with observe fuel val k None false false st)
                  (keys o) st);
  match r with
  | (st, Throw e) => Some (st, Throw e)
  | (st, Ok _) => Some (st, Ok dep)
  end.

(** [ob.vmCount++] *)
Definition count_root (ob : nat) (st : World) : World :=
  set_observers
    (alter (λ x, {| ob_value := ob_value x; vmCount := S (vmCount x) |}) ob
           (observers st)) st.

Fixpoint observe (fuel : nat) (val : Value) (asRootData : bool) (st : World)
  : option (World * Res (option nat)) :=
  match fuel with
  | 0 => None
  | S n =>
    match val, obj_of val st with
    | VRef l, Some o =>
      if isVNode val st then Some (st, Ok None)
      else
        r ← match o_ob o with
            | Some ob => Some (st, Ok (Some ob))
            | None =>
              if shouldObserve (env st) && negb (serverRendering (env st))
                 && (is_array o || is_plain o) && is_extensible o
                 && negb (o_isVue o)
              then match Observer_new (observe n) n l o st with
                   | Some (st, Ok ob) => Some (st, Ok (Some ob))
                   | Some (st, Throw e) => Some (st, Throw e)
                   | None => None
                   end
              else Some (st, Ok None)
            end;
        match r with
        | (st, Ok (Some ob)) =>
          if asRootData then Some (count_root ob st, Ok (Some ob))
          else Some (st, Ok (Some ob))
        | r => Some r
        end
    | _, _ => Some (st, Ok None)
    end
  end.

Definition defineReactive (fuel : nat) := defineReactive_with (observe fuel) fuel.

Definition upd_closure (d : nat) (f : Reactive → Reactive) (st : World) : World :=
  match closures st !! d with
  | Some c => set_closures (<[d := f c]> (closures st)) st
  | None => st
  end.

Definition set_r_val (v : Value) (c : Reactive) : Reactive :=
  {| r_val := v; r_childOb := r_childOb c; r_getter := r_getter c;
     r_setter := r_setter c; r_shallow := r_shallow c;
     r_customSetter := r_customSetter c |}.
Definition set_r_childOb (ob : option nat) (c : Reactive) : Reactive :=
  {| r_val := r_val c; r_childOb := ob; r_getter := r_getter c;
     r_setter := r_setter c; r_shallow := r_shallow c;
     r_customSetter := r_customSetter c |}.

(** Calling the [set] function of a property descriptor.  For [FReactive d]
    this is [reactiveSetter] of index.js. *)
Fixpoint call_setter (fuel : nat) (s : Fn) (newVal : Value) (st : World)
  : option (World * Res unit) :=
  match fuel with
  | 0 => None
  | S n =>
    match s with
    | FUser c => Some (set_cells (<[c := newVal]> (cells st)) st, Ok ())
    | FReactive d =>
      match closures st !! d with
      | None => Some (st, Ok ())
      | Some c =>
        '(st, val) ← match r_getter c with
                     | Some g => call_getter n g st
                     | None => Some (st, r_val c)
                     end;
        if strict_eq newVal val || (self_neq newVal && self_neq val)
        then Some (st, Ok ())
        else
          let st := if negb (production (env st)) && r_customSetter c
                    then emit (ECustomSetter d) st else st in
          if bool_decide (is_Some (r_getter c))
             && negb (bool_decide (is_Some (r_setter c)))
          then Some (st, Ok ())
          else
            r ← match r_setter c with
                | Some s' => call_setter n s' newVal st
                | None => Some (upd_closure d (set_r_val newVal) st, Ok ())
                end;
            match r with
            | (st, Throw e) => Some (st, Throw e)
            | (st, Ok _) =>
              r ← (if r_shallow c then Some (st, Ok None)
                   else observe n newVal false st);
              match r with
              | (st, Throw e) => Some (st, Throw e)
              | (st, Ok childOb) =>
                let st := upd_closure d (set_r_childOb childOb) st in
                Dep_notify n d st
              end
            end
      end
    end
  end.

Definition reactiveSetter (fuel : nat) (d : nat) (newVal : Value) (st : World)
  : option (World * Res unit) :=
  call_setter fuel (FReactive d) newVal st.

(* ===================================================================== *)
(** ** Writing the heap *)
(* ===================================================================== *)

(** [arr.length = n] for [n] at least the current length: the new slots are
    holes, which read as [undefined]. *)
Definition grow (n : nat) (es : list Value) : list Value :=
  es ++ replicate (n - length es) VUndef.

(** [o[k] = v] in strict mode, for the object at address [l]. *)
Definition prop_set (fuel : nat) (l : nat) (k : Key) (v : Value) (st : World)
  : option (World * Res unit) :=
  match heap st !! l with
  | None => Some (st, Throw TypeError)
  | Some o =>
    match own_prop o k with
    | Some p =>
      match p_desc p with
      | PData _ true =>
        match assoc k (o_props o), k with
        | Some _, _ =>
          Some (upd_obj l (λ o, set_o_props
                  (assoc_set k {| p_desc := PData v true;
                                  p_enumerable := p_enumerable p;
                                  p_configurable := p_configurable p |}
                             (o_props o)) o) st, Ok ())
        | None, KIndex i =>
          Some (upd_obj l (λ o, set_o_elems (<[i := v]> (o_elems o)) o) st, Ok ())
        | None, KName _ =>                         (* the length of an array *)
          match v with
          | VNum (Int z) =>
            if (0 <=? z)%Z then
              Some (upd_obj l (λ o, set_o_elems
                      (take (Z.to_nat z) (grow (Z.to_nat z) (o_elems o))) o) st,
                    Ok ())
            else Some (st, Throw RangeError)
          | _ => Some (st, Throw RangeError)
          end
        end
      | PData _ false => Some (st, Throw TypeError)
      | PAccessor _ (Some s) => call_setter fuel s v st
      | PAccessor _ None => Some (st, Throw TypeError)
      end
    | None =>
      if is_extensible o then
        match is_array o, k with
        | true, KIndex i =>
          Some (upd_obj l (λ o, set_o_elems (grow i (o_elems o) ++ [v]) o) st, Ok ())
        | _, _ =>
          Some (upd_obj l (λ o, set_o_props (o_props o ++ [(k, data_prop v false)]) o)
                        st, Ok ())
        end
      else Some (st, Throw TypeError)
    end
  end.

(** [delete o[k]] in strict mode, for an own property [k]. *)
Definition prop_delete (l : nat) (k : Key) (st : World) : World * Res unit :=
  match heap st !! l with
  | None => (st, Throw TypeError)
  | Some o =>
    match own_prop o k with
    | Some p =>
      if p_configurable p then
        match assoc k (o_props o), k with
        | None, KIndex i =>
          (upd_obj l (λ o, set_o_elems (<[i := VUndef]> (o_elems o)) o) st, Ok ())
        | _, _ =>
          (upd_obj l (λ o, set_o_props (assoc_del k (o_props o)) o) st, Ok ())
        end
      else (st, Throw TypeError)
    | None => (st, Ok ())
    end
  end.

(** [Array.prototype.splice(start, deleteCount, ...items)] on the elements. *)
Definition splice (start deleteCount : nat) (items es : list Value) : list Value :=
  take start es ++ items ++ drop (start + deleteCount) es.

(** Modelled from the spec: the intercepted [splice] of an observed array
    (core/observer/array.js is not among the sources).  The call first
    executes normally, then observes the inserted elements and calls
    [notify()] on the array's own Dep.  An array without Observer has the
    native method.  A frozen array, or one that is not extensible and would
    grow, makes the native method throw. *)
Definition array_splice (fuel : nat) (l : nat) (start deleteCount : nat)
    (items : list Value) (st : World) : option (World * Res unit) :=
  match heap st !! l with
  | None => Some (st, Throw TypeError)
  | Some o =>
    let es := splice start deleteCount items (o_elems o) in
    if is_frozen o
       || (negb (is_extensible o) && bool_decide (length (o_elems o) < length es))
    then Some (st, Throw TypeError)
    else
      let st := upd_obj l (set_o_elems es) st in
      match o_ob o with
      | None => Some (st, Ok ())
      | Some ob =>
        r ← for_each_drop (λ item st, observe fuel item false st) items st;
        match r with
        | (st, Throw e) => Some (st, Throw e)
        | (st, Ok _) => Dep_notify fuel ob st
        end
      end
  end.

(** [Object.freeze(o)] of the object at address [l]. *)
Definition set_o_integrity (i : Integrity) (o : Obj) : Obj :=
  {| o_class := o_class o; o_elems := o_elems o; o_props := o_props o;
     o_ob := o_ob o; o_integrity := i; o_isVue := o_isVue o |}.

Definition freeze (l : nat) (st : World) : World :=
  upd_obj l (set_o_integrity Frozen) st.

(* ===================================================================== *)
(** ** index.js: set and del *)
(* ===================================================================== *)

(** [isValidArrayIndex(key)] *)
Definition isValidArrayIndex (k : Key) : bool :=
  match k with KIndex _ => true | KName _ => false end.

(** The property names of [Object.prototype]. *)
Definition object_prototype_keys : list string :=
  ["constructor"; "__defineGetter__"; "__defineSetter__"; "hasOwnProperty";
   "__lookupGetter__"; "__lookupSetter__"; "isPrototypeOf";
   "propertyIsEnumerable"; "toString"; "valueOf"; "__proto__";
   "toLocaleString"]%string.

(** The property names of [Array.prototype] that [Object.prototype] lacks. *)
Definition array_prototype_keys : list string :=
  ["concat"; "copyWithin"; "fill"; "find"; "findIndex"; "lastIndexOf"; "pop";
   "push"; "reverse"; "shift"; "unshift"; "slice"; "sort"; "splice";
   "includes"; "indexOf"; "join"; "keys"; "entries"; "values"; "forEach";
   "filter"; "flat"; "flatMap"; "map"; "every"; "some"; "reduce";
   "reduceRight"]%string.

(** [key in Object.prototype] *)
Definition in_Object_prototype (k : Key) : bool :=
  match k with
  | KName s => bool_decide (s ∈ object_prototype_keys)
  | KIndex _ => false
  end.

(** [key in o]: an own property or one found on the prototype chain. *)
Definition has_in (o : Obj) (k : Key) : bool :=
  hasOwn o k || in_Object_prototype k ||
  match k, o_class o with
  | KName s, CObject ks => bool_decide (s ∈ ks)
  | KName s, CArray => bool_decide (s ∈ array_prototype_keys)
  | KName s, CVNode => bool_decide (s = "child"%string)
  | _, _ => false
  end.

(** [warn(...)], compiled away in production. *)
Definition warn (st : World) : World :=
  if production (env st) then st else emit EWarn st.

(** [ob && ob.vmCount] *)
Definition is_root_data (ob : option nat) (st : World) : bool :=
  match ob with
  | Some d => match observers st !! d with
              | Some x => negb (vmCount x =? 0)
              | None => false
              end
  | None => false
  end.

Definition returning {A} (a : A) (r : option (World * Res unit))
  : option (World * Res A) :=
  '(st, x) ← r;
  Some (st, match x with Ok _ => Ok a | Throw e => Throw e end).

(** The number a valid array index stands for. *)
Definition index (k : Key) : nat :=
  match k with KIndex i => i | KName _ => 0 end.

(** [set(target, key, val)] for an object or array [target]. *)
Definition set (fuel : nat) (target : nat) (key : Key) (val : Value) (st : World)
  : option (World * Res Value) :=
  match heap st !! target with
  | None => Some (st, Throw TypeError)
  | Some o =>
    if is_array o && isValidArrayIndex key then
      (* target.length = Math.max(target.length, key) *)
      r ← prop_set fuel target (KName "length")
             (VNum (Int (Z.of_nat (length (o_elems o) `max` index key)))) st;
      match r with
      | (st, Throw e) => Some (st, Throw e)
      | (st, Ok _) => returning val (array_splice fuel target (index key) 1 [val] st)
      end
    else if has_in o key && negb (in_Object_prototype key) then
      returning val (prop_set fuel target key val st)
    else
      let ob := o_ob o in
      if o_isVue o || is_root_data ob st then Some (warn st, Ok val)
      else
        match ob with
        | None => returning val (prop_set fuel target key val st)
        | Some d =>
          let ob_value := match observers st !! d with
                          | Some x => ob_value x
                          | None => target
                          end in
          r ← defineReactive fuel ob_value key (Some val) false false st;
          match r with
          | (st, Throw e) => Some (st, Throw e)
          | (st, Ok _) => returning val (Dep_notify fuel d st)
          end
        end
  end.

(** [del(target, key)] for an object or array [target]. *)
Definition del (fuel : nat) (target : nat) (key : Key) (st : World)
  : option (World * Res unit) :=
  match heap st !! target with
  | None => Some (st, Throw TypeError)
  | Some o =>
    if is_array o && isValidArrayIndex key then
      array_splice fuel target (index key) 1 [] st
    else
      let ob := o_ob o in
      if o_isVue o || is_root_data ob st then Some (warn st, Ok ())
      else if negb (hasOwn o key) then Some (st, Ok ())
      else
        match prop_delete target key st with
        | (st, Throw e) => Some (st, Throw e)
        | (st, Ok _) =>
          match ob with
          | None => Some (st, Ok ())
          | Some d => Dep_notify fuel d st
          end
        end
  end.

(* ===================================================================== *)
(** * Predicates used in the statements *)
(* ===================================================================== *)

(** ** Reading the log *)

(** The watchers whose [update] was called, in order. *)
Definition updates (evs : list Event) : list nat :=
  omap (λ e, match e with EUpdate w => Some w | _ => None end) evs.

(** The Deps whose [notify] was called, in order. *)
Definition notifications (evs : list Event) : list nat :=
  omap (λ e, match e with ENotify d => Some d | _ => None end) evs.

(** Neither a call of [update] nor one of [notify]. *)
Definition quiet (e : Event) : bool :=
  match e with EUpdate _ | ENotify _ => false | _ => true end.

(** The list [notify] iterates over. *)
Definition snapshot (d : nat) (st : World) : list nat :=
  if negb (production (env st)) && negb (config_async (env st))
  then sort_by_id (subs_of d st) else subs_of d st.

(** ** Termination of [traverse] *)



(** A value [_traverse] does not return on at once. *)
Definition traversable (v : Value) (st : World) : bool :=
  negb ((negb (isArray v st) && negb (isObject v st))
        || isFrozen v st || isVNode v st).

(** The values [_traverse] goes on with from the object [o] at [l]:
    the elements of an array, the enumerable properties of an object. *)
Definition child (F : nat) (st : World) (l : nat) (o : Obj) (v : Value) : Prop :=
  if is_array o then v ∈ o_elems o
  else ∃ k s, k ∈ keys o ∧ prop_get F l k st = Some (s, v).

(** Every property read returns with fuel [F], and every reference cycle
    passes through a value that carries an Observer, is frozen or is a
    VNode: along references between other values [rank] decreases. *)
Record traversal_ranked (F R : nat) (rank : nat → nat) (st : World) : Prop := {
  tr_reads : ∀ l k, is_Some (prop_get F l k st);
  tr_bound : ∀ l, rank l ≤ R;
  tr_child : ∀ l o c,
    heap st !! l = Some o → o_ob o = None →
    child F st l o (VRef c) →
    ob_of (VRef c) st = None → traversable (VRef c) st = true →
    rank c < rank l;
}.


(** ** The parts of [reactiveSetter] *)

(** [const value = getter ? getter.call(obj) : val] *)
Definition old_value (fuel : nat) (c : Reactive) (st : World)
  : option (World * Value) :=
  match r_getter c with
  | Some g => call_getter fuel g st
  | None => Some (st, r_val c)
  end.

(** The call of [customSetter], outside production. *)
Definition custom (d : nat) (c : Reactive) (st : World) : World :=
  if negb (production (env st)) && r_customSetter c
  then emit (ECustomSetter d) st else st.

(** [if (setter) { setter.call(obj, newVal) } else { val = newVal }] *)
Definition store (fuel : nat) (d : nat) (c : Reactive) (newVal : Value)
    (st : World) : option (World * Res unit) :=
  match r_setter c with
  | Some s => call_setter fuel s newVal st
  | None => Some (upd_closure d (set_r_val newVal) st, Ok ())
  end.

(** The events logged since the state [st]. *)
Definition since (st st' : World) : list Event :=
  drop (length (log st)) (log st').

(** The accessor property [defineReactive] installs for the Dep [d]. *)
Definition reactive_property (d : nat) : Property :=
  {| p_desc := PAccessor (Some (FReactive d)) (Some (FReactive d));
     p_enumerable := true; p_configurable := true |}.

(** ** The parts of [Watcher.get] *)

(** The [catch] clause, for the outcome [out] of the getter. *)
Definition caught (x : Watcher) (w : nat) (out : Res Value) (st : World) : World :=
  match out with
  | Throw e => if user x then emit (EHandleError e w) st else st
  | Ok _ => st
  end.

(** The variable [value] when the [finally] clause starts. *)
Definition got (out : Res Value) : Value :=
  match out with Ok v => v | Throw _ => VUndef end.

(** How [get] ends. *)
Definition get_result (x : Watcher) (out : Res Value) : Res Value :=
  match out with
  | Ok v => Ok v
  | Throw e => if user x then Ok VUndef else Throw e
  end.

(** ** What reading can do to the state

    Property reads, [dependArray] and [_traverse] change the state only by
    calling [dep.depend()] and by updating the seen set of traverse.js. *)

Inductive read_step : World → World → Prop :=
  | rs_depend d st : read_step st (Dep_depend d st)
  | rs_seen s st : read_step st (set_seenObjects s st).

Definition reads : World → World → Prop := rtc read_step.


(** Reading leaves the heap, the closures and the evaluation stack alone. *)
Record same_store (st st' : World) : Prop := {
  ss_env : env st' = env st;
  ss_heap : heap st' = heap st;
  ss_observers : observers st' = observers st;
  ss_closures : closures st' = closures st;
  ss_cells : cells st' = cells st;
  ss_target : target st' = target st;
  ss_targetStack : targetStack st' = targetStack st;
  ss_dep_uid : dep_uid st' = dep_uid st;
  ss_vms : vms st' = vms st;
}.

(** Evaluating watchers leaves the heap, the Observers and the closures of
    [defineReactive] alone. *)
Record same_heap (st st' : World) : Prop := {
  sh_env : env st' = env st;
  sh_heap : heap st' = heap st;
  sh_observers : observers st' = observers st;
  sh_closures : closures st' = closures st;
  sh_cells : cells st' = cells st;
  sh_dep_uid : dep_uid st' = dep_uid st;
}.

(** What [observe] and [defineReactive] do to the state: they create Deps,
    closures and Observers, mark objects with [__ob__] and replace property
    descriptors; they keep what an object is, its elements, an [__ob__] it
    already has, and the closures of the Deps that exist. *)
Record extends (st st' : World) : Prop := {
  ext_env : env st' = env st;
  ext_cells : cells st' = cells st;
  ext_dep_uid : dep_uid st ≤ dep_uid st';
  ext_closures : ∀ d, d < dep_uid st → closures st' !! d = closures st !! d;
  ext_heap : ∀ l o, heap st !! l = Some o →
    ∃ o', heap st' !! l = Some o' ∧
          o_class o' = o_class o ∧ o_elems o' = o_elems o ∧
          o_integrity o' = o_integrity o ∧ o_isVue o' = o_isVue o ∧
          (∀ b, o_ob o = Some b → o_ob o' = Some b) ∧
          (∀ k, is_Some (assoc k (o_props o)) → is_Some (assoc k (o_props o')));
  ext_log : ∃ evs, log st' = log st ++ evs ∧ Forall (λ e, quiet e = true) evs;
}.

(** The subscriber lists agree with the dependencies a watcher recorded at
    its last evaluation, and nothing is being collected. *)
Definition tracked (w : nat) (st : World) : Prop :=
  ∃ x, watchers st !! w = Some x ∧
       NoDup (deps x) ∧
       (∀ d, d ∈ deps x ↔ d ∈ depIds x) ∧
       newDeps x = [] ∧ newDepIds x = ∅ ∧
       ∀ d, count_occ Nat.eq_dec (subs_of d st) w =
            if decide (d ∈ depIds x) then 1 else 0.

(** The state while the getter of [w] runs: [base] is the log when it
    started, [ds0]/[ids0] the dependencies of the evaluation before. *)
Definition collecting (w : nat) (ds0 : list nat) (ids0 : gset nat)
    (base : list Event) (st : World) : Prop :=
  ∃ x evs, watchers st !! w = Some x ∧ target st = Some w ∧
       deps x = ds0 ∧ depIds x = ids0 ∧
       NoDup (newDeps x) ∧
       (∀ d, d ∈ newDeps x ↔ d ∈ newDepIds x) ∧
       log st = base ++ evs ∧
       (∀ d, d ∈ newDepIds x ↔ EAddDep w d ∈ evs) ∧
       ∀ d, count_occ Nat.eq_dec (subs_of d st) w =
            if decide (d ∈ ids0 ∨ d ∈ newDepIds x) then 1 else 0.

Definition is_addDep (e : Event) : bool :=
  match e with EAddDep _ _ => true | _ => false end.




(* ===================================================================== *)
(** * Example states *)
(* ===================================================================== *)

Definition env_dev : Env :=
  {| production := false; config_async := true; serverRendering := false;
     shouldObserve := true |}.

(** Development build with [config.async = false]. *)
Definition env_dev_sync : Env :=
  {| production := false; config_async := false; serverRendering := false;
     shouldObserve := true |}.

(** Production build with [config.async = false]. *)
Definition env_production_sync : Env :=
  {| production := true; config_async := false; serverRendering := false;
     shouldObserve := true |}.

Definition empty_world (e : Env) (h : gmap nat Obj) : World :=
  {| env := e; dep_uid := 0; subs := ∅; target := None; targetStack := [];
     watcher_uid := 0; watchers := ∅; vms := ∅; heap := h; observers := ∅;
     closures := ∅; cells := ∅; seenObjects := ∅; log := [] |}.

Definition plain (v : Value) : Property :=
  {| p_desc := PData v true; p_enumerable := true; p_configurable := true |}.

Definition object (ps : list (Key * Property)) : Obj :=
  {| o_class := CObject []; o_elems := []; o_props := ps; o_ob := None;
     o_integrity := Extensible; o_isVue := false |}.

Definition array (es : list Value) : Obj :=
  {| o_class := CArray; o_elems := es; o_props := []; o_ob := None;
     o_integrity := Extensible; o_isVue := false |}.

(** The state after a call that is known to return. *)
Definition after {A} (r : option (World * A)) (st : World) : World :=
  match r with Some (st', _) => st' | None => st end.

(** What a call that is known to return returns. *)
Definition outcome {A} (r : option (World * Res A)) : Res A :=
  match r with Some (_, x) => x | None => Throw VUndef end.

(** [{ flag: true, a: 1, b: 2 }] at address 0, observed, and the watcher 1
    of the getter [() => o.flag ? o.a : o.b]. *)
Definition ex_heap : gmap nat Obj :=
  {[ 0 := object [(KName "flag", plain (VBool true));
                  (KName "a", plain (VNum (Int 1)));
                  (KName "b", plain (VNum (Int 2)))] ]}.

Definition ex_getter : Expr :=
  Read (VRef 0) (KName "flag") (λ flag,
    if truthy flag then Read (VRef 0) (KName "a") Return
    else Read (VRef 0) (KName "b") Return).

Definition ex_observed (e : Env) : World :=
  after (observe 3 (VRef 0) false (empty_world e ex_heap)) (empty_world e ex_heap).

Definition ex_watched (e : Env) (o : option Options) : World :=
  after (Watcher_new 3 0 ex_getter o false (ex_observed e)) (ex_observed e).

(** The same after [o.flag = false]. *)
Definition ex_flipped (e : Env) (o : option Options) : World :=
  after (prop_set 3 0 (KName "flag") (VBool false) (ex_watched e o))
        (ex_watched e o).

(** Two lazy watchers, of which the later one subscribed first to Dep 0. *)
Definition lazy_watcher : Watcher :=
  {| vm := 0; deep := false; user := false; lazy := true; sync := false;
     dirty := false; active := true; deps := [0]; newDeps := [];
     depIds := {[0]}; newDepIds := ∅; getter := Return VUndef;
     value := VUndef |}.

Definition ex_two_lazy (e : Env) : World :=
  {| env := e; dep_uid := 1; subs := {[ 0 := [2; 1] ]}; target := None;
     targetStack := []; watcher_uid := 2;
     watchers := {[ 1 := lazy_watcher; 2 := lazy_watcher ]}; vms := ∅;
     heap := ∅; observers := ∅; closures := ∅; cells := ∅;
     seenObjects := ∅; log := [] |}.

(** The array [[10, 20, 30]] at address 0, not observed. *)
Definition ex_array : World :=
  empty_world env_dev
    {[ 0 := array [VNum (Int 10); VNum (Int 20); VNum (Int 30)] ]}.

Definition opts_lazy : Options :=
  {| opt_deep := false; opt_user := false; opt_lazy := true; opt_sync := false |}.

Definition opts_sync : Options :=
  {| opt_deep := false; opt_user := false; opt_lazy := false; opt_sync := true |}.

(** A lazy watcher whose getter reads [o.flag] and throws. *)
Definition ex_throwing : World :=
  after (Watcher_new 3 0 (Read (VRef 0) (KName "flag") (λ _, Raise (VStr "boom")))
           (Some opts_lazy) false (ex_observed env_dev))
        (ex_observed env_dev).

(** The watcher with id [w] of a state that has one. *)
Definition watcher_of (w : nat) (st : World) : Watcher :=
  default lazy_watcher (watchers st !! w).

(** The closure of the Dep [d] of a state that has one. *)
Definition closure_of (d : nat) (st : World) : Reactive :=
  default {| r_val := VUndef; r_childOb := None; r_getter := None;
             r_setter := None; r_shallow := false; r_customSetter := false |}
          (closures st !! d).

(** An empty object at address 0 with the shallow reactive property [attrs],
    and the object [{ x: 1 }] at address 1. *)
Definition ex_shallow : World :=
  let st := empty_world env_dev
              {[ 0 := object []; 1 := object [(KName "x", plain (VNum (Int 1)))] ]} in
  after (defineReactive 3 0 (KName "attrs") (Some VUndef) false true st) st.

(** The object at address [l] of a state that has one. *)
Definition object_of (l : nat) (st : World) : Obj :=
  default (object []) (heap st !! l).

(** An observed object [{ a: 1 }] whose prototype provides the key [foo]
    ([Object.create({ foo: 0 })] with [a] added). *)
Definition ex_inherit : World :=
  let st := empty_world env_dev
    {[ 0 := {| o_class := CObject ["foo"%string]; o_elems := [];
               o_props := [(KName "a", plain (VNum (Int 1)))]; o_ob := None;
               o_integrity := Extensible; o_isVue := false |} ]} in
  after (observe 3 (VRef 0) false st) st.

(** An object whose property [self] refers to the object itself: once as a
    plain object, once observed. *)
Definition ex_cycle : World :=
  empty_world env_dev {[ 0 := object [(KName "self", plain (VRef 0))] ]}.


(** ** Frames *)

(** The state [st'] has watcher [w] and its subscriptions as [st] has. *)
Definition keeps (w : nat) (st st' : World) : Prop :=
  watchers st' !! w = watchers st !! w ∧
  ∀ d, count_occ Nat.eq_dec (subs_of d st') w
       = count_occ Nat.eq_dec (subs_of d st) w.

(** No subscriber list mentions the watcher [w]. *)
Definition unsubscribed (w : nat) (st : World) : Prop :=
  ∀ d, w ∉ subs_of d st.

(** The state [ex_observed] with a component 0 to own the watchers. *)
Definition ex_component (e : Env) : World :=
  set_vms {[ 0 := {| _watcher := None; _watchers := [];
                     _isBeingDestroyed := false |} ]} (ex_observed e).

(** The watcher 1 of [ex_getter], synchronous, owned by component 0, and
    the state in which it is the current target. *)
Definition ex_owned : World :=
  after (Watcher_new 3 0 ex_getter (Some opts_sync) true (ex_component env_dev))
        (ex_component env_dev).

Definition ex_evaluating : World := pushTarget (Some 1) ex_owned.

(** The new dependencies of the current target include the Dep [d]. *)
Definition collected (d : nat) (st : World) : Prop :=
  ∃ w x, target st = Some w ∧ watchers st !! w = Some x ∧ d ∈ newDepIds x.

(** A watcher is being evaluated. *)
Definition evaluating (st : World) : Prop :=
  ∃ w x, target st = Some w ∧ watchers st !! w = Some x.

(** ** Property reads that return *)





(** ** More examples *)


Definition opts_deep_lazy : Options :=
  {| opt_deep := true; opt_user := false; opt_lazy := true; opt_sync := false |}.

(** The deep, lazy watcher 1 of the getter [() => o] over the unobserved
    self-referencing object [o] of [ex_cycle]. *)
Definition ex_deep_cycle : World :=
  after (Watcher_new 3 0 (Return (VRef 0)) (Some opts_deep_lazy) false ex_cycle)
        ex_cycle.

(* ===================================================================== *)
(** * Properties *)
(* ===================================================================== *)

Lemma reads_refl st : reads st st.
Proof. apply rtc_refl. Qed.

Lemma reads_trans st1 st2 st3 : reads st1 st2 → reads st2 st3 → reads st1 st3.
Proof. apply rtc_trans. Qed.

Lemma reads_depend d st : reads st (Dep_depend d st).
Proof. apply rtc_once. constructor. Qed.

Lemma reads_seen s st : reads st (set_seenObjects s st).
Proof. apply rtc_once. constructor. Qed.

(** An invariant of the two steps is an invariant of reading. *)
Lemma reads_invariant (P : World → Prop) :
  (∀ st d, P st → P (Dep_depend d st)) →
  (∀ st s, P st → P (set_seenObjects s st)) →
  ∀ st st', reads st st' → P st → P st'.
Proof.
  intros Hd Hs st st' H. induction H as [|st1 st2 st3 Hstep _ IH]; [done|].
  intros HP. apply IH. destruct Hstep; auto.
Qed.

Lemma mfold_reads {A} (f : A → World → option World) l :
  (∀ a st st', a ∈ l → f a st = Some st' → reads st st') →
  ∀ st st', mfold f l st = Some st' → reads st st'.
Proof.
  induction l as [|a l IH]; intros Hf st st' H; simpl in H.
  - injection H as <-. apply reads_refl.
  - destruct (f a st) as [st1|] eqn:E; [|done]. simpl in H.
    eapply reads_trans.
    + eapply Hf; [left|exact E].
    + apply IH; [|exact H]. intros b s s' Hb. apply Hf. by right.
Qed.

Lemma dependArray_reads fuel : ∀ v st st',
  dependArray fuel v st = Some st' → reads st st'.
Proof.
  induction fuel as [|n IH]; intros v st st' H; [done|]. simpl in H.
  destruct (obj_of v st) as [o|]; [|injection H as <-; apply reads_refl].
  eapply mfold_reads; [|exact H].
  intros e s s' _ He. simpl in He.
  destruct (ob_of e s) as [d|].
  - destruct (isArray e (Dep_depend d s)).
    + eapply reads_trans; [apply reads_depend|]. by eapply IH.
    + injection He as <-. apply reads_depend.
  - destruct (isArray e s); [by eapply IH|]. injection He as <-. apply reads_refl.
Qed.

Lemma call_getter_reads fuel : ∀ g st st' v,
  call_getter fuel g st = Some (st', v) → reads st st'.
Proof.
  induction fuel as [|n IH]; intros g st st' v H; [done|]. simpl in H.
  destruct g as [c|d].
  { injection H as <- _. apply reads_refl. }
  destruct (closures st !! d) as [c|]; [|injection H as <- _; apply reads_refl].
  destruct (match r_getter c with
            | Some g' => call_getter n g' st
            | None => Some (st, r_val c)
            end) as [[st1 val]|] eqn:E1; [|done].
  assert (reads st st1) as R1.
  { destruct (r_getter c) as [g'|]; [by eapply IH|].
    injection E1 as <- _. apply reads_refl. }
  simpl in H.
  destruct (target st1) as [w|]; simpl in H.
  - destruct (r_childOb c) as [ob|]; simpl in H.
    + destruct (isArray val (Dep_depend ob (Dep_depend d st1))); simpl in H.
      * destruct (dependArray n val _) as [st2|] eqn:E2; [|done].
        simpl in H. injection H as <- _.
        eapply reads_trans; [exact R1|].
        eapply reads_trans; [apply reads_depend|].
        eapply reads_trans; [apply reads_depend|].
        by eapply dependArray_reads.
      * injection H as <- _.
        eapply reads_trans; [exact R1|].
        eapply reads_trans; apply reads_depend.
    + injection H as <- _. eapply reads_trans; [exact R1|apply reads_depend].
  - injection H as <- _. exact R1.
Qed.

Lemma prop_get_reads fuel l k st st' v :
  prop_get fuel l k st = Some (st', v) → reads st st'.
Proof.
  unfold prop_get. intros H.
  destruct (heap st !! l) as [o|]; [|injection H as <- _; apply reads_refl].
  destruct (own_prop o k) as [p|]; [|injection H as <- _; apply reads_refl].
  destruct (p_desc p) as [x b|[g|] s].
  - injection H as <- _; apply reads_refl.
  - by eapply call_getter_reads.
  - injection H as <- _; apply reads_refl.
Qed.

Lemma run_getter_reads fuel e : ∀ st st' r,
  run_getter fuel e st = Some (st', r) → reads st st'.
Proof.
  induction e as [v|err|t k cont IH]; intros st st' r H; simpl in H.
  - injection H as <- _; apply reads_refl.
  - injection H as <- _; apply reads_refl.
  - destruct t; try (by eapply IH); try (injection H as <- _; apply reads_refl).
    destruct (prop_get fuel l k st) as [[st1 v]|] eqn:E; [|done]. simpl in H.
    eapply reads_trans; [by eapply prop_get_reads|by eapply IH].
Qed.

Lemma _traverse_reads fuel : ∀ v st st',
  _traverse fuel v st = Some st' → reads st st'.
Proof.
  induction fuel as [|n IH]; intros v st st' H; [done|]. simpl in H.
  destruct (_ || _ || _); [injection H as <-; apply reads_refl|].
  destruct v; try (injection H as <-; apply reads_refl).
  destruct (heap st !! l) as [o|] eqn:Eo;
    [|injection H as <-; apply reads_refl].
  destruct (match o_ob o with
            | Some depId => bool_decide (depId ∈ seenObjects st)
            | None => false
            end); [injection H as <-; apply reads_refl|].
  eapply reads_trans with
    (st2 := match o_ob o with
            | Some depId => set_seenObjects ({[depId]} ∪ seenObjects st) st
            | None => st
            end).
  { destruct (o_ob o); [apply reads_seen|apply reads_refl]. }
  destruct (isArray (VRef l) st).
  - eapply mfold_reads; [|exact H]. intros e s s' _ He. by eapply IH.
  - eapply mfold_reads; [|exact H]. intros k s s' _ He. simpl in He.
    destruct (prop_get n l k s) as [[s1 v1]|] eqn:E; [|done]. simpl in He.
    eapply reads_trans; [by eapply prop_get_reads|by eapply IH].
Qed.

Lemma traverse_reads fuel v st st' :
  traverse fuel v st = Some st' → reads (emit (ETraverse v) st) st'.
Proof.
  unfold traverse. intros H.
  destruct (_traverse fuel v (emit (ETraverse v) st)) as [st1|] eqn:E; [|done].
  simpl in H. injection H as <-.
  eapply reads_trans; [by eapply _traverse_reads|apply reads_seen].
Qed.

Lemma same_store_refl st : same_store st st.
Proof. by split. Qed.

Lemma same_store_trans st1 st2 st3 :
  same_store st1 st2 → same_store st2 st3 → same_store st1 st3.
Proof. intros [] []. split; congruence. Qed.

Lemma Watcher_addDep_same_store w d st : same_store st (Watcher_addDep w d st).
Proof.
  unfold Watcher_addDep. destruct (watchers st !! w) as [x|]; [|apply same_store_refl].
  repeat case_decide; by split.
Qed.

Lemma Dep_depend_same_store d st : same_store st (Dep_depend d st).
Proof.
  unfold Dep_depend. destruct (target st);
    [apply Watcher_addDep_same_store|apply same_store_refl].
Qed.

Lemma reads_same_store st st' : reads st st' → same_store st st'.
Proof.
  intros H. apply (reads_invariant (same_store st)) with (st := st); auto.
  - intros s d Hs. eapply same_store_trans; [exact Hs|apply Dep_depend_same_store].
  - intros s x Hs. eapply same_store_trans; [exact Hs|by split].
  - apply same_store_refl.
Qed.

(** ** Subscriptions of a watcher (C1) *)

Lemma count_occ_remove_eq l w :
  count_occ Nat.eq_dec (remove l w) w = pred (count_occ Nat.eq_dec l w).
Proof.
  induction l as [|a l IH]; [done|]. simpl.
  destruct (decide (a = w)) as [->|Hne].
  - by destruct (Nat.eq_dec w w).
  - simpl. destruct (Nat.eq_dec a w); [done|]. exact IH.
Qed.

Lemma count_occ_remove_ne l w w' :
  w ≠ w' → count_occ Nat.eq_dec (remove l w) w' = count_occ Nat.eq_dec l w'.
Proof.
  intros Hne. induction l as [|a l IH]; [done|]. simpl.
  destruct (decide (a = w)) as [->|Ha].
  - by destruct (Nat.eq_dec w w').
  - simpl. destruct (Nat.eq_dec a w'); by rewrite IH.
Qed.

Lemma subs_of_addSub d d' w st :
  subs_of d' (Dep_addSub d w st) =
  if decide (d = d') then subs_of d st ++ [w] else subs_of d' st.
Proof.
  unfold subs_of, Dep_addSub. simpl. case_decide as E.
  - subst. by rewrite lookup_insert_eq.
  - by rewrite lookup_insert_ne.
Qed.

Lemma subs_of_removeSub d d' w st :
  subs_of d' (Dep_removeSub d w st) =
  if decide (d = d') then remove (subs_of d st) w else subs_of d' st.
Proof.
  unfold subs_of, Dep_removeSub. simpl. case_decide as E.
  - subst. by rewrite lookup_insert_eq.
  - by rewrite lookup_insert_ne.
Qed.

Lemma collecting_depend w ds0 ids0 base d st :
  collecting w ds0 ids0 base st → collecting w ds0 ids0 base (Dep_depend d st).
Proof.
  intros (x & evs & Hx & Ht & Hds & Hids & Hnd & Hmem & Hl & Hlog & Hcnt).
  unfold Dep_depend. rewrite Ht. unfold Watcher_addDep. rewrite Hx.
  destruct (decide (d ∈ newDepIds x)) as [Hin|Hnin].
  - exists x, (evs ++ [EAddDep w d]). simpl. split_and!; try done.
    + rewrite Hl. by rewrite app_assoc.
    + intros d'. rewrite elem_of_app, list_elem_of_singleton, <- Hlog.
      naive_solver.
  - set (x' := set_collected (deps x) (newDeps x ++ [d]) (depIds x)
                 ({[d]} ∪ newDepIds x) x).
    assert (∀ d', d' ∈ newDepIds x' ↔ EAddDep w d' ∈ evs ++ [EAddDep w d])
      as Hlog'.
    { intros d'. rewrite elem_of_app, list_elem_of_singleton. simpl.
      rewrite elem_of_union, elem_of_singleton, Hlog. naive_solver. }
    assert (NoDup (newDeps x')) as Hnd'.
    { simpl. apply NoDup_app. split; [done|]. split; [|apply NoDup_singleton].
      intros y Hy ->%list_elem_of_singleton. by apply Hnin, Hmem. }
    assert (∀ d', d' ∈ newDeps x' ↔ d' ∈ newDepIds x') as Hmem'.
    { intros d'. simpl. rewrite elem_of_app, list_elem_of_singleton, Hmem.
      set_solver. }
    destruct (decide (d ∈ depIds x)) as [Hold|Hnew].
    + exists x', (evs ++ [EAddDep w d]). simpl. rewrite lookup_insert_eq.
      split_and!; try done.
      * rewrite Hl. by rewrite app_assoc.
      * intros d'. unfold subs_of in *. simpl. rewrite Hcnt.
        repeat case_decide; try done; set_solver.
    + exists x', (evs ++ [EAddDep w d]). simpl. rewrite lookup_insert_eq.
      split_and!; try done.
      * rewrite Hl. by rewrite app_assoc.
      * intros d'.
        pose proof (subs_of_addSub d d' w
          (set_watchers (<[w:=x']> (watchers st)) (emit (EAddDep w d) st))) as Hs.
        rewrite Hs. clear Hs.
        destruct (decide (d = d')) as [<-|Hne].
        -- unfold subs_of in *. simpl. rewrite count_occ_app, Hcnt. simpl.
           destruct (Nat.eq_dec w w); [|done].
           repeat case_decide; try done; set_solver.
        -- unfold subs_of in *. simpl. rewrite Hcnt.
           repeat case_decide; try done; set_solver.
Qed.

Lemma collecting_emit w ds0 ids0 base e st :
  is_addDep e = false →
  collecting w ds0 ids0 base st → collecting w ds0 ids0 base (emit e st).
Proof.
  intros He (x & evs & Hx & Ht & Hds & Hids & Hnd & Hmem & Hl & Hlog & Hcnt).
  exists x, (evs ++ [e]). simpl. split_and!; try done.
  - rewrite Hl. by rewrite app_assoc.
  - intros d. rewrite elem_of_app, list_elem_of_singleton, <- Hlog.
    split; [by left|]. intros [?|<-]; done.
Qed.

Lemma collecting_reads w ds0 ids0 base st st' :
  reads st st' → collecting w ds0 ids0 base st → collecting w ds0 ids0 base st'.
Proof.
  apply reads_invariant.
  - intros s d. apply collecting_depend.
  - intros s x (y & evs & H). by exists y, evs.
Qed.

Lemma cleanup_loop_frame w nids ds st :
  watchers (cleanup_loop w nids ds st) = watchers st ∧
  log (cleanup_loop w nids ds st) = log st ∧
  target (cleanup_loop w nids ds st) = target st ∧
  targetStack (cleanup_loop w nids ds st) = targetStack st ∧
  heap (cleanup_loop w nids ds st) = heap st.
Proof.
  induction ds as [|d ds IH]; [done|]. simpl. case_decide; [done|].
  by simpl.
Qed.

Lemma cleanup_loop_count w nids ds st d :
  NoDup ds →
  count_occ Nat.eq_dec (subs_of d (cleanup_loop w nids ds st)) w =
  if decide (d ∈ ds ∧ d ∉ nids)
  then pred (count_occ Nat.eq_dec (subs_of d st) w)
  else count_occ Nat.eq_dec (subs_of d st) w.
Proof.
  induction 1 as [|a ds Ha Hnd IH]; unfold cleanup_loop; cbn [foldr].
  - case_decide as E; [|done]. destruct E as [E _]. by apply elem_of_nil in E.
  - fold (cleanup_loop w nids ds st).
    destruct (decide (a ∈ nids)) as [Hin|Hnin].
    + rewrite IH. repeat case_decide; try done; set_solver.
    + rewrite subs_of_removeSub. destruct (decide (a = d)) as [->|Hne].
      * rewrite count_occ_remove_eq, IH.
        repeat case_decide; try done; set_solver.
      * rewrite IH. repeat case_decide; try done; set_solver.
Qed.

Lemma tracked_collecting w x st :
  watchers st !! w = Some x →
  tracked w st →
  collecting w (deps x) (depIds x)
    (log st ++ [EPushTarget (Some w); EGetter w])
    (emit (EGetter w) (pushTarget (Some w) st)).
Proof.
  intros Hx (x' & Hx' & Hnd & Hmem & Hn & Hni & Hcnt).
  rewrite Hx in Hx'. injection Hx' as <-.
  exists x, []. simpl. split_and!; try done.
  - rewrite Hn. apply NoDup_nil_2.
  - intros d. rewrite Hn, Hni. set_solver.
  - by rewrite app_nil_r, <- app_assoc.
  - intros d. rewrite Hni. set_solver.
  - intros d. unfold subs_of in *. simpl. rewrite Hcnt, Hni.
    repeat case_decide; try done; set_solver.
Qed.

Lemma popTarget_log st : log (popTarget st) = log st ++ [EPopTarget].
Proof. done. Qed.

(** Leaving the evaluation: [popTarget] and [cleanupDeps] turn what was
    collected into the subscriptions of the watcher. *)
Lemma collecting_cleanup w ds0 ids0 base st :
  NoDup ds0 → (∀ d, d ∈ ds0 ↔ d ∈ ids0) →
  collecting w ds0 ids0 base st →
  let st' := Watcher_cleanupDeps w (popTarget st) in
  tracked w st' ∧
  ∃ evs, log st' = base ++ evs ++ [EPopTarget; ECleanupDeps w] ∧
         log st = base ++ evs ∧
         ∀ d, count_occ Nat.eq_dec (subs_of d st') w =
              if decide (EAddDep w d ∈ evs) then 1 else 0.
Proof.
  intros Hnd0 Hmem0
    (x & evs & Hx & Ht & Hds & Hids & Hnd & Hmem & Hl & Hlog & Hcnt).
  simpl. unfold Watcher_cleanupDeps.
  assert (watchers (popTarget st) !! w = Some x) as -> by done.
  set (st1 := emit (ECleanupDeps w) (popTarget st)).
  destruct (cleanup_loop_frame w (newDepIds x) (deps x) st1)
    as (Hw & Hlg & _).
  unfold upd_watcher. rewrite Hw. simpl. rewrite Hx.
  set (x' := set_collected (newDeps x) [] (newDepIds x) ∅ x).
  assert (∀ d, count_occ Nat.eq_dec
                 (subs_of d (cleanup_loop w (newDepIds x) (deps x) st1)) w =
               if decide (d ∈ newDepIds x) then 1 else 0) as Hcnt'.
  { intros d. rewrite cleanup_loop_count by (by rewrite Hds).
    change (subs_of d st1) with (subs_of d st). rewrite Hcnt, Hds.
    repeat case_decide; try done; set_solver. }
  split.
  - exists x'. simpl. rewrite lookup_insert_eq. by split_and!.
  - exists evs. simpl. rewrite Hlg. simpl. split_and!.
    + rewrite Hl. by rewrite <- !app_assoc.
    + done.
    + intros d. unfold subs_of in *. simpl. rewrite Hcnt'.
      repeat case_decide; try done; exfalso; naive_solver.
Qed.

(** [Watcher.get], step by step. *)
Lemma Watcher_get_inv fuel w x st st' r :
  watchers st !! w = Some x →
  Watcher_get fuel w st = Some (st', r) →
  ∃ st1 out st2,
    run_getter fuel (getter x) (emit (EGetter w) (pushTarget (Some w) st))
      = Some (st1, out) ∧
    (if deep x then traverse fuel (got out) (caught x w out st1)
     else Some (caught x w out st1)) = Some st2 ∧
    st' = Watcher_cleanupDeps w (popTarget st2) ∧
    r = get_result x out.
Proof.
  intros Hx H. unfold Watcher_get in H. rewrite Hx in H.
  destruct (run_getter _ _ _) as [[st1 out]|] eqn:E; [|done]. simpl in H.
  exists st1, out.
  destruct out as [v|e]; simpl.
  - destruct (if deep x then traverse fuel v st1 else Some st1) as [st2|] eqn:E2;
      [|done].
    simpl in H. injection H as <- <-. by exists st2.
  - destruct (user x).
    + destruct (if deep x then traverse fuel VUndef _ else Some _) as [st2|] eqn:E2;
        [|done].
      simpl in H. injection H as <- <-. by exists st2.
    + destruct (if deep x then traverse fuel VUndef _ else Some _) as [st2|] eqn:E2;
        [|done].
      simpl in H. injection H as <- <-. by exists st2.
Qed.

(** After an evaluation the subscriber lists hold the watcher once for
    each Dep it called [depend()] on, and nowhere else. *)
Lemma Watcher_get_tracked fuel w st st' r :
  tracked w st →
  Watcher_get fuel w st = Some (st', r) →
  tracked w st' ∧
  ∀ d, count_occ Nat.eq_dec (subs_of d st') w =
       if decide (EAddDep w d ∈ drop (length (log st)) (log st')) then 1 else 0.
Proof.
  intros Htr H. pose proof Htr as (x & Hx & Hnd & Hmem & _).
  destruct (Watcher_get_inv _ _ _ _ _ _ Hx H) as (st1 & out & st2 & E1 & E2 & -> & _).
  pose proof (tracked_collecting _ _ _ Hx Htr) as Hc.
  apply (collecting_reads _ _ _ _ _ _ (run_getter_reads _ _ _ _ _ E1)) in Hc.
  assert (collecting w (deps x) (depIds x)
            (log st ++ [EPushTarget (Some w); EGetter w]) st2) as Hc2.
  { assert (collecting w (deps x) (depIds x)
              (log st ++ [EPushTarget (Some w); EGetter w]) (caught x w out st1))
      as Hc1.
    { destruct out as [v|e]; simpl; [done|].
      destruct (user x); [|done]. by apply collecting_emit. }
    destruct (deep x).
    - eapply collecting_reads; [by eapply traverse_reads|].
      by apply collecting_emit.
    - by injection E2 as <-. }
  destruct (collecting_cleanup _ _ _ _ _ Hnd Hmem Hc2) as (Ht & evs & Hl & _ & Hcnt).
  split; [exact Ht|].
  intros d. rewrite Hcnt, Hl, <- app_assoc, drop_app_length. simpl.
  repeat case_decide; try done; exfalso.
  - apply H1. rewrite !elem_of_cons, elem_of_app. auto.
  - rewrite !elem_of_cons, elem_of_app, !elem_of_cons in H1.
    destruct H1 as [?|[?|[?|[?|[?|H1]]]]]; try done. by apply elem_of_nil in H1.
Qed.

(** ** The evaluation protocol of [Watcher.get] (C3) *)

Lemma Dep_depend_log d st :
  ∃ evs, log (Dep_depend d st) = log st ++ evs ∧
         Forall (λ e, is_addDep e = true) evs.
Proof.
  unfold Dep_depend, Watcher_addDep.
  destruct (target st) as [w|]; [|exists []; by rewrite app_nil_r].
  destruct (watchers st !! w) as [x|]; [|exists []; by rewrite app_nil_r].
  exists [EAddDep w d]. split; [|by repeat constructor].
  by repeat case_decide.
Qed.

Lemma reads_log st st' :
  reads st st' →
  ∃ evs, log st' = log st ++ evs ∧ Forall (λ e, is_addDep e = true) evs.
Proof.
  induction 1 as [st|st1 st2 st3 Hstep _ (evs & Hl & Hf)].
  - exists []. by rewrite app_nil_r.
  - destruct Hstep as [d st1|s st1].
    + destruct (Dep_depend_log d st1) as (evs1 & Hl1 & Hf1).
      exists (evs1 ++ evs). rewrite Hl, Hl1, app_assoc.
      split; [done|]. by apply Forall_app.
    + by exists evs.
Qed.

Lemma Watcher_cleanupDeps_stack w st :
  target (Watcher_cleanupDeps w st) = target st ∧
  targetStack (Watcher_cleanupDeps w st) = targetStack st.
Proof.
  unfold Watcher_cleanupDeps. destruct (watchers st !! w) as [x|]; [|done].
  set (st1 := emit (ECleanupDeps w) st).
  destruct (cleanup_loop_frame w (newDepIds x) (deps x) st1)
    as (Hw & _ & Ht & Hs & _).
  unfold upd_watcher. destruct (watchers _ !! w); simpl; by rewrite ?Ht, ?Hs.
Qed.

Lemma removelast_snoc {A} (l : list A) a : removelast (l ++ [a]) = l.
Proof. apply removelast_last. Qed.

(** The calls logged by the [catch] clause. *)
Lemma caught_log x w out st :
  log (caught x w out st) =
  log st ++ match out with
            | Throw e => if user x then [EHandleError e w] else []
            | Ok _ => []
            end.
Proof.
  destruct out as [v|e]; simpl; [by rewrite app_nil_r|].
  destruct (user x); simpl; [done|by rewrite app_nil_r].
Qed.

Lemma caught_stack x w out st :
  target (caught x w out st) = target st ∧
  targetStack (caught x w out st) = targetStack st.
Proof. destruct out as [v|e]; simpl; [done|]. by destruct (user x). Qed.

(** The calls of one [get], in order, and what it leaves of the stack. *)
Lemma Watcher_get_trace fuel w x st st' r :
  watchers st !! w = Some x →
  Watcher_get fuel w st = Some (st', r) →
  ∃ st1 out reads1 reads2,
    run_getter fuel (getter x) (emit (EGetter w) (pushTarget (Some w) st))
      = Some (st1, out) ∧
    target (emit (EGetter w) (pushTarget (Some w) st)) = Some w ∧
    r = match out with
        | Ok v => Ok v
        | Throw e => if user x then Ok VUndef else Throw e
        end ∧
    log st' =
      log st ++ [EPushTarget (Some w); EGetter w] ++ reads1
        ++ match out with
           | Throw e => if user x then [EHandleError e w] else []
           | Ok _ => []
           end
        ++ (if deep x then ETraverse (got out) :: reads2 else [])
        ++ [EPopTarget; ECleanupDeps w] ∧
    Forall (λ e, is_addDep e = true) reads1 ∧
    Forall (λ e, is_addDep e = true) reads2 ∧
    targetStack st' = targetStack st ∧
    target st' = mjoin (last (targetStack st)).
Proof.
  intros Hx H.
  destruct (Watcher_get_inv _ _ _ _ _ _ Hx H) as (st1 & out & st2 & E1 & E2 & -> & ->).
  pose proof (run_getter_reads _ _ _ _ _ E1) as R1.
  destruct (reads_log _ _ R1) as (reads1 & Hl1 & Hf1).
  pose proof (reads_same_store _ _ R1) as S1.
  assert (∃ reads2,
            log st2 = log (caught x w out st1)
                      ++ (if deep x then ETraverse (got out) :: reads2 else []) ∧
            Forall (λ e, is_addDep e = true) reads2 ∧
            targetStack st2 = targetStack st1) as (reads2 & Hl2 & Hf2 & Hs2).
  { destruct (deep x).
    - pose proof (traverse_reads _ _ _ _ E2) as R2.
      destruct (reads_log _ _ R2) as (reads2 & Hl2 & Hf2).
      exists reads2. split_and!; try done.
      + rewrite Hl2. simpl. by rewrite <- app_assoc.
      + rewrite (ss_targetStack _ _ (reads_same_store _ _ R2)). simpl.
        apply caught_stack.
    - injection E2 as <-. exists []. split_and!; try done.
      + by rewrite app_nil_r.
      + apply caught_stack. }
  exists st1, out, reads1, reads2. split_and!; try done.
  - unfold Watcher_cleanupDeps.
    assert (∃ y, watchers (popTarget st2) !! w = Some y) as [y Hy].
    { simpl. destruct (watchers st2 !! w) as [y|] eqn:Ey; [by exists y|].
      exfalso.
      assert (is_Some (watchers st2 !! w)) as [? ?]; [|congruence].
      clear -Hx R1 E2.
      assert (∀ s s', reads s s' → is_Some (watchers s !! w) →
                      is_Some (watchers s' !! w)) as Hkeep.
      { intros s s'. apply (reads_invariant (λ s, is_Some (watchers s !! w))).
        - intros s0 d [z Hz]. unfold Dep_depend, Watcher_addDep.
          destruct (target s0) as [t|]; [|by exists z].
          destruct (watchers s0 !! t) as [xt|]; [|by exists z].
          repeat case_decide; simpl; try (by exists z);
            (destruct (decide (t = w)) as [->|];
             [rewrite lookup_insert_eq|rewrite lookup_insert_ne by done]; eauto).
        - intros s0 ? [z Hz]. by exists z. }
      assert (is_Some (watchers (caught x w out st1) !! w)) as Hc.
      { assert (watchers (caught x w out st1) = watchers st1) as ->.
        { destruct out; simpl; [done|]. by destruct (user x). }
        eapply Hkeep; [exact R1|]. simpl. eauto. }
      destruct (deep x).
      - eapply Hkeep; [by eapply traverse_reads|]. exact Hc.
      - by injection E2 as <-. }
    rewrite Hy.
    set (st3 := emit (ECleanupDeps w) (popTarget st2)).
    destruct (cleanup_loop_frame w (newDepIds y) (deps y) st3) as (Hw & Hlg & _).
    unfold upd_watcher. rewrite Hw.
    assert (log (match watchers st3 !! w with
                 | Some x0 => set_watchers _ (cleanup_loop w (newDepIds y) (deps y) st3)
                 | None => cleanup_loop w (newDepIds y) (deps y) st3
                 end) = log st3) as ->.
    { destruct (watchers st3 !! w); simpl; by rewrite Hlg. }
    simpl. rewrite Hl2, caught_log, Hl1. simpl.
    by rewrite <- !app_assoc.
  - destruct (Watcher_cleanupDeps_stack w (popTarget st2)) as [_ ->].
    simpl. rewrite Hs2, (ss_targetStack _ _ S1). simpl.
    apply removelast_snoc.
  - destruct (Watcher_cleanupDeps_stack w (popTarget st2)) as [-> _].
    simpl. rewrite Hs2, (ss_targetStack _ _ S1). simpl.
    by rewrite removelast_snoc.
Qed.

(** ** [update], lazy watchers and [evaluate] (C8, C10) *)

Lemma reads_watcher_fields w st st' :
  reads st st' →
  ∀ x, watchers st !! w = Some x →
  ∃ x', watchers st' !! w = Some x' ∧
        value x' = value x ∧ dirty x' = dirty x ∧ lazy x' = lazy x ∧
        user x' = user x ∧ deep x' = deep x ∧ sync x' = sync x ∧
        active x' = active x ∧ getter x' = getter x.
Proof.
  intros H.
  apply (reads_invariant (λ s, ∀ x, watchers st !! w = Some x →
    ∃ x', watchers s !! w = Some x' ∧
        value x' = value x ∧ dirty x' = dirty x ∧ lazy x' = lazy x ∧
        user x' = user x ∧ deep x' = deep x ∧ sync x' = sync x ∧
        active x' = active x ∧ getter x' = getter x)) with (st := st); auto.
  - intros s d IH x Hx. destruct (IH x Hx) as (x' & Hx' & Hf).
    unfold Dep_depend, Watcher_addDep.
    destruct (target s) as [t|]; [|by exists x'].
    destruct (watchers s !! t) as [xt|] eqn:Et; [|by exists x'].
    destruct (decide (d ∈ newDepIds xt)); [by exists x'|].
    destruct (decide (t = w)) as [->|Hne].
    + rewrite Hx' in Et. injection Et as <-.
      exists (set_collected (deps x') (newDeps x' ++ [d]) (depIds x')
                ({[d]} ∪ newDepIds x') x').
      split; [|exact Hf].
      case_decide; simpl; by rewrite lookup_insert_eq.
    + exists x'. split; [|exact Hf].
      case_decide; simpl; by rewrite lookup_insert_ne.
  - intros x Hx. exists x. by split_and!.
Qed.

Lemma Watcher_cleanupDeps_fields w w' st x :
  watchers st !! w' = Some x →
  ∃ x', watchers (Watcher_cleanupDeps w st) !! w' = Some x' ∧
        value x' = value x ∧ dirty x' = dirty x ∧ lazy x' = lazy x ∧
        user x' = user x ∧ deep x' = deep x ∧ sync x' = sync x ∧
        active x' = active x ∧ getter x' = getter x.
Proof.
  intros Hx. unfold Watcher_cleanupDeps.
  destruct (watchers st !! w) as [y|] eqn:Ey; [|exists x; by split_and!].
  set (st1 := emit (ECleanupDeps w) st).
  destruct (cleanup_loop_frame w (newDepIds y) (deps y) st1) as (Hw & _).
  unfold upd_watcher. rewrite Hw. simpl. rewrite Ey. simpl.
  destruct (decide (w = w')) as [->|Hne].
  - rewrite lookup_insert_eq. rewrite Hx in Ey. injection Ey as <-.
    eexists. split; [done|]. by split_and!.
  - rewrite lookup_insert_ne by done. exists x. by split_and!.
Qed.

(** [get] changes neither the cached value nor the flags of any watcher. *)
Lemma Watcher_get_fields fuel w w' st st' r x :
  watchers st !! w' = Some x →
  Watcher_get fuel w st = Some (st', r) →
  ∃ x', watchers st' !! w' = Some x' ∧
        value x' = value x ∧ dirty x' = dirty x ∧ lazy x' = lazy x ∧
        user x' = user x ∧ deep x' = deep x ∧ sync x' = sync x ∧
        active x' = active x ∧ getter x' = getter x.
Proof.
  intros Hx H.
  destruct (watchers st !! w) as [y|] eqn:Ey.
  2:{ unfold Watcher_get in H. rewrite Ey in H. injection H as <- _.
      exists x. by split_and!. }
  destruct (Watcher_get_inv _ _ _ _ _ _ Ey H) as (st1 & out & st2 & E1 & E2 & -> & _).
  assert (watchers (emit (EGetter w) (pushTarget (Some w) st)) !! w' = Some x)
    as Hx0 by done.
  destruct (reads_watcher_fields w' _ _ (run_getter_reads _ _ _ _ _ E1) x Hx0)
    as (x1 & Hx1 & Hf1).
  assert (∃ x2, watchers st2 !! w' = Some x2 ∧
        value x2 = value x ∧ dirty x2 = dirty x ∧ lazy x2 = lazy x ∧
        user x2 = user x ∧ deep x2 = deep x ∧ sync x2 = sync x ∧
        active x2 = active x ∧ getter x2 = getter x) as (x2 & Hx2 & Hf2).
  { assert (watchers (caught y w out st1) !! w' = Some x1) as Hc.
    { destruct out; simpl; [done|]. by destruct (user y). }
    destruct (deep y).
    - destruct (reads_watcher_fields w' _ _ (traverse_reads _ _ _ _ E2) x1 Hc)
        as (x2 & Hx2 & Hf2).
      exists x2. split; [done|]. destruct Hf1 as (?&?&?&?&?&?&?&?).
      destruct Hf2 as (?&?&?&?&?&?&?&?). split_and!; congruence.
    - injection E2 as <-. exists x1. by split. }
  assert (watchers (popTarget st2) !! w' = Some x2) as Hp by done.
  destruct (Watcher_cleanupDeps_fields w w' _ x2 Hp) as (x3 & Hx3 & Hf3).
  exists x3. split; [done|].
  destruct Hf2 as (?&?&?&?&?&?&?&?). destruct Hf3 as (?&?&?&?&?&?&?&?).
  split_and!; congruence.
Qed.

Lemma traverse_undef n st :
  traverse (S n) VUndef st = Some (set_seenObjects ∅ (emit (ETraverse VUndef) st)).
Proof. done. Qed.

Lemma count_occ_addDeps evs e :
  is_addDep e = false →
  Forall (λ e, is_addDep e = true) evs →
  count_occ Event_eq_dec evs e = 0.
Proof.
  intros He Hf. apply count_occ_not_In. intros Hin.
  rewrite Forall_forall in Hf. apply list_elem_of_In, Hf in Hin. congruence.
Qed.

(** One [get] runs the getter once. *)
Lemma Watcher_get_getter_once fuel w x st st' r :
  watchers st !! w = Some x →
  Watcher_get fuel w st = Some (st', r) →
  ∃ evs, log st' = log st ++ evs ∧ count_occ Event_eq_dec evs (EGetter w) = 1.
Proof.
  intros Hx H.
  destruct (Watcher_get_trace _ _ _ _ _ _ Hx H)
    as (st1 & out & reads1 & reads2 & _ & _ & _ & Hl & Hf1 & Hf2 & _).
  eexists. split; [exact Hl|].
  rewrite !count_occ_app. cbn [count_occ].
  destruct (Event_eq_dec (EPushTarget (Some w)) (EGetter w)); [done|].
  destruct (Event_eq_dec (EGetter w) (EGetter w)); [|done].
  destruct (Event_eq_dec EPopTarget (EGetter w)); [done|].
  destruct (Event_eq_dec (ECleanupDeps w) (EGetter w)); [done|].
  rewrite (count_occ_addDeps reads1) by done.
  assert (count_occ Event_eq_dec
            match out with
            | Ok _ => []
            | Throw e => if user x then [EHandleError e w] else []
            end (EGetter w) = 0) as ->.
  { destruct out as [v|e']; [done|]. destruct (user x); [|done]. simpl.
    by destruct (Event_eq_dec (EHandleError e' w) (EGetter w)). }
  assert (count_occ Event_eq_dec
            (if deep x then ETraverse (got out) :: reads2 else []) (EGetter w) = 0)
    as ->.
  { destruct (deep x); [|done]. simpl.
    destruct (Event_eq_dec (ETraverse (got out)) (EGetter w)); [done|].
    by apply count_occ_addDeps. }
  done.
Qed.

(** ** [notify] (C2) *)

Lemma updates_app evs1 evs2 : updates (evs1 ++ evs2) = updates evs1 ++ updates evs2.
Proof. apply omap_app. Qed.

Lemma notifications_app evs1 evs2 :
  notifications (evs1 ++ evs2) = notifications evs1 ++ notifications evs2.
Proof. apply omap_app. Qed.

Lemma quiet_updates evs : Forall (λ e, quiet e = true) evs → updates evs = [].
Proof.
  induction 1 as [|e evs He _ IH]; [done|].
  destruct e; try done; exact IH.
Qed.

Lemma quiet_notifications evs :
  Forall (λ e, quiet e = true) evs → notifications evs = [].
Proof.
  induction 1 as [|e evs He _ IH]; [done|].
  destruct e; try done; exact IH.
Qed.

Lemma addDeps_quiet evs :
  Forall (λ e, is_addDep e = true) evs → Forall (λ e, quiet e = true) evs.
Proof. intros H. eapply Forall_impl; [exact H|]. by intros []. Qed.

Lemma Watcher_get_quiet fuel w st st' r :
  Watcher_get fuel w st = Some (st', r) →
  ∃ evs, log st' = log st ++ evs ∧ Forall (λ e, quiet e = true) evs.
Proof.
  intros H. destruct (watchers st !! w) as [x|] eqn:Hx.
  - destruct (Watcher_get_trace _ _ _ _ _ _ Hx H)
      as (st1 & out & reads1 & reads2 & _ & _ & _ & Hl & Hf1 & Hf2 & _).
    eexists. split; [exact Hl|].
    repeat (apply Forall_app; split); try (by repeat constructor).
    + by apply addDeps_quiet.
    + destruct out; [done|]. destruct (user x); by repeat constructor.
    + destruct (deep x); [|done]. constructor; [done|]. by apply addDeps_quiet.
  - unfold Watcher_get in H. rewrite Hx in H. injection H as <- _.
    exists []. by rewrite app_nil_r.
Qed.

Lemma Watcher_run_quiet fuel w st st' r :
  Watcher_run fuel w st = Some (st', r) →
  ∃ evs, log st' = log st ++ evs ∧ Forall (λ e, quiet e = true) evs.
Proof.
  unfold Watcher_run. intros H. simpl in H.
  destruct (watchers st !! w) as [x|] eqn:Hx.
  2:{ injection H as <- _. exists [ERun w]. split; [done|]. by repeat constructor. }
  destruct (active x).
  2:{ injection H as <- _. exists [ERun w]. split; [done|]. by repeat constructor. }
  destruct (Watcher_get fuel w (emit (ERun w) st)) as [[st1 r1]|] eqn:E; [|done].
  simpl in H. destruct (Watcher_get_quiet _ _ _ _ _ E) as (evs & Hl & Hq).
  simpl in Hl.
  assert (Forall (λ e, quiet e = true) (ERun w :: evs)) as Hq'
    by (by constructor).
  destruct r1 as [val|e].
  - destruct (watchers st1 !! w) as [x1|] eqn:Hx1.
    + destruct (_ || _ || _).
      * injection H as <- _. exists (ERun w :: evs ++ [ECallback w val (value x1)]).
        unfold upd_watcher. rewrite Hx1. simpl. rewrite Hl.
        split; [by rewrite <- !app_assoc|].
        constructor; [done|]. apply Forall_app. split; [done|].
        by repeat constructor.
      * injection H as <- _. exists (ERun w :: evs).
        rewrite Hl. split; [by rewrite <- !app_assoc|done].
    + injection H as <- _. exists (ERun w :: evs).
      rewrite Hl. split; [by rewrite <- !app_assoc|done].
  - injection H as <- _. exists (ERun w :: evs).
    rewrite Hl. split; [by rewrite <- !app_assoc|done].
Qed.

Lemma Watcher_update_log fuel w st st' r :
  Watcher_update fuel w st = Some (st', r) →
  ∃ evs, log st' = log st ++ EUpdate w :: evs ∧ Forall (λ e, quiet e = true) evs.
Proof.
  unfold Watcher_update. intros H. simpl in H.
  destruct (watchers st !! w) as [x|] eqn:Hx.
  2:{ injection H as <- _. exists []. by split. }
  destruct (lazy x).
  { injection H as <- _. exists []. unfold upd_watcher. simpl. rewrite Hx.
    by split. }
  destruct (sync x).
  - destruct (Watcher_run_quiet _ _ _ _ _ H) as (evs & Hl & Hq).
    exists evs. simpl in Hl. rewrite Hl. by rewrite <- app_assoc.
  - injection H as <- _. exists [EQueueWatcher w]. simpl.
    split; [by rewrite <- app_assoc|]. by repeat constructor.
Qed.

(** The loop of [notify] calls [update] on the elements of the list it is
    given, in order, up to the first call that throws. *)
Lemma notify_loop_updates fuel l : ∀ st st' r,
  for_each (λ sub st, Watcher_update fuel sub st) l st = Some (st', r) →
  ∃ evs, log st' = log st ++ evs ∧
         notifications evs = [] ∧
         updates evs `prefix_of` l ∧
         (r = Ok () → updates evs = l).
Proof.
  induction l as [|w l IH]; intros st st' r H; simpl in H.
  - injection H as <- <-. exists []. rewrite app_nil_r. by split_and!.
  - destruct (Watcher_update fuel w st) as [[st1 r1]|] eqn:E; [|done].
    destruct (Watcher_update_log _ _ _ _ _ E) as (evs1 & Hl1 & Hq1).
    destruct r1 as [[]|e].
    + destruct (IH _ _ _ H) as (evs & Hl & Hn & Hp & Hok).
      exists (EUpdate w :: evs1 ++ evs). rewrite Hl, Hl1.
      split; [by rewrite <- app_assoc|].
      change (EUpdate w :: evs1 ++ evs) with ([EUpdate w] ++ evs1 ++ evs).
      rewrite !notifications_app, !updates_app.
      rewrite (quiet_updates evs1), (quiet_notifications evs1) by done.
      simpl. split_and!; [done| |].
      * by apply prefix_cons.
      * intros Hr. by rewrite Hok.
    + injection H as <- <-. exists (EUpdate w :: evs1). rewrite Hl1.
      split; [done|].
      change (EUpdate w :: evs1) with ([EUpdate w] ++ evs1).
      rewrite !notifications_app, !updates_app.
      rewrite (quiet_updates evs1), (quiet_notifications evs1) by done.
      simpl. split_and!; [done| |done].
      apply prefix_cons, prefix_nil.
Qed.

(** What one call of [notify] does, as seen in the log. *)
Lemma Dep_notify_log fuel d st st' r :
  Dep_notify fuel d st = Some (st', r) →
  ∃ evs, log st' = log st ++ ENotify d :: evs ∧
         notifications evs = [] ∧
         updates evs `prefix_of` snapshot d st ∧
         (r = Ok () → updates evs = snapshot d st).
Proof.
  unfold Dep_notify. intros H.
  destruct (notify_loop_updates _ _ _ _ _ H) as (evs & Hl & Hn & Hp & Hok).
  exists evs. simpl in Hl. rewrite Hl. split; [by rewrite <- app_assoc|].
  by split_and!.
Qed.

Lemma sort_by_id_sorted l : Sorted le (sort_by_id l) ∧ sort_by_id l ≡ₚ l.
Proof.
  split; [|apply merge_sort_Permutation].
  apply (Sorted_merge_sort le).
Qed.

(** ** Evaluating and notifying leave the heap alone *)

Lemma same_heap_refl st : same_heap st st.
Proof. by split. Qed.

Lemma same_heap_trans st1 st2 st3 :
  same_heap st1 st2 → same_heap st2 st3 → same_heap st1 st3.
Proof. intros [] []. split; congruence. Qed.

Lemma same_store_heap st st' : same_store st st' → same_heap st st'.
Proof. intros []. by split. Qed.

Lemma cleanup_loop_same_heap w nids ds st :
  same_heap st (cleanup_loop w nids ds st).
Proof.
  induction ds as [|d ds IH]; [apply same_heap_refl|].
  unfold cleanup_loop. cbn [foldr]. fold (cleanup_loop w nids ds st).
  case_decide; [done|]. eapply same_heap_trans; [exact IH|by split].
Qed.

Lemma upd_watcher_same_heap w f st : same_heap st (upd_watcher w f st).
Proof. unfold upd_watcher. destruct (watchers st !! w); by split. Qed.

Lemma Watcher_cleanupDeps_same_heap w st : same_heap st (Watcher_cleanupDeps w st).
Proof.
  unfold Watcher_cleanupDeps. destruct (watchers st !! w) as [x|];
    [|apply same_heap_refl].
  eapply same_heap_trans; [|apply upd_watcher_same_heap].
  eapply same_heap_trans; [|apply cleanup_loop_same_heap]. by split.
Qed.

Lemma caught_same_heap x w out st : same_heap st (caught x w out st).
Proof. destruct out; simpl; [by split|]. by destruct (user x). Qed.

Lemma Watcher_get_same_heap fuel w st st' r :
  Watcher_get fuel w st = Some (st', r) → same_heap st st'.
Proof.
  intros H. destruct (watchers st !! w) as [x|] eqn:Hx.
  2:{ unfold Watcher_get in H. rewrite Hx in H. injection H as <- _.
      apply same_heap_refl. }
  destruct (Watcher_get_inv _ _ _ _ _ _ Hx H) as (st1 & out & st2 & E1 & E2 & -> & _).
  eapply same_heap_trans; [|apply Watcher_cleanupDeps_same_heap].
  eapply same_heap_trans with (st2 := st2); [|by split].
  eapply same_heap_trans with (st2 := st1).
  { eapply same_heap_trans;
      [|apply same_store_heap, reads_same_store, (run_getter_reads _ _ _ _ _ E1)].
    by split. }
  eapply same_heap_trans; [apply (caught_same_heap x w out)|].
  destruct (deep x).
  - eapply same_heap_trans;
      [|apply same_store_heap, reads_same_store, (traverse_reads _ _ _ _ E2)].
    by split.
  - injection E2 as <-. apply same_heap_refl.
Qed.

Lemma Watcher_run_same_heap fuel w st st' r :
  Watcher_run fuel w st = Some (st', r) → same_heap st st'.
Proof.
  unfold Watcher_run. intros H. simpl in H.
  destruct (watchers st !! w) as [x|]; [|injection H as <- _; by split].
  destruct (active x); [|injection H as <- _; by split].
  destruct (Watcher_get fuel w (emit (ERun w) st)) as [[st1 r1]|] eqn:E; [|done].
  simpl in H. pose proof (Watcher_get_same_heap _ _ _ _ _ E) as S1.
  assert (same_heap st st1) as S2.
  { eapply same_heap_trans; [|exact S1]. by split. }
  destruct r1 as [val|e]; [|by injection H as <- _].
  destruct (watchers st1 !! w) as [x1|]; [|by injection H as <- _].
  destruct (_ || _ || _); [|by injection H as <- _].
  injection H as <- _.
  eapply same_heap_trans; [exact S2|].
  eapply same_heap_trans; [apply (upd_watcher_same_heap w (set_value val))|].
  by split.
Qed.

Lemma Watcher_update_same_heap fuel w st st' r :
  Watcher_update fuel w st = Some (st', r) → same_heap st st'.
Proof.
  unfold Watcher_update. intros H. simpl in H.
  destruct (watchers st !! w) as [x|]; [|injection H as <- _; by split].
  destruct (lazy x).
  { injection H as <- _.
    eapply same_heap_trans; [|apply upd_watcher_same_heap]. by split. }
  destruct (sync x); [|injection H as <- _; by split].
  eapply same_heap_trans; [|by eapply Watcher_run_same_heap]. by split.
Qed.

Lemma for_each_invariant {A} (R : World → World → Prop)
    (f : A → World → option (World * Res unit)) l :
  (∀ st, R st st) →
  (∀ st1 st2 st3, R st1 st2 → R st2 st3 → R st1 st3) →
  (∀ a st st' r, a ∈ l → f a st = Some (st', r) → R st st') →
  ∀ st st' r, for_each f l st = Some (st', r) → R st st'.
Proof.
  intros Hrefl Htrans. induction l as [|a l IH]; intros Hf st st' r H; simpl in H.
  - injection H as <- _. apply Hrefl.
  - destruct (f a st) as [[st1 [[]|e]]|] eqn:E; [| |done].
    + eapply Htrans; [eapply Hf; [left|exact E]|].
      eapply IH; [|exact H]. intros b s s' r' Hb. apply Hf. by right.
    + injection H as <- _. eapply Hf; [left|exact E].
Qed.

Lemma Dep_notify_same_heap fuel d st st' r :
  Dep_notify fuel d st = Some (st', r) → same_heap st st'.
Proof.
  unfold Dep_notify. intros H.
  eapply same_heap_trans with (st2 := emit (ENotify d) st); [by split|].
  eapply (for_each_invariant same_heap); [| | |exact H].
  - apply same_heap_refl.
  - apply same_heap_trans.
  - intros a s s' r' _. apply Watcher_update_same_heap.
Qed.

(** ** [del] (C9) *)

Lemma assoc_del_ne {A} (k key : Key) (l : list (Key * A)) :
  k ≠ key → assoc k (assoc_del key l) = assoc k l.
Proof.
  intros Hne. induction l as [|[k' a] l IH]; [done|]. simpl.
  destruct (decide (k' = key)) as [->|Hk].
  - destruct (decide (key = k)); [congruence|done].
  - simpl. destruct (decide (k' = k)); [done|exact IH].
Qed.

Lemma own_prop_assoc_del o k key :
  k ≠ key →
  own_prop (set_o_props (assoc_del key (o_props o)) o) k = own_prop o k.
Proof.
  intros Hne. unfold own_prop. simpl. by rewrite assoc_del_ne.
Qed.

Lemma upd_obj_lookup l f st o :
  heap st !! l = Some o → heap (upd_obj l f st) !! l = Some (f o).
Proof. intros H. unfold upd_obj. rewrite H. simpl. apply lookup_insert_eq. Qed.

Lemma new_events_app (l evs : list Event) : drop (length l) (l ++ evs) = evs.
Proof. apply drop_app_length. Qed.

(** [del] on anything but an array index: the object afterwards. *)
Lemma del_object fuel target key o st st' r :
  heap st !! target = Some o →
  is_array o && isValidArrayIndex key = false →
  del fuel target key st = Some (st', r) →
  ∃ o', heap st' !! target = Some o' ∧
        (o' = o ∨ o' = set_o_props (assoc_del key (o_props o)) o) ∧
        (hasOwn o key = false →
         heap st' = heap st ∧ r = Ok () ∧
         notifications (drop (length (log st)) (log st')) = []).
Proof.
  intros Ho Hbr H. unfold del in H. rewrite Ho, Hbr in H.
  destruct (o_isVue o || is_root_data (o_ob o) st) eqn:Hguard.
  { injection H as <- <-. exists o. split; [|split; [by left|]].
    - unfold warn. by destruct (production (env st)).
    - intros _. unfold warn. destruct (production (env st)); simpl.
      + by rewrite drop_ge.
      + by rewrite new_events_app. }
  destruct (hasOwn o key) eqn:Hown; simpl in H.
  2:{ injection H as <- <-. exists o. split_and!; [done|by left|].
      intros _. by rewrite drop_ge. }
  assert (∃ s r1 o', prop_delete target key st = (s, r1) ∧
            heap s !! target = Some o' ∧
            (o' = o ∨ o' = set_o_props (assoc_del key (o_props o)) o))
    as (s & r1 & o' & Hd & Ho' & Hshape).
  { unfold prop_delete. rewrite Ho.
    destruct (own_prop o key) as [p|] eqn:Hp; [|by exists st, (Ok ()), o; auto].
    destruct (p_configurable p) eqn:Hconf;
      [|by exists st, (Throw TypeError), o; auto].
    destruct (assoc key (o_props o)) as [q|] eqn:Hq.
    - eexists _, _, _. split; [reflexivity|]. split; [by apply upd_obj_lookup|].
      by right.
    - exfalso. unfold own_prop in Hp. rewrite Hq in Hp.
      destruct (is_array o); [|done]. simpl in Hbr.
      destruct key; [done|]. simpl in Hp. case_decide; [|done].
      injection Hp as <-. done. }
  rewrite Hd in H. exists o'.
  destruct r1 as [[]|e].
  - destruct (o_ob o) as [d|].
    + pose proof (Dep_notify_same_heap _ _ _ _ _ H) as [_ Hh _ _ _ _].
      rewrite Hh. by split_and!.
    + injection H as <- <-. by split_and!.
  - injection H as <- <-. by split_and!.
Qed.

(** [del] on an index of an array: [splice(key, 1)]. *)
Lemma del_array fuel target key o st st' :
  heap st !! target = Some o →
  is_array o && isValidArrayIndex key = true →
  del fuel target key st = Some (st', Ok ()) →
  ∃ o', heap st' !! target = Some o' ∧
        o' = set_o_elems (take (index key) (o_elems o)
                          ++ drop (S (index key)) (o_elems o)) o.
Proof.
  intros Ho Hbr H. unfold del in H. rewrite Ho, Hbr in H.
  unfold array_splice in H. rewrite Ho in H.
  destruct (is_frozen o || _); [done|].
  unfold splice in H. simpl in H. rewrite Nat.add_1_r in H.
  destruct (o_ob o) as [d|].
  - simpl in H. pose proof (Dep_notify_same_heap _ _ _ _ _ H) as [_ Hh _ _ _ _].
    rewrite Hh. eexists. split; [by apply upd_obj_lookup|done].
  - injection H as <-. eexists. split; [by apply upd_obj_lookup|done].
Qed.

(** ** What [observe] and [defineReactive] keep *)

Lemma extends_refl st : extends st st.
Proof.
  split; try done.
  - intros l o Ho. exists o. by split_and!.
  - exists []. by rewrite app_nil_r.
Qed.

Lemma extends_trans st1 st2 st3 :
  extends st1 st2 → extends st2 st3 → extends st1 st3.
Proof.
  intros [He1 Hc1 Hu1 Hcl1 Hh1 (evs1 & Hl1 & Hq1)]
         [He2 Hc2 Hu2 Hcl2 Hh2 (evs2 & Hl2 & Hq2)].
  split.
  - congruence.
  - congruence.
  - lia.
  - intros d Hd. rewrite Hcl2 by lia. by apply Hcl1.
  - intros l o Ho. destruct (Hh1 l o Ho) as (o1 & Ho1 & ? & ? & ? & ? & Hob1 & Hk1).
    destruct (Hh2 l o1 Ho1) as (o2 & Ho2 & ? & ? & ? & ? & Hob2 & Hk2).
    exists o2. split_and!; try congruence.
    + intros b Hb. by apply Hob2, Hob1.
    + intros k Hk. by apply Hk2, Hk1.
  - exists (evs1 ++ evs2). rewrite Hl2, Hl1, app_assoc. split; [done|].
    by apply Forall_app.
Qed.

Lemma same_store_extends st st' :
  same_store st st' →
  (∃ evs, log st' = log st ++ evs ∧ Forall (λ e, quiet e = true) evs) →
  extends st st'.
Proof.
  intros [He Hh Ho Hc Hce _ _ Hu _] Hl. split; try done.
  - by rewrite Hu.
  - intros d _. by rewrite Hc.
  - intros l o Hlo. exists o. rewrite Hh. by split_and!.
Qed.

Lemma reads_extends st st' : reads st st' → extends st st'.
Proof.
  intros R. apply same_store_extends; [by apply reads_same_store|].
  destruct (reads_log _ _ R) as (evs & Hl & Hf).
  exists evs. split; [done|]. by apply addDeps_quiet.
Qed.

Lemma Dep_new_extends st : extends st (Dep_new st).2.
Proof.
  unfold Dep_new. simpl. split; simpl; try done.
  - lia.
  - intros l o Ho. exists o. by split_and!.
  - exists []. by rewrite app_nil_r.
Qed.

Lemma set_closures_extends d c st :
  dep_uid st ≤ d →
  extends st (set_closures (<[d := c]> (closures st)) st).
Proof.
  intros Hd. split; simpl; try done.
  - intros d' Hd'. rewrite lookup_insert_ne; [done|lia].
  - intros l o Ho. exists o. by split_and!.
  - exists []. by rewrite app_nil_r.
Qed.

Lemma set_observers_extends x st : extends st (set_observers x st).
Proof.
  split; simpl; try done.
  - intros l o Ho. exists o. by split_and!.
  - exists []. by rewrite app_nil_r.
Qed.

Lemma assoc_assoc_set {A} (k k' : Key) (a : A) l :
  assoc k' (assoc_set k a l) = if decide (k = k') then Some a else assoc k' l.
Proof.
  induction l as [|[k0 a0] l IH]; simpl.
  - done.
  - destruct (decide (k0 = k)) as [->|Hne]; simpl.
    + destruct (decide (k = k')); done.
    + destruct (decide (k0 = k')) as [->|Hne'].
      * destruct (decide (k = k')); [congruence|done].
      * exact IH.
Qed.

Lemma upd_obj_extends l f st :
  (∀ o, o_class (f o) = o_class o ∧ o_elems (f o) = o_elems o ∧
        o_integrity (f o) = o_integrity o ∧ o_isVue (f o) = o_isVue o ∧
        (∀ b, o_ob o = Some b → o_ob (f o) = Some b) ∧
        (∀ k, is_Some (assoc k (o_props o)) → is_Some (assoc k (o_props (f o))))) →
  extends st (upd_obj l f st).
Proof.
  intros Hf. unfold upd_obj.
  destruct (heap st !! l) as [o|] eqn:Ho; [|apply extends_refl].
  split; simpl; try done.
  - intros l' o' Ho'. destruct (decide (l = l')) as [<-|Hne].
    + rewrite lookup_insert_eq. rewrite Ho in Ho'. injection Ho' as <-.
      exists (f o). split; [done|]. apply Hf.
    + rewrite lookup_insert_ne by done. exists o'. by split_and!.
  - exists []. by rewrite app_nil_r.
Qed.

Lemma defineProperty_extends l k p st :
  extends st (defineProperty l k p st).1.
Proof.
  unfold defineProperty. destruct (heap st !! l) as [o|]; [|apply extends_refl].
  destruct (hasOwn o k || is_extensible o); [|apply extends_refl].
  simpl. apply upd_obj_extends. intros o'. split_and!; try done.
  intros k' Hk'. simpl. rewrite assoc_assoc_set. by case_decide.
Qed.

Lemma for_each_drop_invariant {A B} (R : World → World → Prop)
    (f : A → World → option (World * Res B)) l :
  (∀ st, R st st) →
  (∀ st1 st2 st3, R st1 st2 → R st2 st3 → R st1 st3) →
  (∀ a st st' r, a ∈ l → f a st = Some (st', r) → R st st') →
  ∀ st st' r, for_each_drop f l st = Some (st', r) → R st st'.
Proof.
  intros Hrefl Htrans Hf. unfold for_each_drop.
  apply for_each_invariant; [done|done|].
  intros a st st' r Ha H.
  destruct (f a st) as [[s [b|e]]|] eqn:E; [| |done].
  - injection H as <- _. by eapply Hf.
  - injection H as <- _. by eapply Hf.
Qed.

Lemma defineReactive_with_extends (obs : ObserveFn) fuel obj key val cs sh st st' r :
  (∀ v b s s' r', obs v b s = Some (s', r') → extends s s') →
  defineReactive_with obs fuel obj key val cs sh st = Some (st', r) →
  extends st st'.
Proof.
  intros Hobs H. unfold defineReactive_with in H.
  pose proof (Dep_new_extends st) as E0.
  destruct (Dep_new st) as [dep st0] eqn:Edep. simpl in E0.
  assert (dep_uid st0 = S dep ∧ dep = dep_uid st) as [Hu0 Hdep].
  { unfold Dep_new in Edep. by injection Edep as <- <-. }
  destruct (bool_decide _).
  { by injection H as <- _. }
  destruct (match val with
            | Some v => Some (st0, v)
            | None => _
            end) as [[st1 v1]|] eqn:E1; [|done].
  assert (extends st0 st1) as X1.
  { destruct val as [v|]; [injection E1 as <- _; apply extends_refl|].
    destruct (_ || _).
    - apply reads_extends. by eapply prop_get_reads.
    - injection E1 as <- _. apply extends_refl. }
  simpl in H.
  destruct (if sh then Some (st1, Ok None) else obs v1 false st1)
    as [[st2 r2]|] eqn:E2; [|done].
  assert (extends st1 st2) as X2.
  { destruct sh; [injection E2 as <- _; apply extends_refl|]. by eapply Hobs. }
  simpl in H. destruct r2 as [childOb|e].
  2:{ injection H as <- _.
      eapply extends_trans; [exact E0|]. eapply extends_trans; [exact X1|exact X2]. }
  injection H as H.
  set (st3 := set_closures _ st2) in H.
  assert (extends st st3) as X3.
  { pose proof (extends_trans _ _ _ E0 (extends_trans _ _ _ X1 X2)) as X02.
    destruct X02 as [He Hc Hu Hcl Hh (evs & Hl & Hq)].
    split; simpl; try done.
    - intros d Hd. rewrite lookup_insert_ne by lia. by apply Hcl.
    - by exists evs. }
  eapply extends_trans; [exact X3|].
  pose proof (defineProperty_extends obj key
    {| p_desc := PAccessor (Some (FReactive dep)) (Some (FReactive dep));
       p_enumerable := true; p_configurable := true |} st3) as X4.
  by rewrite H in X4.
Qed.

Lemma Observer_new_extends (obs : ObserveFn) fuel l o st st' r :
  (∀ v b s s' r', obs v b s = Some (s', r') → extends s s') →
  heap st !! l = Some o → o_ob o = None →
  Observer_new obs fuel l o st = Some (st', r) →
  extends st st' ∧
  (∀ ob, r = Ok ob → ∃ o', heap st' !! l = Some o' ∧ o_ob o' = Some ob).
Proof.
  intros Hobs Ho Hnone H. unfold Observer_new in H.
  pose proof (Dep_new_extends st) as E0.
  destruct (Dep_new st) as [dep st0] eqn:Edep. simpl in E0.
  assert (heap st0 = heap st) as Hh0.
  { unfold Dep_new in Edep. by injection Edep as _ <-. }
  set (st1 := set_observers _ st0) in H.
  set (st2 := upd_obj l (set_o_ob (Some dep)) st1) in H.
  assert (extends st st2) as X2.
  { eapply extends_trans; [exact E0|].
    eapply extends_trans with (st2 := st1); [apply set_observers_extends|].
    unfold st2, upd_obj. simpl. rewrite Hh0, Ho.
    split; simpl; try done.
    - intros l' o' Ho'. destruct (decide (l = l')) as [<-|Hne].
      + rewrite lookup_insert_eq. rewrite Hh0, Ho in Ho'. injection Ho' as <-.
        eexists. split; [done|]. split_and!; try done.
        intros b Hb. congruence.
      + rewrite lookup_insert_ne by done. exists o'. rewrite <- Hh0.
        by split_and!.
    - exists []. by rewrite app_nil_r. }
  assert (heap st2 !! l = Some (set_o_ob (Some dep) o)) as Ho2.
  { unfold st2. apply upd_obj_lookup. simpl. by rewrite Hh0. }
  destruct (if is_array o then _ else _) as [[st3 r3]|] eqn:E3; [|done].
  assert (extends st2 st3) as X3.
  { destruct (is_array o).
    - eapply (for_each_drop_invariant extends); [| | |exact E3].
      + apply extends_refl.
      + apply extends_trans.
      + intros a s s' r' _. apply Hobs.
    - eapply (for_each_invariant extends); [| | |exact E3].
      + apply extends_refl.
      + apply extends_trans.
      + intros a s s' r' _. by apply defineReactive_with_extends. }
  simpl in H. split.
  - destruct r3; injection H as <- _; by eapply extends_trans.
  - intros ob ->. destruct r3 as [[]|e]; [|done]. injection H as <- <-.
    destruct (ext_heap _ _ X3 l _ Ho2) as (o' & Ho' & _ & _ & _ & _ & Hob & _).
    exists o'. split; [done|]. by apply Hob.
Qed.

Lemma observe_extends fuel : ∀ v b st st' r,
  observe fuel v b st = Some (st', r) → extends st st'.
Proof.
  induction fuel as [|n IH]; intros v b st st' r H; [done|]. simpl in H.
  destruct v; try (injection H as <- _; apply extends_refl).
  simpl in H. destruct (heap st !! l) as [o|] eqn:Ho;
    [|injection H as <- _; apply extends_refl].
  destruct (isVNode (VRef l) st); [injection H as <- _; apply extends_refl|].
  destruct (o_ob o) as [ob|] eqn:Hob; simpl in H.
  { destruct b; injection H as <- _;
      [apply set_observers_extends|apply extends_refl]. }
  destruct (_ && _ && _ && _ && _).
  2:{ simpl in H. injection H as <- _. apply extends_refl. }
  destruct (Observer_new (observe n) n l o st) as [[st1 r1]|] eqn:E1; [|done].
  destruct (Observer_new_extends _ _ _ _ _ _ _ IH Ho Hob E1) as [X1 _].
  destruct r1 as [ob|e]; simpl in H.
  - destruct b; injection H as <- _; [|done].
    eapply extends_trans; [exact X1|apply set_observers_extends].
  - by injection H as <- _.
Qed.

Lemma defineReactive_extends fuel obj key val cs sh st st' r :
  defineReactive fuel obj key val cs sh st = Some (st', r) → extends st st'.
Proof. apply defineReactive_with_extends, observe_extends. Qed.

(** ** [observe] (C6) *)

(** A value that carries an Observer: [observe] returns that Observer and
    creates nothing. *)
Lemma observe_existing n l o ob b st :
  heap st !! l = Some o → o_ob o = Some ob → isVNode (VRef l) st = false →
  observe (S n) (VRef l) b st =
    Some (if b then count_root ob st else st, Ok (Some ob)).
Proof.
  intros Ho Hob Hv. simpl. rewrite Ho, Hv, Hob. simpl. by destruct b.
Qed.

(** An Observer returned by [observe] is carried by the value afterwards. *)
Lemma observe_marks fuel l b st st' ob :
  observe fuel (VRef l) b st = Some (st', Ok (Some ob)) →
  ∃ o', heap st' !! l = Some o' ∧ o_ob o' = Some ob ∧
        isVNode (VRef l) st' = false.
Proof.
  intros H. pose proof (observe_extends _ _ _ _ _ _ H) as X.
  destruct fuel as [|n]; [done|]. simpl in H.
  destruct (heap st !! l) as [o|] eqn:Ho; [|done].
  destruct (isVNode (VRef l) st) eqn:Hv; [done|].
  assert (∀ s o', extends st s → heap s !! l = Some o' →
                  isVNode (VRef l) s = false) as Hkeep.
  { intros s o' Xs Ho'. unfold isVNode in *. simpl in *. rewrite Ho in Hv.
    rewrite Ho'. destruct (ext_heap _ _ Xs l o Ho) as (o2 & Ho2 & Hc & _).
    rewrite Ho' in Ho2. injection Ho2 as <-. by rewrite Hc. }
  destruct (o_ob o) as [ob0|] eqn:Hob; simpl in H.
  { assert (ob0 = ob ∧ heap st' = heap st) as [-> Hh].
    { destruct b; by injection H as <- <-. }
    exists o. rewrite Hh. split_and!; try done.
    unfold isVNode in *. simpl in *. by rewrite Hh. }
  destruct (_ && _ && _ && _ && _); [|simpl in H; by destruct b].
  destruct (Observer_new (observe n) n l o st) as [[st1 r1]|] eqn:E1; [|done].
  destruct (Observer_new_extends _ _ _ _ _ _ _ (observe_extends n) Ho Hob E1)
    as [X1 Hm].
  destruct r1 as [ob1|e]; simpl in H; [|done].
  destruct (Hm ob1 eq_refl) as (o1 & Ho1 & Hob1).
  assert (ob1 = ob ∧ heap st' = heap st1) as [-> Hh].
  { destruct b; by injection H as <- <-. }
  exists o1. rewrite Hh. split_and!; try done.
  assert (isVNode (VRef l) st1 = false) as Hv1 by (by eapply Hkeep).
  unfold isVNode in *. simpl in *. by rewrite Hh.
Qed.

(** When [observe] returns nothing. *)
Lemma observe_nothing n v b st :
  isObject v st = false ∨ isVNode v st = true ∨
  (ob_of v st = None ∧
   ∀ o, obj_of v st = Some o →
        is_array o || is_plain o = false ∨ is_extensible o = false) →
  observe (S n) v b st = Some (st, Ok None).
Proof.
  intros H. simpl. destruct v; try done. simpl.
  destruct (heap st !! l) as [o|] eqn:Ho; [|done].
  destruct H as [H|[H|[Hob H]]].
  - unfold isObject in H. simpl in H. rewrite Ho in H.
    apply bool_decide_eq_false in H. exfalso. apply H. eauto.
  - by rewrite H.
  - destruct (isVNode (VRef l) st); [done|].
    unfold ob_of in Hob. simpl in Hob. rewrite Ho in Hob. simpl in Hob.
    rewrite Hob. simpl in H. rewrite Ho in H.
    destruct (H o eq_refl) as [-> | ->]; simpl.
    + by rewrite !andb_false_r.
    + by rewrite !andb_false_r.
Qed.

(** ** [observe] does not throw *)

Lemma for_each_no_throw {A} (I : World → Prop)
    (f : A → World → option (World * Res unit)) l :
  (∀ a st st' r, a ∈ l → I st → f a st = Some (st', r) → I st' ∧ r = Ok ()) →
  ∀ st st' r, I st → for_each f l st = Some (st', r) → I st' ∧ r = Ok ().
Proof.
  induction l as [|a l IH]; intros Hf st st' r HI H; simpl in H.
  - by injection H as <- <-.
  - destruct (f a st) as [[st1 r1]|] eqn:E; [|done].
    destruct (Hf a st st1 r1 (list_elem_of_here _ _) HI E) as [HI1 ->].
    eapply IH; [|exact HI1|exact H].
    intros b s s' r' Hb. apply Hf. by right.
Qed.

Lemma assoc_elem_of {A} (k : Key) (a : A) l : (k, a) ∈ l → is_Some (assoc k l).
Proof.
  induction l as [|[k0 a0] l IH]; [by intros ?%elem_of_nil|].
  intros Hin. simpl. destruct (decide (k0 = k)); [eauto|].
  apply elem_of_cons in Hin as [[= <- <-]|Hin]; [done|by apply IH].
Qed.

Lemma keys_assoc o k : k ∈ keys o → is_Some (assoc k (o_props o)).
Proof.
  unfold keys. rewrite elem_of_app. intros [H|H].
  - apply list_elem_of_fmap in H as (i & -> & Hi).
    rewrite merge_sort_Permutation in Hi.
    apply list_elem_of_omap in Hi as ([k p] & Hin & Hk).
    destruct k as [j|s]; [|done]. destruct (p_enumerable p); [|done].
    injection Hk as ->. by eapply assoc_elem_of.
  - apply list_elem_of_omap in H as ([k' p] & Hin & Hk).
    destruct k' as [j|s]; [done|]. destruct (p_enumerable p); [|done].
    injection Hk as <-. by eapply assoc_elem_of.
Qed.

Lemma hasOwn_assoc o k : is_Some (assoc k (o_props o)) → hasOwn o k = true.
Proof.
  intros [p Hp]. unfold hasOwn, own_prop. rewrite Hp.
  apply bool_decide_eq_true. destruct (is_frozen o); eauto.
Qed.

Lemma defineReactive_with_no_throw (obs : ObserveFn) fuel obj key val cs sh
    st st' r o :
  (∀ v b s s' r', obs v b s = Some (s', r') → extends s s' ∧ ∃ ob, r' = Ok ob) →
  heap st !! obj = Some o →
  is_Some (assoc key (o_props o)) ∨ is_extensible o = true →
  defineReactive_with obs fuel obj key val cs sh st = Some (st', r) →
  r = Ok ().
Proof.
  intros Hobs Ho Hkey H. unfold defineReactive_with in H.
  pose proof (Dep_new_extends st) as E0.
  destruct (Dep_new st) as [dep st0] eqn:Edep. simpl in E0.
  destruct (bool_decide _); [by injection H as _ <-|].
  destruct (match val with
            | Some v => Some (st0, v)
            | None => _
            end) as [[st1 v1]|] eqn:E1; [|done].
  assert (extends st0 st1) as X1.
  { destruct val as [v|]; [injection E1 as <- _; apply extends_refl|].
    destruct (_ || _).
    - apply reads_extends. by eapply prop_get_reads.
    - injection E1 as <- _. apply extends_refl. }
  simpl in H.
  destruct (if sh then Some (st1, Ok None) else obs v1 false st1)
    as [[st2 r2]|] eqn:E2; [|done].
  assert (extends st1 st2 ∧ ∃ ob, r2 = Ok ob) as [X2 [childOb ->]].
  { destruct sh; [injection E2 as <- <-; split; [apply extends_refl|eauto]|].
    by eapply Hobs. }
  simpl in H. injection H as H.
  pose proof (extends_trans _ _ _ E0 (extends_trans _ _ _ X1 X2)) as X02.
  destruct (ext_heap _ _ X02 obj o Ho) as (o2 & Ho2 & _ & _ & Hint & _ & _ & Hk).
  unfold defineProperty in H. simpl in H. rewrite Ho2 in H.
  assert (hasOwn o2 key || is_extensible o2 = true) as Hok.
  { destruct Hkey as [Hkey|Hext].
    - by rewrite (hasOwn_assoc o2 key (Hk _ Hkey)).
    - unfold is_extensible in *. rewrite Hint, Hext. apply orb_true_r. }
  rewrite Hok in H. by injection H as _ <-.
Qed.

Lemma observe_no_throw fuel : ∀ v b st st' r,
  observe fuel v b st = Some (st', r) → ∃ ob, r = Ok ob.
Proof.
  induction fuel as [|n IH]; intros v b st st' r H; [done|]. simpl in H.
  destruct v; try (injection H as _ <-; eauto).
  simpl in H. destruct (heap st !! l) as [o|] eqn:Ho;
    [|injection H as _ <-; eauto].
  destruct (isVNode (VRef l) st); [injection H as _ <-; eauto|].
  destruct (o_ob o) as [ob|] eqn:Hob; simpl in H.
  { destruct b; injection H as _ <-; eauto. }
  destruct (_ && _ && _ && _ && _).
  2:{ simpl in H. injection H as _ <-; eauto. }
  destruct (Observer_new (observe n) n l o st) as [[st1 r1]|] eqn:E1; [|done].
  assert (∃ ob, r1 = Ok ob) as [ob ->].
  { clear H. unfold Observer_new in E1.
    pose proof (Dep_new_extends st) as E0.
    destruct (Dep_new st) as [dep st0] eqn:Edep. simpl in E0.
    assert (heap st0 = heap st) as Hh0.
    { unfold Dep_new in Edep. by injection Edep as _ <-. }
    set (st2 := upd_obj l (set_o_ob (Some dep)) _) in E1.
    assert (heap st2 !! l = Some (set_o_ob (Some dep) o)) as Ho2.
    { unfold st2. apply upd_obj_lookup. simpl. by rewrite Hh0. }
    destruct (if is_array o then _ else _) as [[st3 r3]|] eqn:E3; [|done].
    assert (r3 = Ok ()) as ->.
    { destruct (is_array o).
      - unfold for_each_drop in E3.
        eapply (for_each_no_throw (λ _, True)); [|done|exact E3].
        intros a s s' r' _ _ Hs. split; [done|]. simpl in Hs.
        destruct (observe n a false s) as [[s1 q1]|] eqn:Eo; [|done].
        destruct (IH _ _ _ _ _ Eo) as [ob ->]. by injection Hs as _ <-.
      - eapply (for_each_no_throw
          (λ s, ∃ o', heap s !! l = Some o' ∧
                      ∀ k, k ∈ keys o → is_Some (assoc k (o_props o'))));
          [| |exact E3].
        + intros k s s' r' Hk (o' & Ho' & Hkeys) Hs.
          pose proof (defineReactive_with_extends _ _ _ _ _ _ _ _ _ _
                        (observe_extends n) Hs) as Xs.
          split.
          * destruct (ext_heap _ _ Xs l o' Ho')
              as (o3 & Ho3 & _ & _ & _ & _ & _ & Hk3).
            exists o3. split; [done|]. intros k' Hk'. by apply Hk3, Hkeys.
          * eapply defineReactive_with_no_throw; [|exact Ho'| |exact Hs].
            -- intros v0 b0 s0 s0' r0 H0. split; [by eapply observe_extends|].
               by eapply IH.
            -- left. by apply Hkeys.
        + eexists. split; [exact Ho2|]. intros k Hk. simpl. by apply keys_assoc. }
    simpl in E1. injection E1 as _ <-. eauto. }
  simpl in H. destruct b; injection H as _ <-; eauto.
Qed.

Lemma defineReactive_no_throw fuel obj key val cs sh st st' r o :
  heap st !! obj = Some o →
  is_Some (assoc key (o_props o)) ∨ is_extensible o = true →
  defineReactive fuel obj key val cs sh st = Some (st', r) →
  r = Ok ().
Proof.
  apply defineReactive_with_no_throw.
  intros v b s s' r' H. split; [by eapply observe_extends|by eapply observe_no_throw].
Qed.

(** ** [reactiveSetter] (C4) *)

Lemma reactiveSetter_inv fuel d c newVal st st' r :
  closures st !! d = Some c →
  reactiveSetter (S fuel) d newVal st = Some (st', r) →
  ∃ st0 old,
    old_value fuel c st = Some (st0, old) ∧
    if strict_eq newVal old || (self_neq newVal && self_neq old)
    then st' = st0 ∧ r = Ok ()
    else if bool_decide (is_Some (r_getter c))
            && negb (bool_decide (is_Some (r_setter c)))
    then st' = custom d c st0 ∧ r = Ok ()
    else ∃ st2 r2,
      store fuel d c newVal (custom d c st0) = Some (st2, r2) ∧
      match r2 with
      | Throw e => st' = st2 ∧ r = Throw e
      | Ok _ =>
        ∃ st3 r3,
          (if r_shallow c then Some (st2, Ok None)
           else observe fuel newVal false st2) = Some (st3, r3) ∧
          match r3 with
          | Throw e => st' = st3 ∧ r = Throw e
          | Ok childOb =>
            Dep_notify fuel d (upd_closure d (set_r_childOb childOb) st3)
              = Some (st', r)
          end
      end.
Proof.
  intros Hc H. unfold reactiveSetter in H. simpl in H. rewrite Hc in H.
  fold (old_value fuel c st) in H.
  destruct (old_value fuel c st) as [[st0 old]|]; [|done]. simpl in H.
  exists st0, old. split; [done|].
  destruct (strict_eq newVal old || _); [by injection H as <- <-|].
  fold (custom d c st0) in H.
  destruct (bool_decide (is_Some (r_getter c)) && _); [by injection H as <- <-|].
  fold (store fuel d c newVal (custom d c st0)) in H.
  destruct (store fuel d c newVal (custom d c st0)) as [[st2 r2]|]; [|done].
  simpl in H. exists st2, r2. split; [done|].
  destruct r2 as [[]|e]; [|by injection H as <- <-].
  destruct (if r_shallow c then _ else _) as [[st3 r3]|]; [|done].
  simpl in H. exists st3, r3. split; [done|].
  destruct r3 as [childOb|e]; [done|by injection H as <- <-].
Qed.

Lemma since_app st st' evs : log st' = log st ++ evs → since st st' = evs.
Proof. intros H. unfold since. by rewrite H, drop_app_length. Qed.

Lemma old_value_reads fuel c st st0 old :
  old_value fuel c st = Some (st0, old) → reads st st0.
Proof.
  unfold old_value. destruct (r_getter c).
  - apply call_getter_reads.
  - intros [= <- _]. apply reads_refl.
Qed.

Lemma custom_same_store d c st : same_store st (custom d c st).
Proof. unfold custom. destruct (_ && _); by split. Qed.

Lemma custom_log d c st :
  ∃ evs, log (custom d c st) = log st ++ evs ∧ Forall (λ e, quiet e = true) evs.
Proof.
  unfold custom. destruct (_ && _).
  - exists [ECustomSetter d]. split; [done|]. by repeat constructor.
  - exists []. by rewrite app_nil_r.
Qed.

Lemma upd_closure_lookup d f st c :
  closures st !! d = Some c → closures (upd_closure d f st) !! d = Some (f c).
Proof. intros H. unfold upd_closure. rewrite H. simpl. apply lookup_insert_eq. Qed.

(** [get] returns as soon as the getter and, for a deep watcher, [traverse]
    return. *)
Lemma Watcher_get_intro fuel w x st st1 out st2 :
  watchers st !! w = Some x →
  run_getter fuel (getter x) (emit (EGetter w) (pushTarget (Some w) st))
    = Some (st1, out) →
  (if deep x then traverse fuel (got out) (caught x w out st1)
   else Some (caught x w out st1)) = Some st2 →
  Watcher_get fuel w st
    = Some (Watcher_cleanupDeps w (popTarget st2), get_result x out).
Proof.
  intros Hx E1 E2. unfold Watcher_get. rewrite Hx, E1. simpl.
  destruct out as [v|e]; simpl in *.
  - by rewrite E2.
  - destruct (user x); simpl in *; by rewrite E2.
Qed.

(** Deciding a closed proposition by evaluation. *)
Ltac by_compute :=
  match goal with
  | |- ?P => apply (@bool_decide_unpack P _); vm_compute; exact I
  end.

(** A way to check [tracked] on a given state. *)
Lemma tracked_intro w x st :
  watchers st !! w = Some x →
  NoDup (deps x) →
  list_to_set (deps x) = depIds x →
  newDeps x = [] → newDepIds x = ∅ →
  map_Forall (λ d l, count_occ Nat.eq_dec l w =
                     if decide (d ∈ depIds x) then 1 else 0) (subs st) →
  depIds x ⊆ dom (subs st) →
  tracked w st.
Proof.
  intros Hx Hnd Hset Hn Hni Hall Hdom. exists x. split_and!; try done.
  - intros d. rewrite <- Hset. by rewrite elem_of_list_to_set.
  - intros d. unfold subs_of. destruct (subs st !! d) as [l|] eqn:El; simpl.
    + by apply (Hall d l).
    + case_decide as Hin; [|done]. apply Hdom, elem_of_dom in Hin.
      rewrite El in Hin. by destruct Hin.
Qed.

Lemma upd_closure_frame d f st :
  log (upd_closure d f st) = log st ∧ cells (upd_closure d f st) = cells st ∧
  dep_uid (upd_closure d f st) = dep_uid st.
Proof. unfold upd_closure. by destruct (closures st !! d). Qed.

(** The end of [reactiveSetter]: observing the new value and notifying. *)
Lemma setter_tail fuel d c2 newVal (sh : bool) st2 st3 childOb st' r base evs0 :
  closures st2 !! d = Some c2 → d < dep_uid st2 →
  log st2 = base ++ evs0 → Forall (λ e, quiet e = true) evs0 →
  (if sh then st3 = st2 ∧ childOb = None
   else observe fuel newVal false st2 = Some (st3, Ok childOb)) →
  Dep_notify fuel d (upd_closure d (set_r_childOb childOb) st3) = Some (st', r) →
  (∃ evs, log st' = base ++ evs ∧ notifications evs = [d]) ∧
  closures st' !! d = Some (set_r_childOb childOb c2) ∧
  cells st' = cells st2.
Proof.
  intros Hc Hd Hl Hq Hobs Hn.
  assert (extends st2 st3) as X.
  { destruct sh; [destruct Hobs as [-> _]; apply extends_refl|].
    by eapply observe_extends. }
  destruct X as [_ Hcells _ Hcl _ (evs1 & Hl1 & Hq1)].
  pose proof (Dep_notify_same_heap _ _ _ _ _ Hn) as [_ _ _ Hcl' Hcells' _].
  destruct (Dep_notify_log _ _ _ _ _ Hn) as (evs2 & Hl2 & Hn2 & _).
  destruct (upd_closure_frame d (set_r_childOb childOb) st3) as (Hlu & Hcu & _).
  split_and!.
  - exists (evs0 ++ evs1 ++ ENotify d :: evs2).
    rewrite Hl2, Hlu, Hl1, Hl. split; [by rewrite <- !app_assoc|].
    rewrite !notifications_app.
    rewrite (quiet_notifications evs0), (quiet_notifications evs1) by done.
    change (ENotify d :: evs2) with ([ENotify d] ++ evs2).
    rewrite notifications_app, Hn2. done.
  - rewrite Hcl'. apply upd_closure_lookup. rewrite Hcl by done. exact Hc.
  - by rewrite Hcells', Hcu, Hcells.
Qed.

(** ** [set] (C5) *)

Lemma returning_inv {A} (a : A) r st' (x : Res A) :
  returning a r = Some (st', x) →
  ∃ y, r = Some (st', y) ∧
       x = match y with Ok _ => Ok a | Throw e => Throw e end.
Proof.
  unfold returning. destruct r as [[s y]|]; [|done]. simpl.
  intros [= <- <-]. by exists y.
Qed.

Lemma grow_max_take i (es : list Value) :
  take (length es `max` i) (grow (length es `max` i) es) = grow i es.
Proof.
  unfold grow. rewrite take_ge.
  - f_equal. f_equal. lia.
  - rewrite length_app, length_replicate. lia.
Qed.

Lemma splice_grow_lookup i val (es : list Value) :
  splice i 1 [val] (grow i es) !! i = Some val ∧
  length (splice i 1 [val] (grow i es)) = length es `max` S i ∧
  ∀ j, j ≠ i → j < length es → splice i 1 [val] (grow i es) !! j = es !! j.
Proof.
  unfold splice, grow.
  assert (i ≤ length (es ++ replicate (i - length es) VUndef)) as Hlen.
  { rewrite length_app, length_replicate. lia. }
  split_and!.
  - rewrite lookup_app_r by (rewrite length_take; lia).
    rewrite length_take. replace (i - _) with 0 by lia. done.
  - rewrite !length_app, length_take, length_drop, length_app, length_replicate.
    simpl. lia.
  - intros j Hne Hj. destruct (decide (j < i)) as [Hlt|Hge].
    + rewrite lookup_app_l by (rewrite length_take; lia).
      rewrite lookup_take_lt by done. by rewrite lookup_app_l.
    + rewrite lookup_app_r by (rewrite length_take; lia).
      rewrite length_take. replace (i `min` _) with i by lia.
      destruct (j - i) as [|k] eqn:Ek; [lia|]. simpl.
      rewrite lookup_drop, lookup_app_l by lia. f_equal. lia.
Qed.

(** [set] on an index of an array: the length grows to cover the index, the
    element is put in by [splice], and the Dep of the Observer of the array,
    if it has one, is notified. *)
Lemma set_array fuel target key val o st st' :
  heap st !! target = Some o →
  is_array o && isValidArrayIndex key = true →
  assoc (KName "length") (o_props o) = None →
  set fuel target key val st = Some (st', Ok val) →
  ∃ o', heap st' !! target = Some o' ∧
        o_elems o' = splice (index key) 1 [val] (grow (index key) (o_elems o)) ∧
        notifications (since st st')
          = match o_ob o with Some d => [d] | None => [] end.
Proof.
  intros Ho Hbr Hlen H. unfold set in H. rewrite Ho, Hbr in H.
  apply andb_true_iff in Hbr as [Harr _].
  unfold prop_set in H. rewrite Ho in H. unfold own_prop in H.
  rewrite Hlen, Harr in H. cbn [decide] in H.
  destruct (decide ("length"%string = "length"%string)) as [_|]; [|done].
  cbn [p_desc] in H.
  destruct (is_frozen o) eqn:Hfr; [done|]. cbn [negb] in H.
  assert ((0 <=? Z.of_nat (length (o_elems o) `max` index key))%Z = true) as Hz.
  { apply Z.leb_le. lia. }
  rewrite Hz in H. cbn [mbind option_bind] in H.
  rewrite Nat2Z.id in H.
  set (st1 := upd_obj target _ st) in H.
  assert (heap st1 !! target = Some (set_o_elems (grow (index key) (o_elems o)) o))
    as Ho1.
  { unfold st1. erewrite upd_obj_lookup by exact Ho.
    by rewrite grow_max_take. }
  assert (log st1 = log st) as Hl1.
  { unfold st1, upd_obj. by rewrite Ho. }
  apply returning_inv in H as (y & H & Hy).
  destruct y as [[]|e]; [|done].
  unfold array_splice in H. rewrite Ho1 in H.
  destruct (is_frozen _ || _); [done|].
  cbn [o_elems set_o_elems o_ob] in H.
  set (es := splice (index key) 1 [val] (grow (index key) (o_elems o))) in *.
  set (st2 := upd_obj target (set_o_elems es) st1) in H.
  assert (heap st2 !! target
          = Some (set_o_elems es (set_o_elems (grow (index key) (o_elems o)) o)))
    as Ho2 by (by apply upd_obj_lookup).
  assert (log st2 = log st) as Hl2.
  { unfold st2, upd_obj. by rewrite Ho1. }
  destruct (o_ob o) as [ob|].
  - destruct (for_each_drop _ _ _) as [[st3 r3]|] eqn:E3; [|done].
    assert (extends st2 st3) as X.
    { eapply (for_each_drop_invariant extends); [| | |exact E3].
      - apply extends_refl.
      - apply extends_trans.
      - intros a s s' r' _. apply observe_extends. }
    cbn [mbind option_bind] in H. destruct r3 as [[]|e]; [|done].
    destruct (ext_heap _ _ X _ _ Ho2) as (o3 & Ho3 & _ & Hes & _).
    destruct (ext_log _ _ X) as (evs1 & Hle & Hq).
    pose proof (Dep_notify_same_heap _ _ _ _ _ H) as [_ Hh _ _ _ _].
    destruct (Dep_notify_log _ _ _ _ _ H) as (evs2 & Hln & Hn & _).
    exists o3. rewrite Hh. split_and!; [done|by rewrite Hes|].
    rewrite (since_app st st' (evs1 ++ ENotify ob :: evs2)).
    + rewrite notifications_app, (quiet_notifications evs1) by done.
      change (ENotify ob :: evs2) with ([ENotify ob] ++ evs2).
      by rewrite notifications_app, Hn.
    + rewrite Hln, Hle, Hl2. by rewrite <- app_assoc.
  - injection H as <-. eexists. split_and!; [exact Ho2|done|].
    unfold since. rewrite Hl2. by rewrite drop_ge.
Qed.

(** [o[k] = v] for a key that is not an own property of an extensible
    object: a data property is created. *)
Lemma prop_set_new fuel l k v o st :
  heap st !! l = Some o → hasOwn o k = false → is_extensible o = true →
  is_array o && isValidArrayIndex k = false →
  prop_set fuel l k v st =
    Some (upd_obj l (λ o, set_o_props (o_props o ++ [(k, data_prop v false)]) o) st,
          Ok ()).
Proof.
  intros Ho Hown Hext Hbr. unfold prop_set. rewrite Ho.
  unfold hasOwn in Hown. apply bool_decide_eq_false in Hown.
  destruct (own_prop o k) as [p|]; [exfalso; eauto|].
  rewrite Hext. destruct (is_array o); [|done]. by destruct k.
Qed.

(** [defineReactive(obj, key, val)] on a key that is not an own property. *)
Lemma defineReactive_new fuel obj key val cs sh st st1 o :
  heap st !! obj = Some o → own_prop o key = None →
  defineReactive fuel obj key (Some val) cs sh st = Some (st1, Ok ()) →
  ∃ st2 childOb o2 evs,
    heap st2 !! obj = Some o2 ∧
    st1 = upd_obj obj
            (λ o, set_o_props (assoc_set key (reactive_property (dep_uid st))
                                         (o_props o)) o)
            (set_closures
               (<[dep_uid st := {| r_val := val; r_childOb := childOb;
                                   r_getter := None; r_setter := None;
                                   r_shallow := sh; r_customSetter := cs |}]>
                  (closures st2)) st2) ∧
    log st2 = log st ++ evs ∧ Forall (λ e, quiet e = true) evs.
Proof.
  intros Ho Hown H. unfold defineReactive, defineReactive_with in H.
  pose proof (Dep_new_extends st) as E0.
  unfold Dep_new in H, E0. cbn [snd] in E0.
  set (st0 := set_subs _ _) in *.
  assert (heap st0 = heap st) as Hh0 by done.
  rewrite Hh0, Ho in H. cbn [mbind option_bind] in H. rewrite Hown in H.
  cbn [fmap option_fmap option_map] in H.
  destruct (bool_decide (None = Some false)) eqn:Hb.
  { by apply bool_decide_eq_true in Hb. }
  cbn [mbind option_bind] in H.
  destruct (if sh then Some (st0, Ok None) else observe fuel val false st0)
    as [[st2 r2]|] eqn:E2; [|done].
  assert (extends st0 st2 ∧ ∃ childOb, r2 = Ok childOb) as [X2 [childOb ->]].
  { destruct sh; [injection E2 as <- <-; split; [apply extends_refl|eauto]|].
    split; [by eapply observe_extends|by eapply observe_no_throw]. }
  cbn [mbind option_bind] in H.
  pose proof (extends_trans _ _ _ E0 X2) as X.
  destruct (ext_heap _ _ X obj o Ho) as (o2 & Ho2 & _).
  destruct (ext_log _ _ X) as (evs & Hl & Hq).
  unfold defineProperty in H. cbn [heap set_closures] in H. rewrite Ho2 in H.
  destruct (hasOwn o2 key || is_extensible o2); [|done].
  injection H as <-. exists st2, childOb, o2, evs. by split_and!.
Qed.

(** [set] that adds a key to an observed object: the key becomes a reactive
    property holding the value, and the Dep of the Observer is notified. *)
Lemma set_define fuel target key val o d x st st' :
  heap st !! target = Some o →
  is_array o && isValidArrayIndex key = false →
  has_in o key && negb (in_Object_prototype key) = false →
  o_isVue o || is_root_data (o_ob o) st = false →
  o_ob o = Some d →
  observers st !! d = Some x → ob_value x = target →
  hasOwn o key = false →
  set fuel target key val st = Some (st', Ok val) →
  notifications (since st st') = [d] ∧
  ∃ o' c',
    heap st' !! target = Some o' ∧
    assoc key (o_props o') = Some (reactive_property (dep_uid st)) ∧
    closures st' !! dep_uid st = Some c' ∧
    r_val c' = val ∧ r_getter c' = None ∧ r_setter c' = None ∧
    r_shallow c' = false.
Proof.
  intros Ho Hbr Hin Hvue Hob Hx Hv Hown H.
  unfold set in H. rewrite Ho, Hbr, Hin, Hvue, Hob, Hx, Hv in H.
  destruct (defineReactive fuel target key (Some val) false false st)
    as [[st1 r1]|] eqn:E1; [|done].
  cbn [mbind option_bind] in H. destruct r1 as [[]|e]; [|done].
  apply returning_inv in H as (y & Hn & Hy). destruct y as [[]|e]; [|done].
  assert (own_prop o key = None) as Hnone.
  { unfold hasOwn in Hown. apply bool_decide_eq_false in Hown.
    destruct (own_prop o key); [exfalso; eauto|done]. }
  destruct (defineReactive_new _ _ _ _ _ _ _ _ _ Ho Hnone E1)
    as (st2 & childOb & o2 & evs & Ho2 & -> & Hl & Hq).
  set (st1' := set_closures _ st2) in *.
  pose proof (Dep_notify_same_heap _ _ _ _ _ Hn) as [_ Hh _ Hc _ _].
  destruct (Dep_notify_log _ _ _ _ _ Hn) as (evs2 & Hln & Hn2 & _).
  assert (heap st1' !! target = Some o2) as Ho1' by exact Ho2.
  split.
  - rewrite (since_app st st' (evs ++ ENotify d :: evs2)).
    + rewrite notifications_app, (quiet_notifications evs) by done.
      change (ENotify d :: evs2) with ([ENotify d] ++ evs2).
      by rewrite notifications_app, Hn2.
    + rewrite Hln. unfold upd_obj. rewrite Ho1'. cbn [log set_heap].
      unfold st1'. cbn [log set_closures]. rewrite Hl. by rewrite <- app_assoc.
  - eexists _, _. rewrite Hh, Hc. split_and!.
    + by apply upd_obj_lookup.
    + cbn [o_props set_o_props]. rewrite assoc_assoc_set. by case_decide.
    + unfold upd_obj. rewrite Ho1'. cbn [closures set_heap].
      unfold st1'. cbn [closures set_closures]. apply lookup_insert_eq.
    + done.
    + done.
    + done.
    + done.
Qed.

(** ** Reads and fuel *)





(** ** Reads depend on the store only *)










(** ** [traverse] terminates (C7) *)















Lemma assoc_Some_elem_of {A} (k : Key) (a : A) l : assoc k l = Some a → (k, a) ∈ l.
Proof.
  induction l as [|[k0 a0] l IH]; [done|]. simpl.
  destruct (decide (k0 = k)) as [->|].
  - intros [= ->]. left.
  - intros H. right. by apply IH.
Qed.

(** Checking that every property read returns, object by object. *)
Lemma reads_return_intro F st :
  map_Forall (λ l o, Forall (λ kp, is_Some (prop_get F l kp.1 st)) (o_props o))
             (heap st) →
  ∀ l k, is_Some (prop_get F l k st).
Proof.
  intros Hall l k. destruct (heap st !! l) as [o|] eqn:Ho.
  2:{ unfold prop_get. rewrite Ho. eauto. }
  destruct (assoc k (o_props o)) as [p|] eqn:Hp.
  - pose proof (Hall l o Ho) as Hf. rewrite Forall_forall in Hf.
    apply (Hf (k, p)). by apply assoc_Some_elem_of.
  - unfold prop_get, own_prop. rewrite Ho, Hp.
    destruct (is_array o); [|eauto].
    destruct k as [i|s].
    + destruct (o_elems o !! i); simpl; eauto.
    + case_decide; simpl; eauto.
Qed.

(** A heap on which every object carries an Observer is ranked. *)
Lemma traversal_ranked_observed F st :
  (∀ l k, is_Some (prop_get F l k st)) →
  map_Forall (λ _ o, is_Some (o_ob o)) (heap st) →
  traversal_ranked F 0 (λ _, 0) st.
Proof.
  intros Hr Hall. split; [done|done|].
  intros l o c Ho Hob. destruct (Hall l o Ho) as [d Hd]. congruence.
Qed.

(** ** More on dep.js *)

Lemma remove_absent l w : w ∉ l → remove l w = l.
Proof.
  induction l as [|a l IH]; [done|]. intros Hn. simpl.
  destruct (decide (a = w)) as [->|]; [exfalso; apply Hn; left|].
  rewrite IH; [done|]. intros H. apply Hn. by right.
Qed.

Lemma remove_snoc_absent l w : w ∉ l → remove (l ++ [w]) w = l.
Proof.
  induction l as [|a l IH]; intros Hn; simpl.
  - by rewrite decide_True.
  - destruct (decide (a = w)) as [->|]; [exfalso; apply Hn; left|].
    rewrite IH; [done|]. intros H. apply Hn. by right.
Qed.

(** ** Watchers other than the one that is evaluated *)

Lemma keeps_refl w st : keeps w st st.
Proof. by split. Qed.

Lemma keeps_trans w st1 st2 st3 :
  keeps w st1 st2 → keeps w st2 st3 → keeps w st1 st3.
Proof. intros [H1 H2] [H3 H4]. split; [congruence|]. intros d. by rewrite H4. Qed.




Lemma cleanup_loop_keeps w w' nids ds st :
  w ≠ w' → keeps w st (cleanup_loop w' nids ds st).
Proof.
  intros Hne. induction ds as [|d ds IH]; [apply keeps_refl|].
  unfold cleanup_loop. cbn [foldr]. fold (cleanup_loop w' nids ds st).
  case_decide; [done|]. eapply keeps_trans; [exact IH|].
  split; [done|]. intros d'. rewrite subs_of_removeSub. case_decide; [|done].
  subst. apply count_occ_remove_ne. congruence.
Qed.



Lemma tracked_upd_watcher w w' f st :
  (∀ x, deps (f x) = deps x ∧ newDeps (f x) = newDeps x ∧
        depIds (f x) = depIds x ∧ newDepIds (f x) = newDepIds x) →
  tracked w st → tracked w (upd_watcher w' f st).
Proof.
  intros Hf (x & Hx & Hnd & Hmem & Hn & Hni & Hcnt). unfold upd_watcher.
  destruct (watchers st !! w') as [y|] eqn:Hy; [|by exists x].
  destruct (decide (w' = w)) as [->|Hne].
  - rewrite Hx in Hy. injection Hy as <-.
    destruct (Hf x) as (H1 & H2 & H3 & H4).
    exists (f x). simpl. rewrite lookup_insert_eq, H1, H2, H3, H4. by split_and!.
  - exists x. simpl. rewrite lookup_insert_ne by done. by split_and!.
Qed.







(** ** teardown and depend *)

Lemma unsubscribed_intro w st :
  map_Forall (λ _ l, w ∉ l) (subs st) → unsubscribed w st.
Proof.
  intros H d. unfold subs_of. destruct (subs st !! d) as [l|] eqn:E; simpl.
  - by apply (H d l).
  - apply not_elem_of_nil.
Qed.

Lemma count_occ_absent (l : list nat) w :
  w ∉ l ↔ count_occ Nat.eq_dec l w = 0.
Proof. rewrite <- count_occ_not_In. by rewrite list_elem_of_In. Qed.

Lemma teardown_loop w ds st :
  foldr (λ d st, Dep_removeSub d w st) st ds = cleanup_loop w ∅ ds st.
Proof.
  induction ds as [|d ds IH]; [done|]. unfold cleanup_loop. cbn [foldr].
  fold (cleanup_loop w ∅ ds st). rewrite decide_False by set_solver.
  cbn [foldr] in IH. by rewrite IH.
Qed.

Lemma upd_vm_frame v f st :
  subs (upd_vm v f st) = subs st ∧ watchers (upd_vm v f st) = watchers st ∧
  log (upd_vm v f st) = log st ∧ heap (upd_vm v f st) = heap st.
Proof. unfold upd_vm. by destruct (vms st !! v). Qed.

Lemma Watcher_addDep_newDepIds o d xo st :
  watchers st !! o = Some xo →
  ∃ xo', watchers (Watcher_addDep o d st) !! o = Some xo' ∧
         newDepIds xo' = {[d]} ∪ newDepIds xo.
Proof.
  intros Hx. unfold Watcher_addDep. rewrite Hx.
  destruct (decide (d ∈ newDepIds xo)) as [Hin|Hnin].
  { exists xo. split; [done|]. set_solver. }
  destruct (decide (d ∈ depIds xo)); eexists; simpl;
    (split; [apply lookup_insert_eq|done]).
Qed.

Lemma depend_loop_newDepIds o ds : ∀ xo st,
  target st = Some o → watchers st !! o = Some xo →
  let st' := foldr (λ d st, Dep_depend d st) st ds in
  same_store st st' ∧
  ∃ xo', watchers st' !! o = Some xo' ∧
         newDepIds xo' = list_to_set ds ∪ newDepIds xo.
Proof.
  induction ds as [|d ds IH]; intros xo st Ht Hx; cbn [foldr].
  - split; [apply same_store_refl|]. exists xo. split; [done|]. set_solver.
  - destruct (IH xo st Ht Hx) as (Hss & xo1 & Hx1 & Hn1).
    set (st1 := foldr (λ d st, Dep_depend d st) st ds) in *.
    split.
    { eapply same_store_trans; [exact Hss|apply Dep_depend_same_store]. }
    unfold Dep_depend. rewrite (ss_target _ _ Hss), Ht.
    destruct (Watcher_addDep_newDepIds o d xo1 st1 Hx1) as (xo2 & Hx2 & Hn2).
    exists xo2. split; [done|]. rewrite Hn2, Hn1. set_solver.
Qed.

(** ** What reading collects *)

Lemma collected_evaluating d st : collected d st → evaluating st.
Proof. intros (w & x & Ht & Hx & _). by exists w, x. Qed.

Lemma Dep_depend_collected d st : evaluating st → collected d (Dep_depend d st).
Proof.
  intros (w & x & Ht & Hx).
  destruct (Watcher_addDep_newDepIds w d x st Hx) as (x' & Hx' & Hn).
  exists w, x'. rewrite (ss_target _ _ (Dep_depend_same_store d st)).
  split; [done|]. unfold Dep_depend. rewrite Ht. split; [done|].
  rewrite Hn. set_solver.
Qed.

Lemma Dep_depend_collected_mono d d' st :
  collected d st → collected d (Dep_depend d' st).
Proof.
  intros (w & x & Ht & Hx & Hin).
  destruct (Watcher_addDep_newDepIds w d' x st Hx) as (x' & Hx' & Hn).
  exists w, x'. rewrite (ss_target _ _ (Dep_depend_same_store d' st)).
  split; [done|]. unfold Dep_depend. rewrite Ht. split; [done|].
  rewrite Hn. set_solver.
Qed.

Lemma Dep_depend_evaluating d st : evaluating st → evaluating (Dep_depend d st).
Proof. intros H. eapply collected_evaluating. by apply Dep_depend_collected. Qed.

Lemma reads_collected d st st' : reads st st' → collected d st → collected d st'.
Proof.
  intros R. apply (reads_invariant (collected d)); [| |done].
  - intros s d'. apply Dep_depend_collected_mono.
  - by intros s x.
Qed.

Lemma reads_evaluating st st' : reads st st' → evaluating st → evaluating st'.
Proof.
  intros R. apply (reads_invariant evaluating); [| |done].
  - intros s d'. apply Dep_depend_evaluating.
  - by intros s x.
Qed.

(** [reactiveGetter] during an evaluation. *)
Lemma call_getter_collects fuel d c st st' v :
  closures st !! d = Some c → evaluating st →
  call_getter fuel (FReactive d) st = Some (st', v) →
  collected d st' ∧ (∀ ob, r_childOb c = Some ob → collected ob st') ∧
  (r_getter c = None → v = r_val c).
Proof.
  intros Hc Hev H. destruct fuel as [|n]; [done|]. simpl in H. rewrite Hc in H.
  destruct (match r_getter c with
            | Some g' => call_getter n g' st
            | None => Some (st, r_val c)
            end) as [[st1 val]|] eqn:E1; [|done].
  cbn [mbind option_bind] in H.
  assert (reads st st1) as R1.
  { destruct (r_getter c); [by eapply call_getter_reads|].
    injection E1 as <- _. apply reads_refl. }
  pose proof (reads_evaluating _ _ R1 Hev) as (w & x & Ht & Hx).
  rewrite Ht in H.
  destruct (match r_childOb c with
            | Some ob =>
              if isArray val (Dep_depend ob (Dep_depend d st1))
              then dependArray n val (Dep_depend ob (Dep_depend d st1))
              else Some (Dep_depend ob (Dep_depend d st1))
            | None => Some (Dep_depend d st1)
            end) as [st2|] eqn:E2; [|done].
  cbn [mbind option_bind] in H. injection H as <- <-.
  assert (collected d (Dep_depend d st1)) as C1.
  { apply Dep_depend_collected. by exists w, x. }
  split_and!.
  - destruct (r_childOb c) as [ob|]; [|by injection E2 as <-].
    assert (reads (Dep_depend d st1) st2) as R2.
    { eapply reads_trans; [apply (reads_depend ob)|].
      destruct (isArray val _); [by eapply dependArray_reads|].
      injection E2 as <-. apply reads_refl. }
    by eapply reads_collected.
  - intros ob Hob. rewrite Hob in E2.
    assert (collected ob (Dep_depend ob (Dep_depend d st1))) as C2.
    { apply Dep_depend_collected. by eapply collected_evaluating. }
    destruct (isArray val _).
    + eapply reads_collected; [|exact C2]. by eapply dependArray_reads.
    + by injection E2 as <-.
  - intros Hg. rewrite Hg in E1. by injection E1 as _ <-.
Qed.

(** A step of a loop that only reads happens between two readings. *)
Lemma mfold_step {A} (f : A → World → option World) l a :
  (∀ b st st', f b st = Some st' → reads st st') →
  a ∈ l →
  ∀ st st', mfold f l st = Some st' →
  ∃ s s', reads st s ∧ f a s = Some s' ∧ reads s' st'.
Proof.
  intros Hf. induction l as [|b l IH]; intros Ha st st' H.
  { by apply elem_of_nil in Ha. }
  simpl in H. destruct (f b st) as [st1|] eqn:E; [|done]. simpl in H.
  apply elem_of_cons in Ha as [->|Ha].
  - exists st, st1. split; [apply reads_refl|]. split; [done|].
    eapply mfold_reads; [|exact H]. intros c s s' _. apply Hf.
  - destruct (IH Ha st1 st' H) as (s & s' & R1 & E' & R2).
    exists s, s'. split; [|done]. eapply reads_trans; [|exact R1]. by eapply Hf.
Qed.


(** ** Property reads that return (C7) *)








(** ** Traversals that do not return *)

(** One step of [_traverse] into an object that is not an array. *)
Lemma _traverse_object_step n l o st :
  heap st !! l = Some o → is_array o = false → is_frozen o = false →
  isVNode (VRef l) st = false →
  (∀ d, o_ob o = Some d → d ∉ seenObjects st) →
  _traverse (S n) (VRef l) st =
  mfold (λ k st, '(st, v) ← prop_get n l k st; _traverse n v st)
        (rev (keys o))
        (match o_ob o with
         | Some depId => set_seenObjects ({[depId]} ∪ seenObjects st) st
         | None => st
         end).
Proof.
  intros Ho Ha Hf Hv Hseen. cbn [_traverse].
  unfold isArray, isObject, isFrozen. cbn [obj_of]. rewrite Ho, Ha, Hf, Hv.
  rewrite bool_decide_eq_true_2 by eauto. cbn [negb andb orb].
  destruct (o_ob o) as [d|]; [|done].
  by rewrite bool_decide_eq_false_2 by (by apply Hseen).
Qed.

(** An object without Observer whose only enumerable key holds the object
    itself. *)
Lemma _traverse_data_loop l o k p w :
  is_array o = false → is_frozen o = false → o_class o ≠ CVNode →
  o_ob o = None → keys o = [k] →
  own_prop o k = Some p → p_desc p = PData (VRef l) w →
  ∀ n st, heap st !! l = Some o → _traverse n (VRef l) st = None.
Proof.
  intros Ha Hf Hc Hob Hk Hp Hd. induction n as [|n IH]; intros st Ho; [done|].
  rewrite (_traverse_object_step n l o st Ho Ha Hf).
  - rewrite Hk, Hob. cbn [rev app mfold]. unfold prop_get.
    rewrite Ho, Hp, Hd. cbn [mbind option_bind]. by rewrite IH.
  - unfold isVNode. cbn [obj_of]. rewrite Ho. by destruct (o_class o).
  - intros d. by rewrite Hob.
Qed.



(** [get] of a deep watcher does not get past a [traverse] that does not
    return. *)
Lemma Watcher_get_traverse_none fuel w x st st1 out :
  watchers st !! w = Some x → deep x = true →
  run_getter fuel (getter x) (emit (EGetter w) (pushTarget (Some w) st))
    = Some (st1, out) →
  traverse fuel (got out) (caught x w out st1) = None →
  Watcher_get fuel w st = None.
Proof.
  intros Hx Hd E1 E2. unfold Watcher_get. rewrite Hx, E1.
  cbn [mbind option_bind]. rewrite Hd.
  destruct out as [v|e]; simpl in *.
  - by rewrite E2.
  - destruct (user x); simpl in *; by rewrite E2.
Qed.

(* ===================================================================== *)
(** * The claims *)
(* ===================================================================== *)


(** C3 (amended).  [get] pushes the watcher, runs the getter with the
    watcher as the current target, hands an error of the getter to
    [handleError] when the watcher is a user watcher and lets it propagate
    otherwise, and in either case applies [traverse] to the value when
    [deep] is set; when [traverse] returns normally, as it does at once
    without [deep], [get] pops the target stack, which restores the
    enclosing target, and runs [cleanupDeps]. *)
Theorem Watcher_get_protocol fuel w x st st1 out st2 :
  watchers st !! w = Some x →
  run_getter fuel (getter x) (emit (EGetter w) (pushTarget (Some w) st))
    = Some (st1, out) →
  (if deep x then traverse fuel (got out) (caught x w out st1)
   else Some (caught x w out st1)) = Some st2 →
  ∃ st' reads1 reads2,
    Watcher_get fuel w st =
      Some (st', match out with
                 | Ok v => Ok v
                 | Throw e => if user x then Ok VUndef else Throw e
                 end) ∧
    target (emit (EGetter w) (pushTarget (Some w) st)) = Some w ∧
    log st' =
      log st ++ [EPushTarget (Some w); EGetter w] ++ reads1
        ++ match out with
           | Throw e => if user x then [EHandleError e w] else []
           | Ok _ => []
           end
        ++ (if deep x then ETraverse (got out) :: reads2 else [])
        ++ [EPopTarget; ECleanupDeps w] ∧
    Forall (λ e, is_addDep e = true) reads1 ∧
    Forall (λ e, is_addDep e = true) reads2 ∧
    targetStack st' = targetStack st ∧
    target st' = mjoin (last (targetStack st)).
Proof.
  intros Hx E1 E2.
  pose proof (Watcher_get_intro _ _ _ _ _ _ _ Hx E1 E2) as Hget.
  destruct (Watcher_get_trace _ _ _ _ _ _ Hx Hget)
    as (s1 & out' & reads1 & reads2 & E1' & Ht & _ & Hl & Hf1 & Hf2 & Hs & Htg).
  rewrite E1 in E1'. injection E1' as <- <-.
  eexists _, reads1, reads2. split; [exact Hget|]. by split_and!.
Qed.

(** C8.  [update] of a lazy watcher only sets [dirty]; of a sync watcher it
    is [run]; otherwise the watcher goes to [queueWatcher].  Constructing a
    lazy watcher does not run its getter: the value is [undefined] and
    [dirty] is set.  When [get] returns a value, [evaluate] has run the
    getter once, through that [get], stored the value and cleared [dirty]. *)
Theorem Watcher_update_lazy_evaluate fuel w x st :
  watchers st !! w = Some x →
  Watcher_update fuel w st =
    (if lazy x then
       Some (set_watchers (<[w := set_dirty true x]> (watchers st))
               (emit (EUpdate w) st), Ok ())
     else if sync x then Watcher_run fuel w (emit (EUpdate w) st)
     else Some (emit (EQueueWatcher w) (emit (EUpdate w) st), Ok ())) ∧
  (∀ v expOrFn opts isRenderWatcher,
     opt_lazy opts = true →
     ∃ st' x',
       Watcher_new fuel v expOrFn (Some opts) isRenderWatcher st
         = Some (st', Ok (S (watcher_uid st))) ∧
       watchers st' !! S (watcher_uid st) = Some x' ∧
       getter x' = expOrFn ∧ lazy x' = true ∧
       value x' = VUndef ∧ dirty x' = true ∧
       log st' = log st) ∧
  (∀ st1 val, Watcher_get fuel w st = Some (st1, Ok val) →
     ∃ st' x' evs,
       Watcher_evaluate fuel w st = Some (st', Ok ()) ∧
       watchers st' !! w = Some x' ∧
       value x' = val ∧ dirty x' = false ∧
       log st' = log st ++ evs ∧
       count_occ Event_eq_dec evs (EGetter w) = 1).
Proof.
  intros Hx. split_and!.
  - unfold Watcher_update. simpl. rewrite Hx.
    destruct (lazy x); [|done]. unfold upd_watcher. simpl. by rewrite Hx.
  - intros v expOrFn opts isR Hlazy. unfold Watcher_new. simpl. rewrite Hlazy.
    eexists _, _. split; [reflexivity|]. simpl.
    assert (∀ f, log (upd_vm v f st) = log st) as Hlog.
    { intros f. unfold upd_vm. by destruct (vms st !! v). }
    rewrite lookup_insert_eq, Hlog. by split_and!.
  - intros st1 val E. unfold Watcher_evaluate. rewrite E. simpl.
    destruct (Watcher_get_fields _ _ w _ _ _ _ Hx E) as (x1 & Hx1 & _).
    destruct (Watcher_get_getter_once _ _ _ _ _ _ Hx E) as (evs & Hl & Hc).
    eexists _, _, evs. split; [done|].
    unfold upd_watcher. rewrite Hx1. simpl. rewrite lookup_insert_eq.
    simpl. rewrite lookup_insert_eq. by split_and!.
Qed.

(** C10.  When the getter of a lazy watcher that is not a user watcher
    throws, [evaluate] throws the same error; the cached value and the
    dirty flag are as before; the target stack is popped and [cleanupDeps]
    has run. *)
Theorem Watcher_evaluate_getter_throws fuel w x st st1 e :
  watchers st !! w = Some x →
  lazy x = true → user x = false → 0 < fuel →
  run_getter fuel (getter x) (emit (EGetter w) (pushTarget (Some w) st))
    = Some (st1, Throw e) →
  ∃ st' x' evs,
    Watcher_evaluate fuel w st = Some (st', Throw e) ∧
    watchers st' !! w = Some x' ∧
    value x' = value x ∧ dirty x' = dirty x ∧
    targetStack st' = targetStack st ∧
    target st' = mjoin (last (targetStack st)) ∧
    log st' = log st ++ evs ++ [EPopTarget; ECleanupDeps w].
Proof.
  intros Hx Hlazy Huser Hfuel Hrun.
  assert (∃ st', Watcher_get fuel w st = Some (st', Throw e)) as [st' Hget].
  { unfold Watcher_get. rewrite Hx, Hrun. simpl. rewrite Huser.
    destruct (deep x); [|by eexists].
    destruct fuel as [|n]; [lia|]. rewrite traverse_undef. by eexists. }
  destruct (Watcher_get_fields _ _ w _ _ _ _ Hx Hget) as (x' & Hx' & Hv & Hd & _).
  destruct (Watcher_get_trace _ _ _ _ _ _ Hx Hget)
    as (s1 & out & reads1 & reads2 & _ & _ & _ & Hl & _ & _ & Hs & Ht).
  exists st', x'.
  exists ([EPushTarget (Some w); EGetter w] ++ reads1
          ++ match out with
             | Throw e => if user x then [EHandleError e w] else []
             | Ok _ => []
             end
          ++ (if deep x then ETraverse (got out) :: reads2 else [])).
  unfold Watcher_evaluate. rewrite Hget. simpl.
  split_and!; try done.
  rewrite Hl. by rewrite <- !app_assoc.
Qed.



Lemma Watcher_get_protocol_witness :
  ∃ st', Watcher_get 3 1 (ex_flipped env_dev None)
           = Some (st', Ok (VNum (Int 2))) ∧
         log st' = log (ex_flipped env_dev None)
                   ++ [EPushTarget (Some 1); EGetter 1; EAddDep 1 1; EAddDep 1 3;
                       EPopTarget; ECleanupDeps 1] ∧
         target st' = None.
Proof.
  set (st := ex_flipped env_dev None).
  set (x := watcher_of 1 st).
  set (run := run_getter 3 (getter x) (emit (EGetter 1) (pushTarget (Some 1) st))).
  assert (watchers st !! 1 = Some x) as Hx by (vm_compute; reflexivity).
  assert (run = Some (after run st, Ok (VNum (Int 2)))) as H1
    by (vm_compute; reflexivity).
  assert ((if deep x
           then traverse 3 (got (Ok (VNum (Int 2))))
                  (caught x 1 (Ok (VNum (Int 2))) (after run st))
           else Some (caught x 1 (Ok (VNum (Int 2))) (after run st)))
          = Some (after run st)) as H2 by (vm_compute; reflexivity).
  destruct (Watcher_get_protocol 3 1 x st _ _ _ Hx H1 H2)
    as (st' & reads1 & reads2 & Hget & _ & Hl & _ & _ & _ & Ht).
  exists st'. split; [exact Hget|].
  assert (st' = after (Watcher_get 3 1 st) st) as ->.
  { rewrite Hget. reflexivity. }
  split; vm_compute; reflexivity.
Defined.

(** A deep watcher whose getter returns a self-referencing object without
    Observer: the getter returns, the [traverse] of the [finally] block does
    not, whatever the depth it is given, and [get] never reaches the
    [popTarget()] and [cleanupDeps()] that follow it: the watcher stays the
    current target. *)
Lemma Watcher_get_deep_traverse_diverges :
  deep (watcher_of 1 ex_deep_cycle) = true ∧
  (∀ fuel,
     run_getter fuel (getter (watcher_of 1 ex_deep_cycle))
       (emit (EGetter 1) (pushTarget (Some 1) ex_deep_cycle))
     = Some (emit (EGetter 1) (pushTarget (Some 1) ex_deep_cycle), Ok (VRef 0))) ∧
  target (emit (EGetter 1) (pushTarget (Some 1) ex_deep_cycle)) = Some 1 ∧
  (∀ fuel, traverse fuel (VRef 0)
             (emit (EGetter 1) (pushTarget (Some 1) ex_deep_cycle)) = None) ∧
  ∀ fuel, Watcher_get fuel 1 ex_deep_cycle = None.
Proof.
  set (st := ex_deep_cycle).
  set (st1 := emit (EGetter 1) (pushTarget (Some 1) st)).
  assert (watchers st !! 1 = Some (watcher_of 1 st)) as Hx
    by (vm_compute; reflexivity).
  assert (deep (watcher_of 1 st) = true) as Hd by (vm_compute; reflexivity).
  assert (getter (watcher_of 1 st) = Return (VRef 0)) as Hg
    by (vm_compute; reflexivity).
  assert (∀ fuel, run_getter fuel (getter (watcher_of 1 st)) st1
                  = Some (st1, Ok (VRef 0))) as Hrun.
  { intros fuel. rewrite Hg. by destruct fuel. }
  assert (∀ fuel, traverse fuel (VRef 0) st1 = None) as Htr.
  { intros fuel. unfold traverse.
    rewrite (_traverse_data_loop 0 (object [(KName "self", plain (VRef 0))])
               (KName "self") (plain (VRef 0)) true);
      first [done | vm_compute; reflexivity]. }
  split_and!; [exact Hd|exact Hrun|reflexivity|exact Htr|].
  intros fuel.
  apply (Watcher_get_traverse_none fuel 1 _ st st1 (Ok (VRef 0)) Hx Hd (Hrun fuel)).
  apply Htr.
Qed.

Lemma Watcher_update_lazy_evaluate_witness :
  ∃ st' x',
    Watcher_evaluate 3 1 (ex_watched env_dev (Some opts_lazy)) = Some (st', Ok ()) ∧
    watchers st' !! 1 = Some x' ∧
    value x' = VNum (Int 1) ∧ dirty x' = false.
Proof.
  set (st := ex_watched env_dev (Some opts_lazy)).
  assert (watchers st !! 1 = Some (watcher_of 1 st)) as Hx
    by (vm_compute; reflexivity).
  destruct (Watcher_update_lazy_evaluate 3 1 _ st Hx) as (_ & _ & He).
  assert (Watcher_get 3 1 st
          = Some (after (Watcher_get 3 1 st) st, Ok (VNum (Int 1)))) as E
    by (vm_compute; reflexivity).
  destruct (He _ _ E) as (st' & x' & evs & E' & Hx' & Hv & Hd & _).
  exists st', x'. by split_and!.
Defined.

Lemma Watcher_evaluate_getter_throws_witness :
  ∃ st' x',
    Watcher_evaluate 3 1 ex_throwing = Some (st', Throw (VStr "boom")) ∧
    watchers st' !! 1 = Some x' ∧
    value x' = VUndef ∧ dirty x' = true ∧
    targetStack st' = [].
Proof.
  set (x := watcher_of 1 ex_throwing).
  set (run := run_getter 3 (getter x)
                (emit (EGetter 1) (pushTarget (Some 1) ex_throwing))).
  assert (watchers ex_throwing !! 1 = Some x) as Hx by (vm_compute; reflexivity).
  assert (run = Some (after run ex_throwing, Throw (VStr "boom"))) as H1
    by (vm_compute; reflexivity).
  destruct (Watcher_evaluate_getter_throws 3 1 x ex_throwing _ _ Hx
              eq_refl eq_refl (Nat.lt_0_succ 2) H1)
    as (st' & x' & evs & E & Hx' & Hv & Hd & Hs & _).
  exists st', x'. by split_and!.
Defined.

(** C2 (amended).  [notify] iterates over a copy of the subscriber list
    taken when it is called, which is sorted by ascending watcher id when
    the build is not a production build and [config.async] is off, and is
    the list as it stands otherwise; [update] is called on the elements of
    the copy in order, on all of them when no call throws, and up to the
    throwing one otherwise. *)
Theorem Dep_notify_snapshot_order fuel d st st' r :
  Dep_notify fuel d st = Some (st', r) →
  ∃ evs,
    log st' = log st ++ ENotify d :: evs ∧
    updates evs `prefix_of` snapshot d st ∧
    (r = Ok () → updates evs = snapshot d st) ∧
    snapshot d st =
      (if negb (production (env st)) && negb (config_async (env st))
       then sort_by_id (subs_of d st) else subs_of d st) ∧
    Sorted le (sort_by_id (subs_of d st)) ∧
    sort_by_id (subs_of d st) ≡ₚ subs_of d st.
Proof.
  intros H. destruct (Dep_notify_log _ _ _ _ _ H) as (evs & Hl & _ & Hp & Hok).
  exists evs. split_and!; try done; apply sort_by_id_sorted.
Qed.

Lemma Dep_notify_snapshot_order_witness :
  ∃ st' evs,
    Dep_notify 1 0 (ex_two_lazy env_dev_sync) = Some (st', Ok ()) ∧
    log st' = ENotify 0 :: evs ∧ updates evs = [1; 2].
Proof.
  set (st := ex_two_lazy env_dev_sync).
  set (st' := after (Dep_notify 1 0 st) st).
  assert (Dep_notify 1 0 st = Some (st', Ok ())) as E.
  { vm_compute. reflexivity. }
  destruct (Dep_notify_snapshot_order 1 0 st st' _ E)
    as (evs & Hl & _ & Hok & _).
  exists st', evs. split_and!; [exact E|exact Hl|].
  rewrite Hok by done. vm_compute. reflexivity.
Defined.

(** In a production build with [config.async] off, [notify] calls [update]
    on watcher 2 before watcher 1: the copy is not sorted. *)
Lemma Dep_notify_production_not_sorted :
  config_async (env (ex_two_lazy env_production_sync)) = false ∧
  ∃ st', Dep_notify 1 0 (ex_two_lazy env_production_sync) = Some (st', Ok ()) ∧
         updates (since (ex_two_lazy env_production_sync) st') = [2; 1] ∧
         sort_by_id (subs_of 0 (ex_two_lazy env_production_sync)) = [1; 2].
Proof.
  split; [reflexivity|]. eexists. split_and!.
  - vm_compute. reflexivity.
  - vm_compute. reflexivity.
  - vm_compute. reflexivity.
Qed.

(** C6 (amended).  [observe] is idempotent: a value that carries an
    Observer gets that Observer back and nothing is created, and an Observer
    that [observe] returns is carried by the value from then on.  [observe]
    returns nothing when the value is not an object, is a VNode, or carries
    no Observer and is not a plain object or array or is not extensible. *)
Theorem observe_idempotent n v b st :
  (∀ l o ob, v = VRef l → heap st !! l = Some o → o_ob o = Some ob →
             isVNode v st = false →
             observe (S n) v b st =
               Some (if b then count_root ob st else st, Ok (Some ob))) ∧
  (∀ fuel b0 st0 ob,
     observe fuel v b0 st0 = Some (st, Ok (Some ob)) →
     ob_of v st = Some ob ∧
     observe (S n) v b st =
       Some (if b then count_root ob st else st, Ok (Some ob))) ∧
  (isObject v st = false ∨ isVNode v st = true ∨
   (ob_of v st = None ∧
    ∀ o, obj_of v st = Some o →
         is_array o || is_plain o = false ∨ is_extensible o = false) →
   observe (S n) v b st = Some (st, Ok None)).
Proof.
  split_and!.
  - intros l o ob -> Ho Hob Hv. by eapply observe_existing.
  - intros fuel b0 st0 ob H.
    assert (∃ l, v = VRef l) as [l ->].
    { destruct fuel; [done|]. destruct v; simpl in H; try done. eauto. }
    destruct (observe_marks _ _ _ _ _ _ H) as (o' & Ho' & Hob' & Hv').
    split.
    + unfold ob_of. simpl. by rewrite Ho'.
    + by eapply observe_existing.
  - apply observe_nothing.
Qed.

Lemma observe_idempotent_witness :
  ob_of (VRef 0) (ex_observed env_dev) = Some 0 ∧
  observe 1 (VRef 0) false (ex_observed env_dev)
    = Some (ex_observed env_dev, Ok (Some 0)).
Proof.
  destruct (observe_idempotent 0 (VRef 0) false (ex_observed env_dev))
    as (_ & H & _).
  apply (H 3 false (empty_world env_dev ex_heap) 0).
  vm_compute. reflexivity.
Defined.

(** An object that was observed and then frozen is not extensible, and
    [observe] returns its Observer. *)
Lemma observe_frozen_returns_observer :
  isFrozen (VRef 0) (freeze 0 (ex_observed env_dev)) = true ∧
  (∀ o, obj_of (VRef 0) (freeze 0 (ex_observed env_dev)) = Some o →
        is_extensible o = false) ∧
  observe 1 (VRef 0) false (freeze 0 (ex_observed env_dev))
    = Some (freeze 0 (ex_observed env_dev), Ok (Some 0)).
Proof.
  split_and!.
  - vm_compute. reflexivity.
  - intros o Ho. vm_compute in Ho. by injection Ho as <-.
  - vm_compute. reflexivity.
Qed.

(** C9 (amended).  On a key that is not an own property of a target that is
    not an array, [del] deletes nothing and notifies no Dep.  Outside the
    array branch, the own properties of the target other than [key] are as
    before.  In the array branch, [splice(key, 1)] leaves the elements below
    [key] as they are and moves the ones above it one index down. *)
Theorem del_frame fuel target key o st st' r :
  heap st !! target = Some o →
  del fuel target key st = Some (st', r) →
  if is_array o && isValidArrayIndex key then
    r = Ok () →
    ∃ o', heap st' !! target = Some o' ∧
          o_props o' = o_props o ∧
          (∀ j, j < index key → o_elems o' !! j = o_elems o !! j) ∧
          (∀ j, index key ≤ j → o_elems o' !! j = o_elems o !! S j)
  else
    ∃ o', heap st' !! target = Some o' ∧
          (∀ k, k ≠ key → own_prop o' k = own_prop o k) ∧
          (hasOwn o key = false →
           heap st' = heap st ∧ r = Ok () ∧ notifications (since st st') = []).
Proof.
  intros Ho H. destruct (is_array o && isValidArrayIndex key) eqn:Hbr.
  - intros ->. destruct (del_array _ _ _ _ _ _ Ho Hbr H) as (o' & Ho' & ->).
    eexists. split; [exact Ho'|]. simpl. split_and!; [done| |].
    + intros j Hj. destruct (decide (index key ≤ length (o_elems o))).
      * rewrite lookup_app_l by (rewrite length_take; lia).
        by rewrite lookup_take_lt.
      * rewrite take_ge, drop_ge by lia. by rewrite app_nil_r.
    + intros j Hj. destruct (decide (index key ≤ length (o_elems o))).
      * rewrite lookup_app_r by (rewrite length_take; lia).
        rewrite length_take, lookup_drop. f_equal. lia.
      * rewrite take_ge, drop_ge by lia. rewrite app_nil_r.
        rewrite !lookup_ge_None_2; [done|lia|lia].
  - destruct (del_object _ _ _ _ _ _ _ Ho Hbr H) as (o' & Ho' & Hshape & Hnone).
    exists o'. split_and!; [done| |done].
    intros k Hk. destruct Hshape as [->| ->]; [done|].
    by apply own_prop_assoc_del.
Qed.

Lemma del_frame_witness :
  ∃ st' o',
    del 3 0 (KName "a") (ex_observed env_dev) = Some (st', Ok ()) ∧
    heap st' !! 0 = Some o' ∧
    own_prop o' (KName "b")
      = Some {| p_desc := PAccessor (Some (FReactive 3)) (Some (FReactive 3));
                p_enumerable := true; p_configurable := true |} ∧
    own_prop o' (KName "a") = None.
Proof.
  set (st := ex_observed env_dev).
  set (st' := after (del 3 0 (KName "a") st) st).
  assert (del 3 0 (KName "a") st = Some (st', Ok ())) as E
    by (vm_compute; reflexivity).
  eassert (heap st !! 0 = Some _) as Ho by (vm_compute; reflexivity).
  pose proof (del_frame 3 0 (KName "a") _ st st' _ Ho E) as H.
  simpl in H. destruct H as (o' & Ho' & Hk & _).
  exists st', o'. split_and!; [exact E|exact Ho'| |].
  - rewrite Hk by done. vm_compute. reflexivity.
  - vm_compute in Ho'. injection Ho' as <-. vm_compute. reflexivity.
Defined.

(** [del] of index 0 of [[10, 20, 30]] changes the element at index 1. *)
Lemma del_array_moves_other_elements :
  ∃ st' o o',
    del 1 0 (KIndex 0) ex_array = Some (st', Ok ()) ∧
    heap ex_array !! 0 = Some o ∧ heap st' !! 0 = Some o' ∧
    own_prop o (KIndex 1) = Some (plain (VNum (Int 20))) ∧
    own_prop o' (KIndex 1) = Some (plain (VNum (Int 30))).
Proof.
  eexists _, _, _. split_and!; vm_compute; reflexivity.
Qed.

(** C4 (amended).  [reactiveSetter] does nothing (no store, no re-observe,
    no notification) when the new value is strictly equal to the old one or
    both are NaN, and nothing but the development-only [customSetter] call
    when the property has a pre-existing getter and no setter.  Otherwise it
    stores the new value, through the pre-existing setter or in the local
    slot, sets [childOb] to [observe(newVal)] unless the property is shallow,
    in which case nothing is observed and [childOb] is false, and calls
    [dep.notify()] once. *)
Theorem reactiveSetter_cases fuel d c newVal st st' r :
  closures st !! d = Some c → d < dep_uid st →
  reactiveSetter (S fuel) d newVal st = Some (st', r) →
  ∃ st0 old,
    old_value fuel c st = Some (st0, old) ∧
    if strict_eq newVal old || (self_neq newVal && self_neq old) then
      r = Ok () ∧ st' = st0 ∧ (r_getter c = None → st' = st) ∧
      same_store st st' ∧ notifications (since st st') = []
    else if bool_decide (is_Some (r_getter c))
            && negb (bool_decide (is_Some (r_setter c))) then
      r = Ok () ∧ st' = custom d c st0 ∧
      same_store st st' ∧ notifications (since st st') = []
    else
      ∃ st2 r2,
        store fuel d c newVal (custom d c st0) = Some (st2, r2) ∧
        match r2 with
        | Throw e => st' = st2 ∧ r = Throw e
        | Ok _ =>
          ∃ st3 childOb,
            (if r_shallow c then st3 = st2 ∧ childOb = None
             else observe fuel newVal false st2 = Some (st3, Ok childOb)) ∧
            Dep_notify fuel d (upd_closure d (set_r_childOb childOb) st3)
              = Some (st', r) ∧
            match r_setter c with
            | Some (FReactive _) => True
            | s =>
              notifications (since st st') = [d] ∧
              ∃ c', closures st' !! d = Some c' ∧
                    r_childOb c' = childOb ∧
                    r_val c' = match s with
                               | Some _ => r_val c
                               | None => newVal
                               end ∧
                    ∀ cell, s = Some (FUser cell) →
                            cells st' !! cell = Some newVal
            end
        end.
Proof.
  intros Hc Hd H.
  destruct (reactiveSetter_inv _ _ _ _ _ _ _ Hc H) as (st0 & old & Hold & Hrest).
  exists st0, old. split; [exact Hold|].
  pose proof (old_value_reads _ _ _ _ _ Hold) as R0.
  pose proof (reads_same_store _ _ R0) as S0.
  destruct (reads_log _ _ R0) as (evs0 & Hl0 & Hf0).
  apply addDeps_quiet in Hf0.
  destruct (strict_eq newVal old || _).
  { destruct Hrest as [-> ->]. split_and!; try done.
    - intros Hg. unfold old_value in Hold. rewrite Hg in Hold.
      by injection Hold as <- _.
    - rewrite (since_app _ _ _ Hl0). by apply quiet_notifications. }
  pose proof (custom_same_store d c st0) as S1.
  destruct (custom_log d c st0) as (evs1 & Hl1 & Hq1).
  assert (log (custom d c st0) = log st ++ (evs0 ++ evs1)) as Hl01.
  { by rewrite Hl1, Hl0, <- app_assoc. }
  assert (Forall (λ e, quiet e = true) (evs0 ++ evs1)) as Hq01.
  { by apply Forall_app. }
  destruct (bool_decide (is_Some (r_getter c)) && _).
  { destruct Hrest as [-> ->]. split_and!; try done.
    - by eapply same_store_trans.
    - rewrite (since_app _ _ _ Hl01). by apply quiet_notifications. }
  destruct Hrest as (st2 & r2 & Hstore & Hrest).
  exists st2, r2. split; [exact Hstore|].
  destruct r2 as [[]|e]; [|exact Hrest].
  destruct Hrest as (st3 & r3 & Hobs & Hrest).
  assert (∃ childOb, r3 = Ok childOb) as [childOb ->].
  { destruct (r_shallow c); [injection Hobs as _ <-; eauto|].
    by eapply observe_no_throw. }
  exists st3, childOb.
  assert (if r_shallow c then st3 = st2 ∧ childOb = None
          else observe fuel newVal false st2 = Some (st3, Ok childOb)) as Hobs'.
  { destruct (r_shallow c); [by injection Hobs as <- <-|done]. }
  split; [exact Hobs'|]. split; [exact Hrest|].
  assert (closures (custom d c st0) !! d = Some c) as Hc1.
  { by rewrite (ss_closures _ _ S1), (ss_closures _ _ S0). }
  assert (dep_uid (custom d c st0) = dep_uid st) as Hu1.
  { by rewrite (ss_dep_uid _ _ S1), (ss_dep_uid _ _ S0). }
  unfold store in Hstore.
  destruct (r_setter c) as [[cell|d']|].
  - destruct fuel as [|n]; [done|]. simpl in Hstore. injection Hstore as <-.
    set (st2 := set_cells (<[cell:=newVal]> (cells (custom d c st0))) (custom d c st0)) in *.
    assert (closures st2 !! d = Some c) as Hc2 by exact Hc1.
    assert (d < dep_uid st2) as Hd2 by (unfold st2; simpl; lia).
    assert (log st2 = log st ++ evs0 ++ evs1) as Hl2 by exact Hl01.
    destruct (setter_tail _ _ _ _ _ _ _ _ _ _ _ _ Hc2 Hd2 Hl2 Hq01 Hobs' Hrest)
      as ((evs & Hl & Hn) & Hcl & Hcells).
    split; [by rewrite (since_app _ _ _ Hl)|].
    eexists. split; [exact Hcl|]. split_and!; try done.
    intros cell' [= <-]. rewrite Hcells. unfold st2. simpl.
    apply lookup_insert_eq.
  - done.
  - injection Hstore as <-.
    set (st2 := upd_closure d (set_r_val newVal) (custom d c st0)) in *.
    destruct (upd_closure_frame d (set_r_val newVal) (custom d c st0))
      as (Hlu & _ & Huu).
    assert (closures st2 !! d = Some (set_r_val newVal c)) as Hc2
      by (by apply upd_closure_lookup).
    assert (d < dep_uid st2) as Hd2 by (unfold st2; rewrite Huu; lia).
    assert (log st2 = log st ++ evs0 ++ evs1) as Hl2
      by (unfold st2; by rewrite Hlu).
    destruct (setter_tail _ _ _ _ _ _ _ _ _ _ _ _ Hc2 Hd2 Hl2 Hq01 Hobs' Hrest)
      as ((evs & Hl & Hn) & Hcl & Hcells).
    split; [by rewrite (since_app _ _ _ Hl)|].
    eexists. split; [exact Hcl|]. by split_and!.
Qed.

Lemma reactiveSetter_cases_witness :
  ∃ st' c',
    reactiveSetter 3 1 (VBool false) (ex_watched env_dev None) = Some (st', Ok ()) ∧
    notifications (since (ex_watched env_dev None) st') = [1] ∧
    closures st' !! 1 = Some c' ∧ r_val c' = VBool false.
Proof.
  set (st := ex_watched env_dev None).
  set (st' := after (reactiveSetter 3 1 (VBool false) st) st).
  assert (closures st !! 1 = Some (closure_of 1 st)) as Hc
    by (vm_compute; reflexivity).
  assert (1 < dep_uid st) as Hd by (vm_compute; lia).
  assert (reactiveSetter 3 1 (VBool false) st = Some (st', Ok ())) as E
    by (vm_compute; reflexivity).
  destruct (reactiveSetter_cases 2 1 _ _ st st' _ Hc Hd E)
    as (st0 & old & Hold & H).
  vm_compute in Hold. injection Hold as <- <-.
  change (strict_eq (VBool false) (VBool true)
          || self_neq (VBool false) && self_neq (VBool true)) with false in H.
  change (bool_decide (is_Some (r_getter (closure_of 1 st)))) with false in H.
  cbn [andb] in H.
  destruct H as (st2 & r2 & Hstore & H).
  vm_compute in Hstore. injection Hstore as <- <-.
  destruct H as (st3 & childOb & _ & _ & H).
  change (r_setter (closure_of 1 st)) with (@None Fn) in H.
  destruct H as (Hn & c' & Hc' & _ & Hv & _).
  exists st', c'. by split_and!.
Defined.

(** A shallow reactive property: the setter stores an observable object
    without observing it. *)
Lemma reactiveSetter_shallow_does_not_observe :
  r_shallow (closure_of 0 ex_shallow) = true ∧
  ∃ st' c',
    reactiveSetter 3 0 (VRef 1) ex_shallow = Some (st', Ok ()) ∧
    closures st' !! 0 = Some c' ∧
    r_val c' = VRef 1 ∧ r_childOb c' = None ∧
    ob_of (VRef 1) st' = None ∧
    ∃ st'' ob, observe 3 (VRef 1) false st' = Some (st'', Ok (Some ob)).
Proof.
  split; [reflexivity|]. eexists _, _. split_and!.
  - vm_compute. reflexivity.
  - vm_compute. reflexivity.
  - reflexivity.
  - reflexivity.
  - vm_compute. reflexivity.
  - eexists _, _. vm_compute. reflexivity.
Qed.

(** C5 (amended).  [set(target, key, val)]: on a valid index of an array the
    length grows to cover the index and the element is put in by [splice],
    so that the interception of an observed array notifies.  Otherwise, when
    [key in target] holds (for an own or an inherited key) and [key] is not
    a key of [Object.prototype], the value is assigned directly, through the
    setter of the property if it is an accessor.  Otherwise nothing happens
    but a warning when the target is a Vue instance or root data; a target
    without Observer gets a plain assignment, which notifies nobody when the
    key is new; and a target with Observer gets [defineReactive] on
    [ob.value] followed by [ob.dep.notify()]. *)
Theorem set_branches fuel target key val o st st' r :
  heap st !! target = Some o →
  set fuel target key val st = Some (st', r) →
  if is_array o && isValidArrayIndex key then
    assoc (KName "length") (o_props o) = None → r = Ok val →
    ∃ o', heap st' !! target = Some o' ∧
          o_elems o' = splice (index key) 1 [val] (grow (index key) (o_elems o)) ∧
          o_elems o' !! index key = Some val ∧
          (∀ j, j ≠ index key → j < length (o_elems o) →
                o_elems o' !! j = o_elems o !! j) ∧
          notifications (since st st')
            = match o_ob o with Some d => [d] | None => [] end
  else if has_in o key && negb (in_Object_prototype key) then
    returning val (prop_set fuel target key val st) = Some (st', r) ∧
    (∀ p g s, own_prop o key = Some p → p_desc p = PAccessor g (Some s) →
              returning val (call_setter fuel s val st) = Some (st', r))
  else if o_isVue o || is_root_data (o_ob o) st then
    st' = warn st ∧ r = Ok val
  else
    match o_ob o with
    | None =>
      returning val (prop_set fuel target key val st) = Some (st', r) ∧
      (hasOwn o key = false → is_extensible o = true →
       r = Ok val ∧
       st' = upd_obj target
               (λ o, set_o_props (o_props o ++ [(key, data_prop val false)]) o) st ∧
       notifications (since st st') = [])
    | Some d =>
      ∀ x, observers st !! d = Some x →
        (∃ st1 r1,
           defineReactive fuel (ob_value x) key (Some val) false false st
             = Some (st1, r1) ∧
           match r1 with
           | Throw e => st' = st1 ∧ r = Throw e
           | Ok _ => returning val (Dep_notify fuel d st1) = Some (st', r)
           end) ∧
        (ob_value x = target → hasOwn o key = false → r = Ok val →
         notifications (since st st') = [d] ∧
         ∃ o' c',
           heap st' !! target = Some o' ∧
           assoc key (o_props o') = Some (reactive_property (dep_uid st)) ∧
           closures st' !! dep_uid st = Some c' ∧
           r_val c' = val ∧ r_getter c' = None ∧ r_setter c' = None ∧
           r_shallow c' = false)
    end.
Proof.
  intros Ho H.
  destruct (is_array o && isValidArrayIndex key) eqn:Hbr.
  { intros Hlen ->.
    destruct (set_array _ _ _ _ _ _ _ Ho Hbr Hlen H) as (o' & Ho' & Hes & Hn).
    exists o'. split_and!; try done.
    - rewrite Hes. apply splice_grow_lookup.
    - intros j Hj Hlt. rewrite Hes. by apply splice_grow_lookup. }
  destruct (has_in o key && negb (in_Object_prototype key)) eqn:Hin.
  { assert (returning val (prop_set fuel target key val st) = Some (st', r)) as E.
    { unfold set in H. by rewrite Ho, Hbr, Hin in H. }
    split; [exact E|]. intros p g s Hp Hd.
    unfold prop_set in E. by rewrite Ho, Hp, Hd in E. }
  destruct (o_isVue o || is_root_data (o_ob o) st) eqn:Hvue.
  { unfold set in H. rewrite Ho, Hbr, Hin, Hvue in H. by injection H as <- <-. }
  destruct (o_ob o) as [d|] eqn:Hob; rewrite <- Hob in Hvue.
  - intros x Hx. split.
    + unfold set in H. rewrite Ho, Hbr, Hin, Hvue, Hob, Hx in H.
      destruct (defineReactive fuel (ob_value x) key (Some val) false false st)
        as [[st1 r1]|]; [|done].
      cbn [mbind option_bind] in H. exists st1, r1. split; [done|].
      destruct r1 as [[]|e]; [done|by injection H as <- <-].
    + intros Hv Hown ->. by eapply set_define.
  - assert (returning val (prop_set fuel target key val st) = Some (st', r)) as E.
    { unfold set in H. by rewrite Ho, Hbr, Hin, Hvue, Hob in H. }
    split; [exact E|]. intros Hown Hext.
    rewrite (prop_set_new _ _ _ _ _ _ Ho Hown Hext Hbr) in E.
    injection E as <- <-. split_and!; try done.
    unfold since, upd_obj. rewrite Ho. cbn [log set_heap]. by rewrite drop_ge.
Qed.

Lemma set_branches_witness :
  ∃ st' o' c',
    set 3 0 (KName "c") (VNum (Int 3)) (ex_observed env_dev)
      = Some (st', Ok (VNum (Int 3))) ∧
    notifications (since (ex_observed env_dev) st') = [0] ∧
    heap st' !! 0 = Some o' ∧
    assoc (KName "c") (o_props o') = Some (reactive_property 4) ∧
    closures st' !! 4 = Some c' ∧ r_val c' = VNum (Int 3).
Proof.
  set (st := ex_observed env_dev).
  set (st' := after (set 3 0 (KName "c") (VNum (Int 3)) st) st).
  assert (heap st !! 0 = Some (object_of 0 st)) as Ho by (vm_compute; reflexivity).
  assert (set 3 0 (KName "c") (VNum (Int 3)) st = Some (st', Ok (VNum (Int 3))))
    as E by (vm_compute; reflexivity).
  pose proof (set_branches 3 0 (KName "c") _ _ st st' _ Ho E) as H.
  change (is_array (object_of 0 st) && isValidArrayIndex (KName "c"))
    with false in H.
  change (has_in (object_of 0 st) (KName "c")
          && negb (in_Object_prototype (KName "c"))) with false in H.
  change (o_isVue (object_of 0 st) || is_root_data (o_ob (object_of 0 st)) st)
    with false in H.
  change (o_ob (object_of 0 st)) with (Some 0) in H.
  cbv iota in H.
  destruct (H {| ob_value := 0; vmCount := 0 |}) as [_ Hfacts].
  { vm_compute. reflexivity. }
  destruct Hfacts as (Hn & o' & c' & Ho' & Hk & Hc & Hv & _); [done..|].
  exists st', o', c'. by split_and!.
Defined.

(** A key found on the prototype chain of an observed object: [set] assigns
    it as a plain data property and notifies nobody. *)
Lemma set_inherited_key_assigns_plainly :
  hasOwn (object_of 0 ex_inherit) (KName "foo") = false ∧
  o_ob (object_of 0 ex_inherit) = Some 0 ∧
  o_isVue (object_of 0 ex_inherit)
    || is_root_data (o_ob (object_of 0 ex_inherit)) ex_inherit = false ∧
  ∃ st',
    set 3 0 (KName "foo") (VNum (Int 2)) ex_inherit
      = Some (st', Ok (VNum (Int 2))) ∧
    own_prop (object_of 0 st') (KName "foo") = Some (plain (VNum (Int 2))) ∧
    notifications (since ex_inherit st') = [] ∧
    closures st' = closures ex_inherit.
Proof.
  split_and!; try (vm_compute; reflexivity).
  eexists. split_and!; vm_compute; reflexivity.
Qed.




(* ===================================================================== *)
(** * Further properties of the code *)
(* ===================================================================== *)

(** ** dep.js *)

(** X1 (pushTarget, popTarget): a [popTarget()] after a [pushTarget(t)]
    leaves the stack as it was before the two calls, and makes the entry on
    top of that stack the current target; on an empty stack the current
    target becomes undefined, whatever it was before the push. *)
Theorem popTarget_pushTarget t st :
  targetStack (popTarget (pushTarget t st)) = targetStack st ∧
  target (popTarget (pushTarget t st)) = mjoin (last (targetStack st)) ∧
  (targetStack st = [] → target (popTarget (pushTarget t st)) = None) ∧
  log (popTarget (pushTarget t st)) = log st ++ [EPushTarget t; EPopTarget].
Proof.
  unfold popTarget, pushTarget. simpl. rewrite removelast_last.
  split_and!; [done|done| |by rewrite <- app_assoc].
  by intros ->.
Qed.

(** X2 (Dep.addSub, Dep.removeSub, remove): for a watcher that is not yet in
    the subscriber list of a Dep, [removeSub] after [addSub] gives back the
    list of every Dep. *)
Theorem Dep_removeSub_addSub d w st :
  w ∉ subs_of d st →
  ∀ d', subs_of d' (Dep_removeSub d w (Dep_addSub d w st)) = subs_of d' st.
Proof.
  intros Hn d'. rewrite subs_of_removeSub. case_decide as E.
  - subst d'. rewrite subs_of_addSub, decide_True by done.
    by apply remove_snoc_absent.
  - by rewrite subs_of_addSub, decide_False.
Qed.

Lemma Dep_removeSub_addSub_witness :
  (3 ∉ subs_of 0 (ex_two_lazy env_dev)) ∧
  subs_of 0 (Dep_removeSub 0 3 (Dep_addSub 0 3 (ex_two_lazy env_dev))) = [2; 1].
Proof.
  assert (3 ∉ subs_of 0 (ex_two_lazy env_dev)) as H by by_compute.
  split; [exact H|].
  rewrite (Dep_removeSub_addSub 0 3 (ex_two_lazy env_dev) H 0).
  vm_compute. reflexivity.
Defined.

(** X3 (Dep.removeSub, remove): [removeSub] takes one occurrence of the
    watcher out of the list of its Dep, the first one, and nothing else: a
    watcher that was added twice is still subscribed after one [removeSub],
    a watcher that is not in the list leaves it as it is, and the other
    watchers and the other Deps keep their entries. *)
Theorem Dep_removeSub_once d w st :
  (∀ pre post, subs_of d st = pre ++ w :: post → w ∉ pre →
     subs_of d (Dep_removeSub d w st) = pre ++ post) ∧
  (w ∉ subs_of d st → subs_of d (Dep_removeSub d w st) = subs_of d st) ∧
  (∀ w', w' ≠ w →
     count_occ Nat.eq_dec (subs_of d (Dep_removeSub d w st)) w'
     = count_occ Nat.eq_dec (subs_of d st) w') ∧
  (∀ d', d' ≠ d → subs_of d' (Dep_removeSub d w st) = subs_of d' st).
Proof.
  split_and!.
  - intros pre post E Hn. rewrite subs_of_removeSub, decide_True by done.
    rewrite E. clear E. induction pre as [|a pre IH]; simpl.
    + by rewrite decide_True.
    + rewrite decide_False.
      * rewrite IH; [done|]. intros H. apply Hn. by right.
      * intros ->. apply Hn. left.
  - intros Hn. rewrite subs_of_removeSub, decide_True by done.
    by apply remove_absent.
  - intros w' Hne. rewrite subs_of_removeSub, decide_True by done.
    apply count_occ_remove_ne. congruence.
  - intros d' Hne. rewrite subs_of_removeSub, decide_False; [done|congruence].
Qed.

(** ** watcher.js *)

(** X4 (Watcher constructor): a watcher that the constructor returns is
    tracked, provided no subscriber list mentions the id it is given: its
    [deps] has no duplicates and agrees with [depIds], [newDeps] and
    [newDepIds] are empty, and the watcher is exactly once in the list of
    every Dep of [deps] and in no other list.  This holds for a lazy
    watcher, which has no dependency yet, and for one that is evaluated by
    the constructor. *)
Theorem Watcher_new_tracked fuel v e opts b st st' id :
  unsubscribed (S (watcher_uid st)) st →
  Watcher_new fuel v e opts b st = Some (st', Ok id) →
  id = S (watcher_uid st) ∧ tracked id st'.
Proof.
  intros Hfresh H. unfold Watcher_new in H.
  set (w := S (watcher_uid st)) in *.
  set (st0 := upd_vm v _ st) in H.
  set (x := {| vm := v; deps := [] |}) in H.
  set (st1 := set_watchers (<[w:=x]> (watchers st0)) (set_watcher_uid w st0)) in H.
  assert (tracked w st1) as Ht1.
  { exists x. split_and!.
    - simpl. apply lookup_insert_eq.
    - apply NoDup_nil_2.
    - intros d. simpl. set_solver.
    - done.
    - done.
    - intros d. rewrite decide_False by set_solver.
      apply count_occ_absent.
      assert (subs_of d st1 = subs_of d st) as ->; [|apply Hfresh].
      unfold subs_of, st1, st0. simpl. by rewrite (proj1 (upd_vm_frame _ _ _)). }
  destruct (lazy x).
  { injection H as <- <-. by split. }
  destruct (Watcher_get fuel w st1) as [[st2 r]|] eqn:E; [|done]. simpl in H.
  destruct r as [val|err]; [|done]. injection H as <- <-. split; [done|].
  apply tracked_upd_watcher; [done|]. by eapply Watcher_get_tracked.
Qed.

Lemma Watcher_new_tracked_witness :
  unsubscribed 1 (ex_component env_dev) ∧
  tracked 1 ex_owned ∧
  deps (watcher_of 1 ex_owned) = [1; 2].
Proof.
  assert (unsubscribed 1 (ex_component env_dev)) as Hf.
  { apply unsubscribed_intro. by_compute. }
  split; [exact Hf|]. split; [|vm_compute; reflexivity].
  assert (Watcher_new 3 0 ex_getter (Some opts_sync) true (ex_component env_dev)
          = Some (ex_owned, Ok 1)) as E.
  { vm_compute. reflexivity. }
  exact (proj2 (Watcher_new_tracked 3 0 ex_getter (Some opts_sync) true
                  (ex_component env_dev) ex_owned 1 Hf E)).
Defined.

(** X5 (Watcher.run): on an active watcher whose [get] returns [val], [run]
    calls the callback exactly when [val] is not strictly equal to the
    cached value, or is an object, or the watcher is deep.  The callback
    then gets [val] and the value that was cached before the call, and
    [val] is the cached value afterwards; otherwise [run] does nothing
    beyond [get], and the cached value stays. *)
Theorem Watcher_run_callback fuel w x st st1 val :
  watchers st !! w = Some x → active x = true →
  Watcher_get fuel w (emit (ERun w) st) = Some (st1, Ok val) →
  ∃ st' x', Watcher_run fuel w st = Some (st', Ok ()) ∧
    watchers st' !! w = Some x' ∧
    if negb (strict_eq val (value x)) || isObject val st1 || deep x
    then log st' = log st1 ++ [ECallback w val (value x)] ∧ value x' = val
    else st' = st1 ∧ value x' = value x.
Proof.
  intros Hx Hact E. unfold Watcher_run. cbn zeta.
  change (watchers (emit (ERun w) st)) with (watchers st). rewrite Hx, Hact, E.
  simpl.
  destruct (Watcher_get_fields fuel w w (emit (ERun w) st) st1 _ x Hx E)
    as (x1 & Hx1 & Hv & _ & _ & _ & Hd & _).
  rewrite Hx1, Hv, Hd.
  destruct (negb (strict_eq val (value x)) || isObject val st1 || deep x).
  - eexists _, (set_value val x1). split; [done|]. unfold upd_watcher.
    rewrite Hx1. simpl. by rewrite lookup_insert_eq.
  - by exists st1, x1.
Qed.

Lemma Watcher_run_callback_witness :
  ∃ st', Watcher_run 3 1 (ex_flipped env_dev None) = Some (st', Ok ()) ∧
         ECallback 1 (VNum (Int 2)) (VNum (Int 1)) ∈ log st' ∧
         value (watcher_of 1 st') = VNum (Int 2).
Proof.
  set (st := ex_flipped env_dev None).
  set (st1 := after (Watcher_get 3 1 (emit (ERun 1) st)) st).
  assert (watchers st !! 1 = Some (watcher_of 1 st)) as Hx
    by (vm_compute; reflexivity).
  assert (active (watcher_of 1 st) = true) as Ha by (vm_compute; reflexivity).
  assert (Watcher_get 3 1 (emit (ERun 1) st) = Some (st1, Ok (VNum (Int 2)))) as E
    by (vm_compute; reflexivity).
  destruct (Watcher_run_callback 3 1 _ st st1 _ Hx Ha E) as (st' & x' & R & Hx' & C).
  exists st'. split; [exact R|].
  assert (negb (strict_eq (VNum (Int 2)) (value (watcher_of 1 st)))
          || isObject (VNum (Int 2)) st1 || deep (watcher_of 1 st) = true) as Hc
    by (vm_compute; reflexivity).
  rewrite Hc in C. destruct C as [Hl Hv]. split.
  - rewrite Hl. apply elem_of_app. right. apply list_elem_of_singleton.
    vm_compute. reflexivity.
  - unfold watcher_of. rewrite Hx'. exact Hv.
Defined.



(** X7 (Watcher.teardown): tearing down an active, tracked watcher takes it
    out of every subscriber list and out of the watcher list of its
    component (unless that component is being destroyed), marks it
    inactive, keeps its [deps], and leaves the other watchers and their
    subscriptions alone; a second [teardown] changes nothing. *)
Theorem Watcher_teardown_unsubscribes w x st :
  tracked w st → watchers st !! w = Some x → active x = true →
  unsubscribed w (Watcher_teardown w st) ∧
  watchers (Watcher_teardown w st) !! w = Some (set_active false x) ∧
  (∀ w', w' ≠ w → keeps w' st (Watcher_teardown w st)) ∧
  (∀ c, vms st !! vm x = Some c →
     ∃ c', vms (Watcher_teardown w st) !! vm x = Some c' ∧
           _watchers c' = if _isBeingDestroyed c then _watchers c
                          else remove (_watchers c) w) ∧
  Watcher_teardown w (Watcher_teardown w st) = Watcher_teardown w st.
Proof.
  intros (x0 & Hx0 & Hnd & Hmem & _ & _ & Hcnt) Hx Hact.
  rewrite Hx in Hx0. injection Hx0 as <-.
  pose (st0 := match vms st !! vm x with
                | Some c =>
                  if _isBeingDestroyed c then st
                  else upd_vm (vm x)
                         (λ c, {| _watcher := _watcher c;
                                  _watchers := remove (_watchers c) w;
                                  _isBeingDestroyed := _isBeingDestroyed c |}) st
                | None => st
                end).
  pose (st2 := cleanup_loop w ∅ (deps x) st0).
  assert (Watcher_teardown w st = upd_watcher w (set_active false) st2) as ->.
  { unfold Watcher_teardown. rewrite Hx, Hact. by rewrite teardown_loop. }
  assert (subs st0 = subs st ∧ watchers st0 = watchers st) as [Hs0 Hw0].
  { unfold st0. destruct (vms st !! vm x) as [c|]; [|done].
    destruct (_isBeingDestroyed c); [done|].
    by destruct (upd_vm_frame (vm x)
      (λ c, {| _watcher := _watcher c; _watchers := remove (_watchers c) w;
               _isBeingDestroyed := _isBeingDestroyed c |}) st) as (-> & -> & _). }
  destruct (cleanup_loop_frame w ∅ (deps x) st0) as (Hw2 & _).
  fold st2 in Hw2.
  assert (watchers st2 !! w = Some x) as Hx2 by by rewrite Hw2, Hw0.
  assert (∀ d, subs_of d (upd_watcher w (set_active false) st2) = subs_of d st2)
    as Hsub.
  { intros d. unfold upd_watcher. by rewrite Hx2. }
  assert (watchers (upd_watcher w (set_active false) st2) !! w
          = Some (set_active false x)) as Hx3.
  { unfold upd_watcher. rewrite Hx2. simpl. apply lookup_insert_eq. }
  split_and!.
  - intros d. rewrite Hsub. apply count_occ_absent. unfold st2.
    rewrite cleanup_loop_count by done.
    assert (subs_of d st0 = subs_of d st) as -> by (unfold subs_of; by rewrite Hs0).
    rewrite Hcnt. repeat case_decide; try done.
    exfalso. apply H. split; [|set_solver]. by apply Hmem.
  - exact Hx3.
  - intros w' Hne. eapply keeps_trans with (st2 := st0).
    { split; [by rewrite Hw0|]. intros d. unfold subs_of. by rewrite Hs0. }
    eapply keeps_trans with (st2 := st2).
    { apply cleanup_loop_keeps. congruence. }
    unfold upd_watcher. rewrite Hx2. split; simpl; [|done].
    by rewrite lookup_insert_ne.
  - intros c Hc.
    assert (vms (upd_watcher w (set_active false) st2) = vms st0) as ->.
    { unfold upd_watcher. rewrite Hx2. simpl. unfold st2.
      clear. induction (deps x) as [|d ds IH]; [done|].
      unfold cleanup_loop. cbn [foldr]. by case_decide. }
    unfold st0. rewrite Hc. destruct (_isBeingDestroyed c); [by exists c|].
    unfold upd_vm. rewrite Hc. simpl. rewrite lookup_insert_eq. by eexists.
  - unfold Watcher_teardown. by rewrite Hx3.
Qed.

Lemma Watcher_teardown_unsubscribes_witness :
  tracked 1 ex_owned ∧
  subs_of 1 ex_owned = [1] ∧
  unsubscribed 1 (Watcher_teardown 1 ex_owned) ∧
  _watchers <$> vms (Watcher_teardown 1 ex_owned) !! 0 = Some [].
Proof.
  assert (tracked 1 ex_owned) as Ht.
  { eapply tracked_intro.
    - vm_compute. reflexivity.
    - by_compute.
    - by_compute.
    - reflexivity.
    - reflexivity.
    - by_compute.
    - by_compute. }
  assert (watchers ex_owned !! 1 = Some (watcher_of 1 ex_owned)) as Hx
    by (vm_compute; reflexivity).
  assert (active (watcher_of 1 ex_owned) = true) as Ha
    by (vm_compute; reflexivity).
  split; [exact Ht|]. split; [vm_compute; reflexivity|].
  split; [|vm_compute; reflexivity].
  exact (proj1 (Watcher_teardown_unsubscribes 1 _ ex_owned Ht Hx Ha)).
Defined.

(** X8 (Watcher.depend): [depend] on a watcher, called while another
    watcher is the current target, records every Dep of the first watcher's
    [deps] among the new dependencies of the target, and touches neither
    the heap nor the target stack. *)
Theorem Watcher_depend_forwards w o x xo st :
  watchers st !! w = Some x →
  target st = Some o → watchers st !! o = Some xo →
  same_store st (Watcher_depend w st) ∧
  ∃ xo', watchers (Watcher_depend w st) !! o = Some xo' ∧
         newDepIds xo' = list_to_set (deps x) ∪ newDepIds xo.
Proof.
  intros Hx Ht Ho. unfold Watcher_depend. rewrite Hx.
  exact (depend_loop_newDepIds o (deps x) xo st Ht Ho).
Qed.

Lemma Watcher_depend_forwards_witness :
  ∃ xo', watchers (Watcher_depend 1 (pushTarget (Some 2) (ex_two_lazy env_dev))) !! 2
         = Some xo' ∧ newDepIds xo' = {[0]}.
Proof.
  set (st := pushTarget (Some 2) (ex_two_lazy env_dev)).
  assert (watchers st !! 1 = Some lazy_watcher) as H1 by (vm_compute; reflexivity).
  assert (target st = Some 2) as Ht by reflexivity.
  assert (watchers st !! 2 = Some lazy_watcher) as H2 by (vm_compute; reflexivity).
  destruct (Watcher_depend_forwards 1 2 _ _ st H1 Ht H2) as (_ & xo' & Hx & Hn).
  exists xo'. split; [exact Hx|]. rewrite Hn. simpl. set_solver.
Defined.

(** ** index.js *)

(** X9 (observe, Observer, walk, observeArray, defineReactive): whatever
    [observe] is given, it keeps the class, the elements, the extensibility
    and the [_isVue] mark of every object of the heap, an [__ob__] that an
    object already carries, every property key, and the closures of the
    Deps that exist; it calls no [update] and no [notify]. *)
Theorem observe_keeps_heap fuel v b st st' r :
  observe fuel v b st = Some (st', r) → extends st st'.
Proof. apply observe_extends. Qed.

Lemma observe_keeps_heap_witness :
  extends (empty_world env_dev ex_heap) (ex_observed env_dev) ∧
  o_ob (object_of 0 (ex_observed env_dev)) = Some 0.
Proof.
  split; [|vm_compute; reflexivity].
  apply (observe_keeps_heap 3 (VRef 0) false (empty_world env_dev ex_heap)
           (ex_observed env_dev) (Ok (Some 0))).
  vm_compute. reflexivity.
Defined.

(** X10 (reactiveGetter): while a watcher is evaluated, the getter of a
    reactive property records the Dep of the property among the new
    dependencies of that watcher, and with it the Dep of the Observer of the
    value, if the value has one; the heap, the closures and the target
    stack stay as they are, and without a getter of the user's the result
    is the stored value. *)
Theorem reactiveGetter_collects fuel d c st st' v :
  closures st !! d = Some c → evaluating st →
  reactiveGetter fuel d st = Some (st', v) →
  same_store st st' ∧ collected d st' ∧
  (∀ ob, r_childOb c = Some ob → collected ob st') ∧
  (r_getter c = None → v = r_val c).
Proof.
  intros Hc Hev H. split.
  - apply reads_same_store. by eapply call_getter_reads.
  - by eapply call_getter_collects.
Qed.

Lemma reactiveGetter_collects_witness :
  evaluating ex_evaluating ∧
  ∃ st', reactiveGetter 1 3 ex_evaluating = Some (st', VNum (Int 2)) ∧
         collected 3 st'.
Proof.
  assert (evaluating ex_evaluating) as Hev.
  { exists 1, (watcher_of 1 ex_evaluating). split; vm_compute; reflexivity. }
  split; [exact Hev|].
  set (st' := after (reactiveGetter 1 3 ex_evaluating) ex_evaluating).
  assert (closures ex_evaluating !! 3 = Some (closure_of 3 ex_evaluating)) as Hc
    by (vm_compute; reflexivity).
  assert (reactiveGetter 1 3 ex_evaluating = Some (st', VNum (Int 2))) as E
    by (vm_compute; reflexivity).
  exists st'. split; [exact E|].
  exact (proj1 (proj2 (reactiveGetter_collects 1 3 _ ex_evaluating st' _ Hc Hev E))).
Defined.



(** ** traverse.js *)

(** X12 (traverse, _traverse): what a deep watcher relies on.  When
    [traverse] is applied, during an evaluation, to an object that is
    neither frozen nor a VNode nor already in the seen set, and returns,
    the Dep of every enumerable reactive property of the object is among
    the new dependencies of the watcher that is evaluated, also of a
    property the getter of the watcher did not read; the seen set is empty
    again. *)
Theorem traverse_collects fuel l o k p d s c st st' :
  heap st !! l = Some o →
  is_array o = false → is_frozen o = false → isVNode (VRef l) st = false →
  (∀ ob, o_ob o = Some ob → ob ∉ seenObjects st) →
  k ∈ keys o → own_prop o k = Some p →
  p_desc p = PAccessor (Some (FReactive d)) s →
  closures st !! d = Some c → evaluating st →
  traverse fuel (VRef l) st = Some st' →
  collected d st' ∧ seenObjects st' = ∅.
Proof.
  intros Ho Ha Hf Hv Hseen Hk Hp Hd Hc Hev H. unfold traverse in H.
  set (s0 := emit (ETraverse (VRef l)) st) in H.
  destruct (_traverse fuel (VRef l) s0) as [st1|] eqn:E; [|done].
  simpl in H. injection H as <-. split; [|done].
  destruct fuel as [|n]; [done|].
  rewrite (_traverse_object_step n l o s0 Ho Ha Hf Hv Hseen) in E.
  set (s1 := match o_ob o with
             | Some depId => set_seenObjects ({[depId]} ∪ seenObjects s0) s0
             | None => s0
             end) in E.
  assert (same_store st s1) as S1 by (unfold s1; by destruct (o_ob o)).
  assert (evaluating s1) as Hev1.
  { destruct Hev as (w & x & Ht & Hx). exists w, x. unfold s1.
    by destruct (o_ob o). }
  apply (mfold_step _ _ k) in E as (t & t' & R1 & Ek & R2).
  - pose proof (reads_same_store _ _ R1) as St.
    unfold prop_get in Ek.
    rewrite (ss_heap _ _ St), (ss_heap _ _ S1), Ho, Hp, Hd in Ek.
    destruct (call_getter n (FReactive d) t) as [[t2 v]|] eqn:Eg; [|done].
    cbn [mbind option_bind] in Ek.
    assert (closures t !! d = Some c) as Hct
      by (by rewrite (ss_closures _ _ St), (ss_closures _ _ S1)).
    destruct (call_getter_collects n d c t t2 v Hct
                (reads_evaluating _ _ R1 Hev1) Eg) as (C2 & _).
    assert (collected d st1) as (w & x & Ht & Hx & Hin).
    { eapply reads_collected; [exact R2|].
      eapply reads_collected; [|exact C2]. by eapply _traverse_reads. }
    by exists w, x.
  - intros b u u' Hb. destruct (prop_get n l b u) as [[u1 v]|] eqn:Eb; [|done].
    cbn [mbind option_bind] in Hb.
    eapply reads_trans; [by eapply prop_get_reads|by eapply _traverse_reads].
  - apply list_elem_of_In. apply -> in_rev. by apply list_elem_of_In.
Qed.

Lemma traverse_collects_witness :
  evaluating ex_evaluating ∧
  ∃ st', traverse 3 (VRef 0) ex_evaluating = Some st' ∧ collected 3 st'.
Proof.
  assert (evaluating ex_evaluating) as Hev.
  { exists 1, (watcher_of 1 ex_evaluating). split; vm_compute; reflexivity. }
  split; [exact Hev|].
  set (st' := default ex_evaluating (traverse 3 (VRef 0) ex_evaluating)).
  assert (traverse 3 (VRef 0) ex_evaluating = Some st') as E
    by (vm_compute; reflexivity).
  exists st'. split; [exact E|].
  assert (heap ex_evaluating !! 0 = Some (object_of 0 ex_evaluating)) as Ho
    by (vm_compute; reflexivity).
  assert (closures ex_evaluating !! 3 = Some (closure_of 3 ex_evaluating)) as Hc
    by (vm_compute; reflexivity).
  set (o := object_of 0 ex_evaluating) in *.
  assert (is_array o = false) as Ha by (vm_compute; reflexivity).
  assert (is_frozen o = false) as Hf by (vm_compute; reflexivity).
  assert (isVNode (VRef 0) ex_evaluating = false) as Hv
    by (vm_compute; reflexivity).
  assert (∀ ob, o_ob o = Some ob → ob ∉ seenObjects ex_evaluating) as Hs.
  { intros ob _. assert (seenObjects ex_evaluating = ∅) as ->
      by (vm_compute; reflexivity).
    apply not_elem_of_empty. }
  assert (KName "b" ∈ keys o) as Hk by by_compute.
  assert (own_prop o (KName "b") = Some (reactive_property 3)) as Hp
    by (vm_compute; reflexivity).
  exact (proj1 (traverse_collects 3 0 o (KName "b") (reactive_property 3) 3
                  (Some (FReactive 3)) (closure_of 3 ex_evaluating)
                  ex_evaluating st' Ho Ha Hf Hv Hs Hk Hp eq_refl Hc Hev E)).
Defined.
